(** * foldingdiff: the NERF chain builder, the angle table and the sampler step

    A shallow embedding of
    - [src/foldingdiff/nerf.py]: [place_dihedral] and [NERFBuilder];
    - [src/protdiff/angles_to_coords.py]: [canonical_distances_and_dihedrals];
    - [src/protdiff/sampling.py]: [p_sample].

    Numbers.  The Python code computes in IEEE floating point.  Geometry is
    stated here over the real numbers [R]: every [float] that is a finite
    number is read as the real it denotes and rounding is left out, so an
    equation proved below is the exact identity that the floating point
    result approximates.  Precision (single against double) is rounding and
    is left out with it.  Not-a-number is not: where the code tests for it
    ([angles_to_coords.py]) the three special values are modelled, see
    [xfloat], and where the chain builder divides zero by zero (collinear
    atoms) the arrays of three not-a-numbers are modelled, see [fvec]. *)

From Stdlib Require Import String Reals Lra Psatz Arith Lia ZArith Bool List.
Import ListNotations.

Local Open Scope R_scope.

(** ** Python exceptions and results *)

Inductive exn : Type :=
| IndexError
| KeyError
| AssertionError.

Inductive result (A : Type) : Type :=
| Ok (a : A)
| Raise (e : exn).

Arguments Ok {A} a.
Arguments Raise {A} e.

Definition bind {A B : Type} (r : result A) (k : A -> result B) : result B :=
  match r with
  | Ok a => k a
  | Raise e => Raise e
  end.

Notation "x <- r ;; k" := (bind r (fun x => k))
  (at level 61, r at next level, right associativity).

Definition assert (b : bool) : result unit :=
  if b then Ok tt else Raise AssertionError.

(** [for x in xs: s = body(s, x)], stopping at the first exception. *)
Fixpoint for_each {S X : Type} (body : S -> X -> result S) (xs : list X) (s : S)
  : result S :=
  match xs with
  | [] => Ok s
  | x :: rest => s' <- body s x ;; for_each body rest s'
  end.

(** ** Three-component arrays *)

Record vec3 : Type := V3 { vx : R; vy : R; vz : R }.

Definition vzero : vec3 := V3 0 0 0.

Definition vadd (u v : vec3) : vec3 := V3 (vx u + vx v) (vy u + vy v) (vz u + vz v).
Definition vsub (u v : vec3) : vec3 := V3 (vx u - vx v) (vy u - vy v) (vz u - vz v).
Definition vdiv (u : vec3) (k : R) : vec3 := V3 (vx u / k) (vy u / k) (vz u / k).
Definition dot (u v : vec3) : R := vx u * vx v + vy u * vy v + vz u * vz v.

(** [np.linalg.norm] / [torch.linalg.norm] of a 1-D array: the 2-norm. *)
Definition norm (u : vec3) : R := sqrt (vx u * vx u + vy u * vy u + vz u * vz u).

(** [np.cross] / [torch.cross] on 3-vectors. *)
Definition cross (u v : vec3) : vec3 :=
  V3 (vy u * vz v - vz u * vy v)
     (vz u * vx v - vx u * vz v)
     (vx u * vy v - vy u * vx v).

(** [unit_vec = lambda x: x / norm(x)], for [x] other than the zero vector
    (at the zero vector the code returns not-a-number, see [unit_vec_nan]). *)
Definition unit_vec (x : vec3) : vec3 := vdiv x (norm x).

(** A 3x3 array, by rows. *)
Record mat3 : Type := M3 { row0 : vec3; row1 : vec3; row2 : vec3 }.

(** [stack([r0, r1, r2])] *)
Definition stack (r0 r1 r2 : vec3) : mat3 := M3 r0 r1 r2.

(** [m.T] *)
Definition transpose (m : mat3) : mat3 :=
  M3 (V3 (vx (row0 m)) (vx (row1 m)) (vx (row2 m)))
     (V3 (vy (row0 m)) (vy (row1 m)) (vy (row2 m)))
     (V3 (vz (row0 m)) (vz (row1 m)) (vz (row2 m))).

(** [m.dot(d)] for a 3x3 [m] and a 1-D [d]. *)
Definition mdot (m : mat3) (d : vec3) : vec3 :=
  V3 (dot (row0 m) d) (dot (row1 m) d) (dot (row2 m) d).

(** A 3x1 tensor (the result of [torch.vstack] on three 0-d tensors), by rows;
    each row holds one entry. *)
Record col3 : Type := Col3 { c0 : list R; c1 : list R; c2 : list R }.

Definition vstack (x y z : R) : col3 := Col3 [x] [y] [z].

(** One entry of a matrix product: a row of the left factor against a column
    of the right one, summed left to right over the shared axis. *)
Definition row_times_col (r : vec3) (d : col3) (j : nat) : R :=
  fold_left Rplus
    [vx r * nth j (c0 d) 0; vy r * nth j (c1 d) 0; vz r * nth j (c2 d) 0] 0.

(** [torch.mm(m, d)] for a 3x3 [m] and a 3x1 [d]. *)
Definition mm (m : mat3) (d : col3) : col3 :=
  Col3 [row_times_col (row0 m) d 0]
       [row_times_col (row1 m) d 0]
       [row_times_col (row2 m) d 0].

(** [.squeeze()] of a 3x1 tensor: the axis of size one is dropped. *)
Definition squeeze_col (d : col3) : vec3 :=
  V3 (nth 0 (c0 d) 0) (nth 0 (c1 d) 0) (nth 0 (c2 d) 0).

(** ** [place_dihedral]  (nerf.py, lines 131-188)

    The [assert a.ndim == b.ndim == c.ndim == 1] holds by typing: a [vec3] is
    a 1-D array.  In Torch mode [ensure_tensor] wraps what is not yet a tensor
    with [torch.tensor], which stores a Python [float] ([bond_angle],
    [bond_length]) in single precision, and [.type(m.dtype)] casts the offset
    back to the precision of the frame.  Both change the precision a number
    is kept in and neither changes the real it is read as, so over [R] they
    do not appear; what the two modes return as floating point numbers is
    not described by this definition.

    [unit_vec] is a division by a norm.  Over [R] this definition is the
    code on non-collinear [a], [b], [c], where both norms are nonzero; on
    collinear points the code divides zero by zero, see [place_dihedral_nan]
    for that case. *)
Definition place_dihedral (a b c : vec3) (bond_angle bond_length torsion_angle : R)
                          (use_torch : bool) : vec3 :=
  let ab := vsub b a in
  let bc := unit_vec (vsub c b) in
  let n := unit_vec (cross ab bc) in
  let nbc := cross n bc in
  let m := transpose (stack bc nbc n) in
  let d :=
    if negb use_torch then
      let d := V3 (- bond_length * cos bond_angle)
                  (bond_length * cos torsion_angle * sin bond_angle)
                  (bond_length * sin torsion_angle * sin bond_angle) in
      mdot m d
    else
      let d := vstack (- bond_length * cos bond_angle)
                      (bond_length * cos torsion_angle * sin bond_angle)
                      (bond_length * sin torsion_angle * sin bond_angle) in
      squeeze_col (mm m d)
  in
  vadd d c.

(** Three points are collinear when the two edges between them are parallel
    (this includes two of them being equal). *)
Definition collinear (a b c : vec3) : Prop :=
  cross (vsub b a) (vsub c b) = vzero.


(** ** Arrays of torsion angles

    [phi_dihedrals], [psi_dihedrals] and [omega_dihedrals] are NumPy arrays or
    Torch tensors.  The builder is given one angle per residue, a 1-D array;
    [squeeze] is what can turn it into a 0-d one, so both ranks are modelled. *)
Inductive ndarray : Type :=
| Arr0 (x : R)            (* shape () *)
| Arr1 (xs : list R).     (* shape (len xs,) *)

(** An argument of the constructor: the values, and whether the container is a
    [torch.Tensor]. *)
Record array : Type := { is_tensor : bool; values : ndarray }.

(** [a.squeeze()]: every axis of size one is removed, so a 1-D array with one
    entry becomes a 0-d array. *)
Definition squeeze (a : ndarray) : ndarray :=
  match a with
  | Arr1 [x] => Arr0 x
  | _ => a
  end.

(** [a[1:]]; a 0-d array cannot be sliced. *)
Definition slice_from_1 (a : ndarray) : result (list R) :=
  match a with
  | Arr0 _ => Raise IndexError
  | Arr1 xs => Ok (tl xs)
  end.

(** [a[:-1]]; a 0-d array cannot be sliced. *)
Definition slice_to_last (a : ndarray) : result (list R) :=
  match a with
  | Arr0 _ => Raise IndexError
  | Arr1 xs => Ok (removelast xs)
  end.

(** [l[-k]] for a Python list and [k >= 1]. *)
Definition neg_index {A : Type} (l : list A) (k : nat) : result A :=
  if (length l <? k)%nat then Raise IndexError
  else match nth_error l (length l - k) with
       | Some a => Ok a
       | None => Raise IndexError
       end.

(** [zip(xs, ys, zs)]: stops with the shortest argument. *)
Fixpoint zip3 {A B C : Type} (xs : list A) (ys : list B) (zs : list C)
  : list (A * B * C) :=
  match xs, ys, zs with
  | x :: xs', y :: ys', z :: zs' => (x, y, z) :: zip3 xs' ys' zs'
  | _, _, _ => []
  end.

(** [enumerate(xs)], counting from [start]. *)
Fixpoint enumerate_from {A : Type} (start : nat) (xs : list A) : list (nat * A) :=
  match xs with
  | [] => []
  | x :: rest => (start, x) :: enumerate_from (S start) rest
  end.

Definition enumerate {A : Type} (xs : list A) : list (nat * A) := enumerate_from 0 xs.

(** ** Bond tables

    A [dict] keeps its keys in insertion order; the builder iterates over
    [self.bond_lengths.keys()], so the order is part of the model. *)
Definition bond : Type := (string * string)%type.

Definition bond_eqb (k1 k2 : bond) : bool :=
  (String.eqb (fst k1) (fst k2) && String.eqb (snd k1) (snd k2))%bool.

Definition dict (V : Type) : Type := list (bond * V).

Definition keys {V : Type} (d : dict V) : list bond := map fst d.

(** [d[k]] *)
Fixpoint getitem {V : Type} (d : dict V) (k : bond) : result V :=
  match d with
  | [] => Raise KeyError
  | (k', v) :: rest => if bond_eqb k' k then Ok v else getitem rest k
  end.

(** [Union[float, np.ndarray]]: one value for the whole chain, or one per
    residue. *)
Inductive bond_value : Type :=
| Scalar (v : R)
| PerResidue (v : list R).

Definition C_N : bond := ("C"%string, "N"%string).
Definition N_CA : bond := ("N"%string, "CA"%string).
Definition CA_C : bond := ("CA"%string, "C"%string).

(** ** [NERFBuilder]  (nerf.py, lines 27-128) *)

Definition N_CA_LENGTH : R := 146 / 100.
Definition CA_C_LENGTH : R := 154 / 100.
Definition C_N_LENGTH : R := 134 / 100.

Definition N_INIT : list R := [17047 / 1000; 14099 / 1000; 3625 / 1000].
Definition CA_INIT : list R := [16967 / 1000; 12784 / 1000; 4338 / 1000].
Definition C_INIT : list R := [15685 / 1000; 12755 / 1000; 5133 / 1000].

Definition default_bond_angle_n_ca : R := 121 / 180 * PI.
Definition default_bond_angle_ca_c : R := 109 / 180 * PI.
Definition default_bond_angle_c_n : R := 115 / 180 * PI.

Record NERFBuilder : Type := {
  use_torch : bool;
  phi : ndarray;
  psi : ndarray;
  omega : ndarray;
  bond_lengths : dict bond_value;
  bond_angles : dict bond_value;
  init_coords : list vec3
}.

(** An initial coordinate of [size] 3 as a point. *)
Definition as_vec3 (c : list R) : option vec3 :=
  match c with
  | [x; y; z] => Some (V3 x y z)
  | _ => None
  end.

Fixpoint all_vec3 (cs : list (list R)) : option (list vec3) :=
  match cs with
  | [] => Some []
  | c :: rest =>
      match as_vec3 c, all_vec3 rest with
      | Some v, Some vs => Some (v :: vs)
      | _, _ => None
      end
  end.

(** [NERFBuilder.__init__]; the two assertions are the only validation. *)
Definition NERFBuilder_init
    (phi_dihedrals psi_dihedrals omega_dihedrals : array)
    (bond_len_n_ca bond_len_ca_c bond_len_c_n : bond_value)
    (bond_angle_n_ca bond_angle_ca_c bond_angle_c_n : bond_value)
    (init_coords : list (list R)) : result NERFBuilder :=
  let use_torch :=
    existsb is_tensor [phi_dihedrals; psi_dihedrals; omega_dihedrals] in
  let phi := squeeze (values phi_dihedrals) in
  let psi := squeeze (values psi_dihedrals) in
  let omega := squeeze (values omega_dihedrals) in
  let bond_lengths :=
    [(C_N, bond_len_c_n); (N_CA, bond_len_n_ca); (CA_C, bond_len_ca_c)] in
  let bond_angles :=
    [(C_N, bond_angle_c_n); (N_CA, bond_angle_n_ca); (CA_C, bond_angle_ca_c)] in
  _ <- assert (length init_coords =? 3)%nat ;;
  match all_vec3 init_coords with
  | None => Raise AssertionError
  | Some coords =>
      Ok {| use_torch := use_torch; phi := phi; psi := psi; omega := omega;
            bond_lengths := bond_lengths; bond_angles := bond_angles;
            init_coords := coords |}
  end.

(** [_get_bond_length] and [_get_bond_angle]: a scalar as it is, a sequence
    indexed with no check of its own. *)
Definition index_bond_value (v : bond_value) (idx : nat) : result R :=
  match v with
  | Scalar x => Ok x
  | PerResidue xs =>
      match nth_error xs idx with
      | Some x => Ok x
      | None => Raise IndexError
      end
  end.

Definition _get_bond_length (self : NERFBuilder) (b : bond) (idx : nat) : result R :=
  v <- getitem (bond_lengths self) b ;; index_bond_value v idx.

Definition _get_bond_angle (self : NERFBuilder) (b : bond) (idx : nat) : result R :=
  v <- getitem (bond_angles self) b ;; index_bond_value v idx.

(** The body of the inner loop: one call of [place_dihedral] on the last three
    atoms, appended to [retval]. *)
Definition place_next (self : NERFBuilder) (i : nat) (retval : list vec3)
                      (bond_dih : bond * R) : result (list vec3) :=
  let '(b, dih) := bond_dih in
  a3 <- neg_index retval 3 ;;
  a2 <- neg_index retval 2 ;;
  a1 <- neg_index retval 1 ;;
  bond_angle <- _get_bond_angle self b i ;;
  bond_length <- _get_bond_length self b i ;;
  Ok (retval ++ [place_dihedral a3 a2 a1 bond_angle bond_length dih (use_torch self)]).

(** The body of the outer loop, for residue index [i]. *)
Definition place_residue (self : NERFBuilder) (retval : list vec3)
                         (item : nat * (R * R * R)) : result (list vec3) :=
  let '(i, (phi, psi, omega)) := item in
  for_each (place_next self i)
           (combine (keys (bond_lengths self)) [psi; omega; phi]) retval.

(** [NERFBuilder.cartesian_coords].  [cached_property] stores the value of the
    first call; the value itself is this function of the builder's fields.
    [torch.tensor(x, requires_grad=True)], [torch.stack] and [np.array] change
    the container of the atoms, not the atoms.  The atoms are the code's as
    long as no placement meets three collinear atoms; [cartesian_coords_nan]
    is the same loop with not-a-number. *)
Definition cartesian_coords (self : NERFBuilder) : result (list vec3) :=
  let retval := init_coords self in
  phis <- slice_from_1 (phi self) ;;
  psis <- slice_to_last (psi self) ;;
  omegas <- slice_to_last (omega self) ;;
  for_each (place_residue self) (enumerate (zip3 phis psis omegas)) retval.

(** [coords.mean(axis=0)], for a chain of numbers (with a not-a-number atom in
    the chain, see [mean_axis0_nan]). *)
Definition mean_axis0 (coords : list vec3) : vec3 :=
  vdiv (fold_left vadd coords vzero) (INR (length coords)).

(** [NERFBuilder.centered_cartesian_coords], for a chain of numbers. *)
Definition centered_cartesian_coords (self : NERFBuilder) : result (list vec3) :=
  coords <- cartesian_coords self ;;
  let means := mean_axis0 coords in
  Ok (map (fun x => vsub x means) coords).

(** ** [canonical_distances_and_dihedrals]  (angles_to_coords.py, lines 60-124)

    This function tests for not-a-number, so its numbers are [float64] values
    with the special ones kept apart. *)
Inductive xfloat : Type :=
| Fin (r : R)
| PosInf
| NegInf
| NaN.

Definition isnan (x : xfloat) : bool :=
  match x with NaN => true | _ => false end.

(** [x / 180 * np.pi] *)
Definition deg_to_rad (x : xfloat) : xfloat :=
  match x with
  | Fin r => Fin (r / 180 * PI)
  | other => other
  end.

(** [x >= lo] and [x <= hi] for a finite bound; a comparison with not-a-number
    is false. *)
Definition xge (x : xfloat) (lo : R) : bool :=
  match x with
  | Fin r => if Rle_dec lo r then true else false
  | PosInf => true
  | NegInf => false
  | NaN => false
  end.

Definition xle (x : xfloat) (hi : R) : bool :=
  match x with
  | Fin r => if Rle_dec r hi then true else false
  | PosInf => false
  | NegInf => true
  | NaN => false
  end.

(** [np.finfo(np.float64).max] *)
Definition float64_max : R := (2 - / 2 ^ 52) * 2 ^ 1023.

(** [np.nan_to_num]: "Replace nan with 0 and inf with large num". *)
Definition nan_to_num (x : xfloat) : xfloat :=
  match x with
  | Fin r => Fin r
  | PosInf => Fin float64_max
  | NegInf => Fin (- float64_max)
  | NaN => Fin 0
  end.

(** [np.array([...], dtype=np.float64)] on what [get_length] and [get_angle]
    return: [None] becomes not-a-number. *)
Definition to_float64 (v : option xfloat) : xfloat :=
  match v with
  | Some x => x
  | None => NaN
  end.

(** The Biopython objects, as far as the function reads them. *)
Record IC_Residue : Type := {
  get_length : string -> option xfloat;
  get_angle : string -> option xfloat
}.

Record Chain : Type := {
  get_resnames : list string;                 (* [r.get_resname()] of [get_residues()] *)
  ordered_aa_ic_list : list IC_Residue;       (* [chain.internal_coord] *)
  structure_rebuild_test_pass : bool          (* [ic_rebuild.structure_rebuild_test(chain)["pass"]] *)
}.

Record Structure : Type := { get_chains : list Chain }.

Record DataFrame : Type := { columns : list string; data : list (list xfloat) }.

(** [chains.pop()] *)
Definition pop {A : Type} (l : list A) : result A :=
  match rev l with
  | [] => Raise IndexError
  | x :: _ => Ok x
  end.

(** [a[mask]]: the entries selected by a boolean mask. *)
Fixpoint select {A : Type} (xs : list A) (mask : list bool) : list A :=
  match xs, mask with
  | x :: xs', m :: mask' => if m then x :: select xs' mask' else select xs' mask'
  | _, _ => []
  end.

Definition not_water_or_sodium (resname : string) : bool :=
  negb (String.eqb resname "HOH" || String.eqb resname "NA").

(** The body of the loop over [ic.ordered_aa_ic_list]. *)
Definition residue_row (distances angles : list string) (use_radians : bool)
                       (values : list (list xfloat)) (ric : IC_Residue)
  : result (list (list xfloat)) :=
  let this_dists := map (fun d => to_float64 (get_length ric d)) distances in
  let this_angles := map (fun a => to_float64 (get_angle ric a)) angles in
  let this_angles_nonnan := map (fun a => negb (isnan a)) this_angles in
  this_angles <-
    (if use_radians then
       let this_angles := map deg_to_rad this_angles in
       _ <- assert (forallb (fun a => xge a (- PI)) (select this_angles this_angles_nonnan)
                    && forallb (fun a => xle a PI) (select this_angles this_angles_nonnan)) ;;
       Ok this_angles
     else
       _ <- assert (forallb (fun a => xge a (- 180)) (select this_angles this_angles_nonnan)
                    && forallb (fun a => xle a 180) (select this_angles this_angles_nonnan)) ;;
       Ok this_angles) ;;
  Ok (values ++ [this_dists ++ this_angles]).

(** [np.array(values).shape == (len(residues), len(distances) + len(angles))]:
    every row has [len(distances) + len(angles)] entries, and an array made
    from no rows has the shape [(0,)], which is no pair. *)
Definition shape_matches (values : list (list xfloat)) (n_residues : nat) : bool :=
  match values with
  | [] => false
  | _ => (length values =? n_residues)%nat
  end.

(** The function, from the parsed structure on ([parser.get_structure] is the
    collaborator's).  [Ok None] is [return None]. *)
Definition canonical_distances_and_dihedrals
    (s : Structure) (distances angles : list string) (use_radians : bool)
  : result (option DataFrame) :=
  let chains := get_chains s in
  if (1 <? length chains)%nat then Ok None
  else
    chain <- pop chains ;;
    let residues := filter not_water_or_sodium (get_resnames chain) in
    if negb (structure_rebuild_test_pass chain) then Ok None
    else
      values <- for_each (residue_row distances angles use_radians)
                         (ordered_aa_ic_list chain) [] ;;
      let retval := map (map nan_to_num) values in
      _ <- assert (shape_matches retval (length residues)) ;;
      Ok (Some {| columns := distances ++ angles; data := retval |}).

Definition default_distances : list string := ["0C:1N"%string].
Definition default_angles : list string :=
  ["phi"%string; "psi"%string; "omega"%string; "tau"%string].

(** ** [p_sample]  (sampling.py, lines 19-67)

    Torch and the network are collaborators: the tensor type, its arithmetic
    and the random source are an interface the step is written against, and
    [beta_schedules.compute_alphas] (a module that is not part of these
    sources) and the network are parameters of the step. *)
Record alpha_beta_terms : Type := {
  alphas : list R;
  sqrt_one_minus_alphas_cumprod : list R;
  posterior_variance : list R
}.

Class Torch (tensor generator : Type) : Type := {
  shape2 : tensor -> nat * nat;                      (* [x.shape[:2]] *)
  scale : R -> tensor -> tensor;                     (* [k * x] *)
  div_scalar : tensor -> R -> tensor;                (* [x / k] *)
  sub : tensor -> tensor -> tensor;                  (* [x - y] *)
  add : tensor -> tensor -> tensor;                  (* [x + y] *)
  randn_like : generator -> tensor -> tensor * generator
}.

(** [torch.unique(t)] of a 1-D tensor of integers: the distinct values,
    ascending. *)
Fixpoint insert_unique (v : Z) (sorted : list Z) : list Z :=
  match sorted with
  | [] => [v]
  | w :: rest =>
      if (v <? w)%Z then v :: sorted
      else if (v =? w)%Z then sorted
      else w :: insert_unique v rest
  end.

Definition unique (t : list Z) : list Z := fold_right insert_unique [] t.

(** [a[i]] for a 1-D tensor and a Python integer: a negative index counts from
    the end. *)
Definition tensor_getitem (a : list R) (i : Z) : result R :=
  let n := Z.of_nat (length a) in
  let j := if (i <? 0)%Z then (i + n)%Z else i in
  if ((j <? 0) || (n <=? j))%Z then Raise IndexError
  else match nth_error a (Z.to_nat j) with
       | Some x => Ok x
       | None => Raise IndexError
       end.

(** [attn_mask[i, :l] = 1.0] on a mask of [rows] rows; a negative [l] stops that
    many entries before the end. *)
Definition slice_stop (len : nat) (l : Z) : nat :=
  if (l <? 0)%Z then Z.to_nat (Z.of_nat len + l) else Nat.min (Z.to_nat l) len.

Definition set_row_prefix (mask : list (list R)) (i : nat) (l : Z)
  : result (list (list R)) :=
  match nth_error mask i with
  | None => Raise IndexError
  | Some row =>
      let k := slice_stop (length row) l in
      Ok (firstn i mask ++ (repeat 1 k ++ skipn k row) :: skipn (S i) mask)
  end.

Definition attention_mask (shape : nat * nat) (seq_lens : list Z)
  : result (list (list R)) :=
  for_each (fun mask '(i, l) => set_row_prefix mask i l)
           (enumerate seq_lens)
           (repeat (repeat 0 (snd shape)) (fst shape)).

Section Sampling.
Context {tensor generator : Type} `{Torch tensor generator}.

(** [beta_schedules.compute_alphas] *)
Variable compute_alphas : list R -> alpha_beta_terms.

(** The noise predictor, [model(x, t, attention_mask=attn_mask)]. *)
Variable model : tensor -> list Z -> list (list R) -> tensor.

(** The generator state is threaded through: the result is the sample and
    the state after it.  The assertion on [t_unique] and [t_unique.item()]
    are the one [match]. *)
Definition p_sample (x : tensor) (t : list Z) (seq_lens : list Z) (t_index : Z)
                    (betas : list R) (g : generator)
  : result (tensor * generator) :=
  let alpha_beta_values := compute_alphas betas in
  let sqrt_recip_alphas := map (fun a => 1 / sqrt a) (alphas alpha_beta_values) in
  let t_unique := unique t in
  match t_unique with
  | [item] =>
      let t_index := item in
      sqrt_recip_alphas_t <- tensor_getitem sqrt_recip_alphas t_index ;;
      betas_t <- tensor_getitem betas t_index ;;
      sqrt_one_minus_alphas_cumprod_t <-
        tensor_getitem (sqrt_one_minus_alphas_cumprod alpha_beta_values) t_index ;;
      attn_mask <- attention_mask (shape2 x) seq_lens ;;
      let model_mean :=
        scale sqrt_recip_alphas_t
              (sub x (div_scalar (scale betas_t (model x t attn_mask))
                                 sqrt_one_minus_alphas_cumprod_t)) in
      if (t_index =? 0)%Z then Ok (model_mean, g)
      else
        posterior_variance_t <-
          tensor_getitem (posterior_variance alpha_beta_values) t_index ;;
        let '(noise, g') := randn_like g x in
        Ok (add model_mean (scale (sqrt posterior_variance_t) noise), g')
  | _ => Raise AssertionError
  end.
End Sampling.
(** ** Auxiliary definitions used in the proofs *)

(** The offset [d - c] in terms of the frame: both branches of the mode switch
    compute the same combination of the three frame axes. *)
Definition frame_combination (u n : vec3) (x y z : R) : vec3 :=
  let nu := cross n u in
  V3 (x * vx u + y * vx nu + z * vx n)
     (x * vy u + y * vy nu + z * vy n)
     (x * vz u + y * vz nu + z * vz n).


(** The three atoms one residue adds, from the three atoms before them. *)
Definition place3 (use_torch : bool) (q0 q1 q2 : vec3)
                  (a1 l1 a2 l2 a3 l3 : R) (phi psi omega : R) : list vec3 :=
  let q3 := place_dihedral q0 q1 q2 a1 l1 psi use_torch in
  let q4 := place_dihedral q1 q2 q3 a2 l2 omega use_torch in
  let q5 := place_dihedral q2 q3 q4 a3 l3 phi use_torch in
  [q3; q4; q5].

(** The bond parameters of residue index [i], in the order they are read. *)
Definition bond_params (self : NERFBuilder) (i : nat) (a1 l1 a2 l2 a3 l3 : R) : Prop :=
  _get_bond_angle self C_N i = Ok a1 /\ _get_bond_length self C_N i = Ok l1 /\
  _get_bond_angle self N_CA i = Ok a2 /\ _get_bond_length self N_CA i = Ok l2 /\
  _get_bond_angle self CA_C i = Ok a3 /\ _get_bond_length self CA_C i = Ok l3.

(** In [coords], the atoms at [base+3], [base+4] and [base+5] were placed for
    residue index [i], each from the three atoms before it, with the bonds
    C-N, N-CA, CA-C and the torsions [psi], [omega], [phi] in this order. *)
Definition residue_placed (self : NERFBuilder) (coords : list vec3) (base i : nat)
                          (phi psi omega : R) : Prop :=
  exists q0 q1 q2 a1 l1 a2 l2 a3 l3,
    bond_params self i a1 l1 a2 l2 a3 l3 /\
    nth_error coords base = Some q0 /\
    nth_error coords (base + 1) = Some q1 /\
    nth_error coords (base + 2) = Some q2 /\
    let q3 := place_dihedral q0 q1 q2 a1 l1 psi (use_torch self) in
    let q4 := place_dihedral q1 q2 q3 a2 l2 omega (use_torch self) in
    let q5 := place_dihedral q2 q3 q4 a3 l3 phi (use_torch self) in
    nth_error coords (base + 3) = Some q3 /\
    nth_error coords (base + 4) = Some q4 /\
    nth_error coords (base + 5) = Some q5.

(** A builder whose two tables hold the three bonds in the order the
    constructor writes them, and which starts from three atoms. *)
Definition constructed (self : NERFBuilder) : Prop :=
  keys (bond_lengths self) = [C_N; N_CA; CA_C] /\
  keys (bond_angles self) = [C_N; N_CA; CA_C] /\
  length (init_coords self) = 3%nat.

(** Euclidean distance between two atoms. *)
Definition dist (u v : vec3) : R := norm (vsub u v).

(** Construct a builder and read [cartesian_coords], as [main] does. *)
Definition build_cartesian_coords
    (phi_dihedrals psi_dihedrals omega_dihedrals : array)
    (bond_len_n_ca bond_len_ca_c bond_len_c_n : bond_value)
    (bond_angle_n_ca bond_angle_ca_c bond_angle_c_n : bond_value)
    (init_coords : list (list R)) : result (list vec3) :=
  self <- NERFBuilder_init phi_dihedrals psi_dihedrals omega_dihedrals
            bond_len_n_ca bond_len_ca_c bond_len_c_n
            bond_angle_n_ca bond_angle_ca_c bond_angle_c_n init_coords ;;
  cartesian_coords self.

(** A NumPy array and a Torch tensor with the given entries. *)
Definition np_array (xs : list R) : array := {| is_tensor := false; values := Arr1 xs |}.
Definition torch_tensor (xs : list R) : array := {| is_tensor := true; values := Arr1 xs |}.

(** No bond of the tables has length zero and no bond angle is straight. *)
Definition nondegenerate_tables (self : NERFBuilder) : Prop :=
  forall (b : bond) (i : nat),
    (forall L, _get_bond_length self b i = Ok L -> L <> 0) /\
    (forall theta, _get_bond_angle self b i = Ok theta -> sin theta <> 0).

(** [NERFBuilder(phi, psi, omega)]: every keyword argument at its default. *)
Definition NERFBuilder_default (phi_dihedrals psi_dihedrals omega_dihedrals : array)
  : result NERFBuilder :=
  NERFBuilder_init phi_dihedrals psi_dihedrals omega_dihedrals
    (Scalar N_CA_LENGTH) (Scalar CA_C_LENGTH) (Scalar C_N_LENGTH)
    (Scalar default_bond_angle_n_ca) (Scalar default_bond_angle_ca_c)
    (Scalar default_bond_angle_c_n)
    [N_INIT; CA_INIT; C_INIT].

(** The number of residue indices the placement loop runs over, for the
    arrays the builder holds: [zip] stops with the shortest slice. *)
Definition residues_processed (phis psis omegas : list R) : nat :=
  Nat.min (length phis - 1) (Nat.min (length psis - 1) (length omegas - 1)).

(** A table entry answers every residue index below [k]. *)
Definition covers (v : bond_value) (k : nat) : Prop :=
  match v with
  | Scalar _ => True
  | PerResidue xs => (k <= length xs)%nat
  end.

(** One row of the table, as the loop body leaves it after [nan_to_num]. *)
Definition table_row (distances angles : list string) (use_radians : bool)
                     (ric : IC_Residue) : list xfloat :=
  map (fun d => nan_to_num (to_float64 (get_length ric d))) distances
  ++ map (fun a => nan_to_num
                     ((if use_radians then deg_to_rad else fun x => x)
                        (to_float64 (get_angle ric a)))) angles.

(** The first residue of a chain: no residue before it, so no [phi]. *)
Definition first_residue : IC_Residue :=
  {| get_length := fun _ => Some (Fin (133 / 100));
     get_angle := fun a => if String.eqb a "phi" then None else Some (Fin 90) |}.

Definition one_residue_structure : Structure :=
  {| get_chains :=
       [ {| get_resnames := ["ALA"%string];
            ordered_aa_ic_list := [first_residue];
            structure_rebuild_test_pass := true |} ] |}.

(** Tensors as nested lists (batch, position, feature) with entrywise
    arithmetic, and a counter for the random source: an instance of the
    interface to run [p_sample] on. *)
Definition map3 (f : R -> R) (x : list (list (list R))) : list (list (list R)) :=
  map (map (map f)) x.

Definition zip3_with (f : R -> R -> R) (x y : list (list (list R)))
  : list (list (list R)) :=
  map (fun '(a, b) => map (fun '(c, d) => map (fun '(u, v) => f u v) (combine c d))
                          (combine a b))
      (combine x y).

#[local] Instance nested_list_torch : Torch (list (list (list R))) nat := {
  shape2 := fun x => (length x, length (hd [] x));
  scale := fun k x => map3 (Rmult k) x;
  div_scalar := fun x k => map3 (fun v => v / k) x;
  sub := zip3_with Rminus;
  add := zip3_with Rplus;
  randn_like := fun g x => (map3 (fun _ => INR g) x, S g)
}.

(** ** Geometry used to state what [place_dihedral] achieves *)

(** The angle between two vectors. *)
Definition angle_between (u v : vec3) : R :=
  acos (dot u v / (norm u * norm v)).

(** [v + t] for every atom of a chain. *)
Definition translate (t : vec3) (coords : list vec3) : list vec3 :=
  map (fun v => vadd v t) coords.

(** The value of a result under a function; an exception stays as it is. *)
Definition result_map {A B : Type} (f : A -> B) (r : result A) : result B :=
  match r with
  | Ok a => Ok (f a)
  | Raise e => Raise e
  end.

(** Two angles with the same cosine and sine: the same direction. *)
Definition same_angle (x y : R) : Prop := cos x = cos y /\ sin x = sin y.

(** ** [sample_coords]  (angles_to_coords.py, lines 127-165) *)

(** The Biopython atoms and residues, as far as the function reads them. *)
Record Atom : Type := { get_name : string; get_coord : vec3 }.

Record Residue : Type := { get_resname : string; get_atoms : list Atom }.

(** A [dict] from atom names to coordinates, keys in insertion order. *)
Definition atom_dict : Type := list (string * vec3).

(** [d[k] = v]: an existing key keeps its place and takes the new value. *)
Fixpoint atom_setitem (d : atom_dict) (k : string) (v : vec3) : atom_dict :=
  match d with
  | [] => [(k, v)]
  | (k', v') :: rest =>
      if String.eqb k' k then (k', v) :: rest else (k', v') :: atom_setitem rest k v
  end.

(** [k in d] *)
Fixpoint atom_contains (d : atom_dict) (k : string) : bool :=
  match d with
  | [] => false
  | (k', _) :: rest => String.eqb k' k || atom_contains rest k
  end.

(** [d[k]] *)
Fixpoint atom_getitem (d : atom_dict) (k : string) : result vec3 :=
  match d with
  | [] => Raise KeyError
  | (k', v) :: rest => if String.eqb k' k then Ok v else atom_getitem rest k
  end.

(** [[f(x) for x in xs]], stopping at the first exception. *)
Fixpoint comprehension {A B : Type} (f : A -> result B) (xs : list A) : result (list B) :=
  match xs with
  | [] => Ok []
  | x :: rest => y <- f x ;; ys <- comprehension f rest ;; Ok (y :: ys)
  end.

(** [subset_residues is not None and resname not in subset_residues] *)
Definition excluded (subset_residues : option (list string)) (resname : string) : bool :=
  match subset_residues with
  | None => false
  | Some names => negb (existsb (String.eqb resname) names)
  end.

(** A data frame of coordinates: the index and the rows. *)
Record CoordFrame : Type := { frame_index : list string; frame_rows : list vec3 }.

(** The body of the loop over the residues of one chain. *)
Definition sample_residue (subset_residues : option (list string))
                          (query_atoms : list string)
                          (atomic_coords : list CoordFrame) (res : Residue)
  : result (list CoordFrame) :=
  if excluded subset_residues (get_resname res) then Ok atomic_coords
  else
    let coords :=
      fold_left (fun d atom => atom_setitem d (get_name atom) (get_coord atom))
                (get_atoms res) [] in
    (* the loop with [break]: true when no queried atom is missing *)
    let all_atoms_present := forallb (atom_contains coords) query_atoms in
    if all_atoms_present then
      rows <- comprehension (atom_getitem coords) query_atoms ;;
      Ok (atomic_coords ++ [{| frame_index := query_atoms; frame_rows := rows |}])
    else Ok atomic_coords.

(** [sample_coords], from the parsed structure on: [chains] are the residues
    of each chain of [s.get_chains()]. *)
Definition sample_coords (chains : list (list Residue))
                         (subset_residues : option (list string))
                         (query_atoms : list string) : result (list CoordFrame) :=
  for_each (fun atomic_coords chain =>
              let residues :=
                filter (fun r => not_water_or_sodium (get_resname r)) chain in
              for_each (sample_residue subset_residues query_atoms) residues atomic_coords)
           chains [].

Definition default_query_atoms : list string :=
  ["N"%string; "CA"%string; "C"%string; "O"%string; "CB"%string].

(** *** What the two functions are compared with *)

(** A value read from the collaborator is acceptable as an angle: undefined,
    or a number of degrees in [[-180, 180]]. *)
Definition degrees_ok (x : xfloat) : Prop :=
  match x with
  | NaN => True
  | Fin d => -180 <= d <= 180
  | PosInf | NegInf => False
  end.

Definition residue_angles_ok (angles : list string) (ric : IC_Residue) : Prop :=
  Forall (fun a => degrees_ok (to_float64 (get_angle ric a))) angles.

(** The coordinate of the last atom of a residue with the given name. *)
Definition last_coord (res : Residue) (k : string) : option vec3 :=
  option_map get_coord (find (fun a => String.eqb (get_name a) k) (rev (get_atoms res))).

(** The residue contributes a frame: not water or sodium, within the subset
    when one is given, and with every queried atom. *)
Definition contributes (subset_residues : option (list string))
                       (query_atoms : list string) (res : Residue) : bool :=
  not_water_or_sodium (get_resname res)
  && negb (excluded subset_residues (get_resname res))
  && forallb (fun k => match last_coord res k with Some _ => true | None => false end)
             query_atoms.

Definition frame_of (query_atoms : list string) (res : Residue) : CoordFrame :=
  {| frame_index := query_atoms;
     frame_rows := map (fun k => match last_coord res k with
                                 | Some v => v
                                 | None => vzero
                                 end) query_atoms |}.

(** One row of the attention mask for a sequence length [l]: ones up to
    the stop of the slice [:l], zeros after. *)
Definition mask_row (cols : nat) (l : Z) : list R :=
  repeat 1 (slice_stop cols l) ++ repeat 0 (cols - slice_stop cols l).

(** The time tensor holds one value: it is not empty and all its entries
    are [v]. *)
Definition constant_time (t : list Z) (v : Z) : Prop :=
  t <> [] /\ Forall (eq v) t.

(** The index [i] is within a tensor of [n] entries, counting from the end
    when negative. *)
Definition index_in_range (n : nat) (i : Z) : Prop :=
  (- Z.of_nat n <= i < Z.of_nat n)%Z.

(** The point [d] stands to [a], [b], [c] as internal coordinates say: at the
    bond length from [c], with the bond angle at [c], and with the dihedral
    of [a, b, c, d] about [b - c] equal to the torsion (its cosine and its
    sine, through the normals of the two planes). *)
Definition has_internal_coordinates (a b c d : vec3)
                                    (bond_length bond_angle torsion : R) : Prop :=
  dist c d = bond_length /\
  angle_between (vsub b c) (vsub d c) = bond_angle /\
  let n1 := cross (vsub b a) (vsub c b) in
  let n2 := cross (vsub c b) (vsub d c) in
  dot n1 n2 = norm n1 * norm n2 * cos torsion /\
  dot (cross n1 n2) (vsub c b) = norm n1 * norm n2 * norm (vsub c b) * sin torsion.

(** Every bond length of the tables is positive and every bond angle is
    strictly between [0] and [pi]. *)
Definition proper_tables (self : NERFBuilder) : Prop :=
  forall (b : bond) (i : nat),
    (forall L, _get_bond_length self b i = Ok L -> 0 < L) /\
    (forall theta, _get_bond_angle self b i = Ok theta -> 0 < theta < PI).

(** ** Not-a-number along the chain

    [unit_vec] divides an array by its norm.  The norm is zero for the zero
    vector only, and there every component is [0 / 0]: NumPy and Torch return
    not-a-number, with a warning at most and no exception.  From then on
    not-a-number spreads, since an arithmetic operation with a not-a-number
    argument returns not-a-number.  In [place_dihedral] and in the chain
    builder every array of three components is therefore three numbers or
    three not-a-numbers, and [fvec] has these two cases: [Some v] for the
    numbers [v], [None] for three not-a-numbers.

    The definitions below are [place_dihedral], [cartesian_coords] and
    [centered_cartesian_coords] once more, line by line, on [fvec]; they say
    what the code returns on degenerate geometry, where the definitions over
    [R] above do not apply. *)
Definition fvec : Type := option vec3.

(** An operation on two arrays, not-a-number as soon as one argument is. *)
Definition lift2 (f : vec3 -> vec3 -> vec3) (u v : fvec) : fvec :=
  match u, v with
  | Some u, Some v => Some (f u v)
  | _, _ => None
  end.

(** [unit_vec = lambda x: x / norm(x)]: [0 / 0] in every component at the
    zero vector. *)
Definition unit_vec_nan (x : fvec) : fvec :=
  match x with
  | Some v => if Req_dec_T (norm v) 0 then None else Some (unit_vec v)
  | None => None
  end.

(** [stack([bc, nbc, n]).T]: a row of the transpose holds one entry of each of
    the three arrays, so when one of them is not-a-number every row holds a
    not-a-number; that is [None]. *)
Definition frame_nan (bc nbc n : fvec) : option mat3 :=
  match bc, nbc, n with
  | Some bc, Some nbc, Some n => Some (transpose (stack bc nbc n))
  | _, _, _ => None
  end.

(** [place_dihedral] (nerf.py, lines 131-188) with not-a-number.  The product
    of [m] with the offset sums over every row of [m], so it is not-a-number in
    each component when [m] is [None]. *)
Definition place_dihedral_nan (a b c : fvec) (bond_angle bond_length torsion_angle : R)
                              (use_torch : bool) : fvec :=
  let ab := lift2 vsub b a in
  let bc := unit_vec_nan (lift2 vsub c b) in
  let n := unit_vec_nan (lift2 cross ab bc) in
  let nbc := lift2 cross n bc in
  let m := frame_nan bc nbc n in
  let d :=
    match m with
    | Some m =>
        if negb use_torch then
          let d := V3 (- bond_length * cos bond_angle)
                      (bond_length * cos torsion_angle * sin bond_angle)
                      (bond_length * sin torsion_angle * sin bond_angle) in
          Some (mdot m d)
        else
          let d := vstack (- bond_length * cos bond_angle)
                          (bond_length * cos torsion_angle * sin bond_angle)
                          (bond_length * sin torsion_angle * sin bond_angle) in
          Some (squeeze_col (mm m d))
    | None => None
    end
  in
  lift2 vadd d c.

(** The inner loop body, the outer loop body and [cartesian_coords] (nerf.py,
    lines 78-108) with not-a-number; the seed atoms are numbers. *)
Definition place_next_nan (self : NERFBuilder) (i : nat) (retval : list fvec)
                          (bond_dih : bond * R) : result (list fvec) :=
  let '(b, dih) := bond_dih in
  a3 <- neg_index retval 3 ;;
  a2 <- neg_index retval 2 ;;
  a1 <- neg_index retval 1 ;;
  bond_angle <- _get_bond_angle self b i ;;
  bond_length <- _get_bond_length self b i ;;
  Ok (retval ++ [place_dihedral_nan a3 a2 a1 bond_angle bond_length dih (use_torch self)]).

Definition place_residue_nan (self : NERFBuilder) (retval : list fvec)
                             (item : nat * (R * R * R)) : result (list fvec) :=
  let '(i, (phi, psi, omega)) := item in
  for_each (place_next_nan self i)
           (combine (keys (bond_lengths self)) [psi; omega; phi]) retval.

Definition cartesian_coords_nan (self : NERFBuilder) : result (list fvec) :=
  let retval := map Some (init_coords self) in
  phis <- slice_from_1 (phi self) ;;
  psis <- slice_to_last (psi self) ;;
  omegas <- slice_to_last (omega self) ;;
  for_each (place_residue_nan self) (enumerate (zip3 phis psis omegas)) retval.

(** The atoms of a chain when every one of them is a number. *)
Fixpoint all_numbers (coords : list fvec) : option (list vec3) :=
  match coords with
  | [] => Some []
  | Some v :: rest =>
      match all_numbers rest with
      | Some vs => Some (v :: vs)
      | None => None
      end
  | None :: _ => None
  end.

(** [coords.mean(axis=0)]: each of the three columns holds one component of
    every atom, so one not-a-number atom makes the three means not-a-number.
    The mean of no atom at all is [0 / 0]. *)
Definition mean_axis0_nan (coords : list fvec) : fvec :=
  match all_numbers coords with
  | Some (v :: vs) => Some (mean_axis0 (v :: vs))
  | _ => None
  end.

(** [centered_cartesian_coords] (nerf.py, lines 110-114) with not-a-number. *)
Definition centered_cartesian_coords_nan (self : NERFBuilder) : result (list fvec) :=
  coords <- cartesian_coords_nan self ;;
  let means := mean_axis0_nan coords in
  Ok (map (fun x => lift2 vsub x means) coords).

(** The three atoms one residue adds, with not-a-number. *)
Definition place3_nan (use_torch : bool) (q0 q1 q2 : fvec)
                      (a1 l1 a2 l2 a3 l3 : R) (phi psi omega : R) : list fvec :=
  let q3 := place_dihedral_nan q0 q1 q2 a1 l1 psi use_torch in
  let q4 := place_dihedral_nan q1 q2 q3 a2 l2 omega use_torch in
  let q5 := place_dihedral_nan q2 q3 q4 a3 l3 phi use_torch in
  [q3; q4; q5].

(** Three atoms from which [place_dihedral] returns a number: they are
    numbers and they are not collinear. *)
Definition placeable (fa fb fc : fvec) : Prop :=
  exists a b c, fa = Some a /\ fb = Some b /\ fc = Some c /\ ~ collinear a b c.

(** The atom at index [k >= 3] of [chain] was placed with the bond [b] of
    residue index [i]: after three placeable atoms it is a number, at the
    absolute value of the configured length of [b] from the atom before it;
    after three atoms that are not placeable it is not-a-number. *)
Definition bond_respected_nan (self : NERFBuilder) (chain : list fvec)
                              (k : nat) (b : bond) (i : nat) : Prop :=
  exists (fa fb fc : fvec) (l : R),
    nth_error chain (k - 3) = Some fa /\
    nth_error chain (k - 2) = Some fb /\
    nth_error chain (k - 1) = Some fc /\
    _get_bond_length self b i = Ok l /\
    (placeable fa fb fc ->
     exists c d, fc = Some c /\ nth_error chain k = Some (Some d) /\ dist c d = Rabs l) /\
    (~ placeable fa fb fc -> nth_error chain k = Some None).

(** The centroid of a set of atoms as the specification words it: the mean of
    each coordinate over all atoms. *)
Definition centroid (atoms : list vec3) : vec3 :=
  V3 (fold_right Rplus 0 (map vx atoms) / INR (length atoms))
     (fold_right Rplus 0 (map vy atoms) / INR (length atoms))
     (fold_right Rplus 0 (map vz atoms) / INR (length atoms)).
(** ** Vector algebra *)

Lemma vec3_eq (u v : vec3) :
  vx u = vx v -> vy u = vy v -> vz u = vz v -> u = v.
Proof. destruct u, v; simpl; intros; subst; reflexivity. Qed.

Lemma dot_self_nonneg (u : vec3) : 0 <= dot u u.
Proof. unfold dot. nra. Qed.

Lemma norm_sqr (u : vec3) : norm u * norm u = dot u u.
Proof. unfold norm. apply sqrt_sqrt. apply (dot_self_nonneg u). Qed.

Lemma norm_nonneg (u : vec3) : 0 <= norm u.
Proof. apply sqrt_pos. Qed.

Lemma dot_self_zero (u : vec3) : dot u u = 0 -> u = vzero.
Proof.
  unfold dot. intros H. apply vec3_eq; simpl; nra.
Qed.

Lemma norm_nonzero (u : vec3) : u <> vzero -> norm u <> 0.
Proof.
  intros Hu Hn. apply Hu. apply dot_self_zero.
  rewrite <- norm_sqr, Hn. ring.
Qed.

Lemma norm_of_dot (u : vec3) (k : R) : dot u u = k * k -> norm u = Rabs k.
Proof.
  intros H. unfold norm. change (sqrt (dot u u) = Rabs k).
  rewrite H. apply sqrt_Rsqr_abs.
Qed.

Lemma dot_unit_vec (u : vec3) : u <> vzero -> dot (unit_vec u) (unit_vec u) = 1.
Proof.
  intros Hu. pose proof (norm_nonzero u Hu) as Hn.
  pose proof (norm_sqr u) as Hs.
  unfold unit_vec, vdiv, dot in *. simpl.
  field_simplify_eq; [ | exact Hn ]. nra.
Qed.

Lemma dot_unit_vec_l (u v : vec3) : dot (unit_vec u) v = dot u v / norm u.
Proof. unfold unit_vec, vdiv, dot, Rdiv. simpl. ring. Qed.

Lemma cross_unit_vec_r (u v : vec3) :
  cross u (unit_vec v) = vdiv (cross u v) (norm v).
Proof. unfold unit_vec, vdiv, cross, Rdiv. simpl. f_equal; ring. Qed.

Lemma vdiv_nonzero (u : vec3) (k : R) : u <> vzero -> k <> 0 -> vdiv u k <> vzero.
Proof.
  intros Hu Hk H. apply Hu. unfold vdiv, vzero in H.
  injection H as Hx Hy Hz.
  apply vec3_eq; simpl;
    [ apply Rmult_eq_reg_r with (/ k) | apply Rmult_eq_reg_r with (/ k)
    | apply Rmult_eq_reg_r with (/ k) ];
    try (apply Rinv_neq_0_compat; exact Hk);
    rewrite Rmult_0_l; assumption.
Qed.

Lemma dot_cross_l (u v : vec3) : dot (cross u v) u = 0.
Proof. unfold dot, cross. simpl. ring. Qed.

Lemma dot_cross_r (u v : vec3) : dot (cross u v) v = 0.
Proof. unfold dot, cross. simpl. ring. Qed.

Lemma dot_comm (u v : vec3) : dot u v = dot v u.
Proof. unfold dot. ring. Qed.

(** Lagrange's identity. *)
Lemma dot_cross_cross (u v : vec3) :
  dot (cross u v) (cross u v) = dot u u * dot v v - dot u v * dot u v.
Proof. unfold dot, cross. simpl. ring. Qed.

(** ** The local frame of [place_dihedral] *)

Lemma mdot_frame (u n : vec3) (x y z : R) :
  mdot (transpose (stack u (cross n u) n)) (V3 x y z) = frame_combination u n x y z.
Proof.
  unfold mdot, transpose, stack, frame_combination, dot. simpl.
  f_equal; ring.
Qed.

Lemma mm_frame (u n : vec3) (x y z : R) :
  squeeze_col (mm (transpose (stack u (cross n u) n)) (vstack x y z))
  = frame_combination u n x y z.
Proof.
  unfold squeeze_col, mm, row_times_col, vstack, transpose, stack,
    frame_combination. simpl.
  f_equal; ring.
Qed.

Lemma place_dihedral_frame (a b c : vec3) (theta L tau : R) (use_torch : bool) :
  place_dihedral a b c theta L tau use_torch
  = vadd (frame_combination
            (unit_vec (vsub c b))
            (unit_vec (cross (vsub b a) (unit_vec (vsub c b))))
            (- L * cos theta) (L * cos tau * sin theta) (L * sin tau * sin theta))
         c.
Proof.
  unfold place_dihedral. destruct use_torch; cbn [negb].
  - rewrite mm_frame. reflexivity.
  - rewrite mdot_frame. reflexivity.
Qed.

Section Frame.
Variables u n : vec3.
Hypothesis u_unit : dot u u = 1.
Hypothesis n_unit : dot n n = 1.
Hypothesis n_orth_u : dot n u = 0.
Variables x y z : R.

Let d := frame_combination u n x y z.

Lemma frame_dot_self : dot d d = x * x + y * y + z * z.
Proof.
  replace (dot d d)
    with (x * x * dot u u
          + y * y * (dot n n * dot u u - dot n u * dot n u)
          + z * z * dot n n
          + 2 * x * z * dot n u)
    by (unfold d, frame_combination, dot, cross; simpl; ring).
  rewrite u_unit, n_unit, n_orth_u. ring.
Qed.

Lemma frame_dot_axis : dot u d = x.
Proof.
  replace (dot u d) with (x * dot u u + z * dot n u)
    by (unfold d, frame_combination, dot, cross; simpl; ring).
  rewrite u_unit, n_orth_u. ring.
Qed.
End Frame.

Lemma vsub_vadd (d c : vec3) : vsub (vadd d c) c = d.
Proof. unfold vsub, vadd. apply vec3_eq; simpl; ring. Qed.

Lemma norm_vsub_sym (u v : vec3) : norm (vsub u v) = norm (vsub v u).
Proof. unfold norm, vsub. simpl. f_equal. ring. Qed.

Lemma trig_offset_sqr (L theta tau : R) :
  (- L * cos theta) * (- L * cos theta)
  + (L * cos tau * sin theta) * (L * cos tau * sin theta)
  + (L * sin tau * sin theta) * (L * sin tau * sin theta) = L * L.
Proof.
  pose proof (sin2_cos2 theta) as Ht. pose proof (sin2_cos2 tau) as Hu.
  unfold Rsqr in Ht, Hu.
  transitivity (L * L * (sin theta * sin theta * (sin tau * sin tau + cos tau * cos tau)
                         + cos theta * cos theta)).
  - ring.
  - rewrite Hu, Rmult_1_r, Ht. ring.
Qed.

(** The frame axes of a non-degenerate triple. *)
Lemma frame_of_noncollinear (a b c : vec3) :
  ~ collinear a b c ->
  let u := unit_vec (vsub c b) in
  let n := unit_vec (cross (vsub b a) u) in
  vsub c b <> vzero /\ dot u u = 1 /\ dot n n = 1 /\ dot n u = 0.
Proof.
  intros Hnc u n.
  assert (Hcb : vsub c b <> vzero).
  { intros H. apply Hnc. unfold collinear. rewrite H.
    unfold cross, vzero. simpl. f_equal; ring. }
  assert (Hw : cross (vsub b a) u <> vzero).
  { unfold u. rewrite cross_unit_vec_r. apply vdiv_nonzero.
    - exact Hnc.
    - apply norm_nonzero. exact Hcb. }
  repeat split.
  - exact Hcb.
  - apply dot_unit_vec. exact Hcb.
  - apply dot_unit_vec. exact Hw.
  - unfold n. rewrite dot_unit_vec_l, dot_cross_r. unfold Rdiv. ring.
Qed.

(** The placed point lies at distance [|bond_length|] from [c]. *)
Lemma place_dihedral_offset_sqr (a b c : vec3) (theta L tau : R) (use_torch : bool) :
  ~ collinear a b c ->
  let d := place_dihedral a b c theta L tau use_torch in
  dot (vsub d c) (vsub d c) = L * L.
Proof.
  intros Hnc d. unfold d. rewrite place_dihedral_frame, vsub_vadd.
  destruct (frame_of_noncollinear a b c Hnc) as (_ & Hu & Hn & Hnu).
  rewrite frame_dot_self by assumption.
  apply trig_offset_sqr.
Qed.

Lemma place_dihedral_distance (a b c : vec3) (theta L tau : R) (use_torch : bool) :
  ~ collinear a b c ->
  norm (vsub c (place_dihedral a b c theta L tau use_torch)) = Rabs L.
Proof.
  intros Hnc. rewrite norm_vsub_sym. apply norm_of_dot.
  apply place_dihedral_offset_sqr. exact Hnc.
Qed.

(** The next triple [b, c, d] is again non-degenerate when the bond has a
    length and the bond angle is not straight. *)
Lemma place_dihedral_noncollinear (a b c : vec3) (theta L tau : R) (use_torch : bool) :
  ~ collinear a b c -> L <> 0 -> sin theta <> 0 ->
  ~ collinear b c (place_dihedral a b c theta L tau use_torch).
Proof.
  intros Hnc HL Hs Hcol. unfold collinear in Hcol.
  pose proof (dot_cross_cross (vsub c b)
                (vsub (place_dihedral a b c theta L tau use_torch) c)) as Hlag.
  rewrite Hcol in Hlag.
  rewrite (place_dihedral_offset_sqr a b c theta L tau use_torch Hnc) in Hlag.
  destruct (frame_of_noncollinear a b c Hnc) as (Hcb & Hu & Hn & Hnu).
  pose proof (norm_sqr (vsub c b)) as Hsq.
  pose proof (norm_nonzero _ Hcb) as Hn0.
  assert (Hax : dot (vsub c b) (vsub (place_dihedral a b c theta L tau use_torch) c)
                = norm (vsub c b) * (- L * cos theta)).
  { rewrite place_dihedral_frame, vsub_vadd.
    rewrite <- (frame_dot_axis (unit_vec (vsub c b)) _ Hu Hnu
                  (- L * cos theta) (L * cos tau * sin theta) (L * sin tau * sin theta)) at 2.
    rewrite dot_unit_vec_l. field. exact Hn0. }
  rewrite Hax in Hlag. rewrite <- Hsq in Hlag.
  change (dot vzero vzero) with (0 * 0 + 0 * 0 + 0 * 0) in Hlag.
  pose proof (sin2_cos2 theta) as Ht. unfold Rsqr in Ht.
  assert (Hprod : (norm (vsub c b) * L * sin theta) * (norm (vsub c b) * L * sin theta) = 0).
  { transitivity (norm (vsub c b) * norm (vsub c b) * (L * L)
                  * (sin theta * sin theta + cos theta * cos theta)
                  - norm (vsub c b) * (- L * cos theta)
                    * (norm (vsub c b) * (- L * cos theta))).
    - ring.
    - rewrite Ht, Rmult_1_r, <- Hlag. ring. }
  apply Rmult_integral in Hprod.
  assert (Hne : norm (vsub c b) * L * sin theta <> 0).
  { repeat apply Rmult_integral_contrapositive_currified; assumption. }
  destruct Hprod; contradiction.
Qed.

(** ** Results and loops *)

Lemma bind_Ok_inv {A B : Type} (r : result A) (k : A -> result B) (b : B) :
  bind r k = Ok b -> exists a, r = Ok a /\ k a = Ok b.
Proof. destruct r as [a | e]; simpl; intros Hk; [ eauto | discriminate ]. Qed.

Lemma for_each_ext {S X : Type} (f g : S -> X -> result S) (xs : list X) (s : S) :
  (forall s' x, f s' x = g s' x) -> for_each f xs s = for_each g xs s.
Proof.
  intros Hfg. revert s. induction xs as [ | x rest IH]; intros s; simpl.
  - reflexivity.
  - rewrite Hfg. destruct (g s x); simpl; auto.
Qed.

Lemma neg_index_app3 {A : Type} (pre : list A) (x2 x1 x0 : A) :
  neg_index (pre ++ [x2; x1; x0]) 3 = Ok x2 /\
  neg_index (pre ++ [x2; x1; x0]) 2 = Ok x1 /\
  neg_index (pre ++ [x2; x1; x0]) 1 = Ok x0.
Proof.
  unfold neg_index. rewrite length_app. cbn [length].
  repeat split.
  - destruct (Nat.ltb_spec (length pre + 3) 3); [ lia | ].
    replace (length pre + 3 - 3)%nat with (length pre + 0)%nat by lia.
    rewrite nth_error_app2 by lia.
    replace (length pre + 0 - length pre)%nat with 0%nat by lia. reflexivity.
  - destruct (Nat.ltb_spec (length pre + 3) 2); [ lia | ].
    replace (length pre + 3 - 2)%nat with (length pre + 1)%nat by lia.
    rewrite nth_error_app2 by lia.
    replace (length pre + 1 - length pre)%nat with 1%nat by lia. reflexivity.
  - destruct (Nat.ltb_spec (length pre + 3) 1); [ lia | ].
    replace (length pre + 3 - 1)%nat with (length pre + 2)%nat by lia.
    rewrite nth_error_app2 by lia.
    replace (length pre + 2 - length pre)%nat with 2%nat by lia. reflexivity.
Qed.

(** ** The constructor *)

Lemma NERFBuilder_init_fields
    (p s o : array) (l_n_ca l_ca_c l_c_n a_n_ca a_ca_c a_c_n : bond_value)
    (ic : list (list R)) (self : NERFBuilder) :
  NERFBuilder_init p s o l_n_ca l_ca_c l_c_n a_n_ca a_ca_c a_c_n ic = Ok self ->
  use_torch self = existsb is_tensor [p; s; o] /\
  phi self = squeeze (values p) /\
  psi self = squeeze (values s) /\
  omega self = squeeze (values o) /\
  bond_lengths self = [(C_N, l_c_n); (N_CA, l_n_ca); (CA_C, l_ca_c)] /\
  bond_angles self = [(C_N, a_c_n); (N_CA, a_n_ca); (CA_C, a_ca_c)] /\
  all_vec3 ic = Some (init_coords self) /\
  length (init_coords self) = 3%nat.
Proof.
  unfold NERFBuilder_init. intros Hinit.
  apply bind_Ok_inv in Hinit. destruct Hinit as ([] & Hlen & Hinit).
  unfold assert in Hlen.
  destruct (Nat.eqb_spec (length ic) 3) as [Hic | ]; [ | discriminate ].
  destruct (all_vec3 ic) as [coords | ] eqn:Hall; [ | discriminate ].
  injection Hinit as <-. cbn.
  repeat split; try reflexivity.
  clear - Hall Hic. revert coords Hall Hic.
  generalize 3%nat as n.
  induction ic as [ | c rest IH]; intros n coords Hall Hic; simpl in *.
  - injection Hall as <-. exact Hic.
  - destruct (as_vec3 c); [ | discriminate ].
    destruct (all_vec3 rest) as [vs | ]; [ | discriminate ].
    injection Hall as <-. simpl. destruct n; [ discriminate | ].
    f_equal. apply (IH n vs eq_refl). lia.
Qed.

Lemma NERFBuilder_init_constructed
    (p s o : array) (l_n_ca l_ca_c l_c_n a_n_ca a_ca_c a_c_n : bond_value)
    (ic : list (list R)) (self : NERFBuilder) :
  NERFBuilder_init p s o l_n_ca l_ca_c l_c_n a_n_ca a_ca_c a_c_n ic = Ok self ->
  constructed self.
Proof.
  intros Hinit. apply NERFBuilder_init_fields in Hinit.
  destruct Hinit as (_ & _ & _ & _ & Hl & Ha & _ & Hn).
  unfold constructed. rewrite Hl, Ha. repeat split; [ reflexivity .. | exact Hn ].
Qed.

(** ** One residue *)

Lemma place_next_eq (self : NERFBuilder) (i : nat) (pre : list vec3)
                    (q0 q1 q2 : vec3) (b : bond) (dih : R) :
  place_next self i (pre ++ [q0; q1; q2]) (b, dih)
  = bond_angle <- _get_bond_angle self b i ;;
    bond_length <- _get_bond_length self b i ;;
    Ok ((pre ++ [q0; q1; q2])
        ++ [place_dihedral q0 q1 q2 bond_angle bond_length dih (use_torch self)]).
Proof.
  unfold place_next.
  destruct (neg_index_app3 pre q0 q1 q2) as (-> & -> & ->). reflexivity.
Qed.

Lemma place_residue_eq (self : NERFBuilder) (i : nat) (pre : list vec3)
                       (q0 q1 q2 : vec3) (phi psi omega : R) :
  keys (bond_lengths self) = [C_N; N_CA; CA_C] ->
  place_residue self (pre ++ [q0; q1; q2]) (i, (phi, psi, omega))
  = a1 <- _get_bond_angle self C_N i ;;
    l1 <- _get_bond_length self C_N i ;;
    a2 <- _get_bond_angle self N_CA i ;;
    l2 <- _get_bond_length self N_CA i ;;
    a3 <- _get_bond_angle self CA_C i ;;
    l3 <- _get_bond_length self CA_C i ;;
    Ok ((pre ++ [q0; q1; q2])
        ++ place3 (use_torch self) q0 q1 q2 a1 l1 a2 l2 a3 l3 phi psi omega).
Proof.
  intros Hkeys. unfold place_residue. rewrite Hkeys.
  cbn [combine for_each].
  rewrite place_next_eq.
  destruct (_get_bond_angle self C_N i) as [a1 | e]; [ | reflexivity ].
  destruct (_get_bond_length self C_N i) as [l1 | e]; [ | reflexivity ].
  cbn [bind].
  replace ((pre ++ [q0; q1; q2]) ++ [place_dihedral q0 q1 q2 a1 l1 psi (use_torch self)])
    with ((pre ++ [q0]) ++ [q1; q2; place_dihedral q0 q1 q2 a1 l1 psi (use_torch self)])
    by (rewrite <- !app_assoc; reflexivity).
  rewrite place_next_eq.
  destruct (_get_bond_angle self N_CA i) as [a2 | e]; [ | reflexivity ].
  destruct (_get_bond_length self N_CA i) as [l2 | e]; [ | reflexivity ].
  cbn [bind].
  set (q3 := place_dihedral q0 q1 q2 a1 l1 psi (use_torch self)).
  set (q4 := place_dihedral q1 q2 q3 a2 l2 omega (use_torch self)).
  replace (((pre ++ [q0]) ++ [q1; q2; q3]) ++ [q4])
    with ((pre ++ [q0; q1]) ++ [q2; q3; q4])
    by (rewrite <- !app_assoc; reflexivity).
  rewrite place_next_eq.
  destruct (_get_bond_angle self CA_C i) as [a3 | e]; [ | reflexivity ].
  destruct (_get_bond_length self CA_C i) as [l3 | e]; [ | reflexivity ].
  cbn [bind]. unfold place3. fold q3. fold q4.
  rewrite <- !app_assoc. reflexivity.
Qed.

(** ** The placement loop *)

Lemma nth_error_middle {A : Type} (pre mid suf : list A) (t : nat) :
  (t < length mid)%nat ->
  nth_error ((pre ++ mid) ++ suf) (length pre + t) = nth_error mid t.
Proof.
  intros Ht. rewrite nth_error_app1 by (rewrite length_app; lia).
  rewrite nth_error_app2 by lia. f_equal. lia.
Qed.

Lemma residue_placed_shift (self : NERFBuilder) (coords : list vec3)
                           (base base' i i' : nat) (phi psi omega : R) :
  base = base' -> i = i' ->
  residue_placed self coords base i phi psi omega ->
  residue_placed self coords base' i' phi psi omega.
Proof. intros -> ->. exact (fun H => H). Qed.

(** What the loop has done when it ends without an exception. *)
Lemma for_each_residue_spec (self : NERFBuilder) :
  keys (bond_lengths self) = [C_N; N_CA; CA_C] ->
  forall (items : list (R * R * R)) (start : nat) (pre : list vec3)
         (q0 q1 q2 : vec3) (out : list vec3),
    for_each (place_residue self) (enumerate_from start items) (pre ++ [q0; q1; q2])
    = Ok out ->
    (exists suffix, out = (pre ++ [q0; q1; q2]) ++ suffix
                    /\ length suffix = (3 * length items)%nat) /\
    forall k phi psi omega,
      nth_error items k = Some (phi, psi, omega) ->
      residue_placed self out (length pre + 3 * k) (start + k) phi psi omega.
Proof.
  intros Hkeys items.
  induction items as [ | [[phi0 psi0] omega0] rest IH];
    intros start pre q0 q1 q2 out Hrun.
  - simpl in Hrun. injection Hrun as <-. split.
    + exists []. rewrite app_nil_r. split; reflexivity.
    + intros [ | k] phi psi omega Hk; discriminate.
  - cbn [enumerate_from for_each] in Hrun.
    apply bind_Ok_inv in Hrun. destruct Hrun as (mid & Hstep & Hrest).
    rewrite place_residue_eq in Hstep by exact Hkeys.
    apply bind_Ok_inv in Hstep. destruct Hstep as (a1 & Ha1 & Hstep).
    apply bind_Ok_inv in Hstep. destruct Hstep as (l1 & Hl1 & Hstep).
    apply bind_Ok_inv in Hstep. destruct Hstep as (a2 & Ha2 & Hstep).
    apply bind_Ok_inv in Hstep. destruct Hstep as (l2 & Hl2 & Hstep).
    apply bind_Ok_inv in Hstep. destruct Hstep as (a3 & Ha3 & Hstep).
    apply bind_Ok_inv in Hstep. destruct Hstep as (l3 & Hl3 & Hstep).
    injection Hstep as <-.
    unfold place3 in Hrest.
    set (q3 := place_dihedral q0 q1 q2 a1 l1 psi0 (use_torch self)) in *.
    set (q4 := place_dihedral q1 q2 q3 a2 l2 omega0 (use_torch self)) in *.
    set (q5 := place_dihedral q2 q3 q4 a3 l3 phi0 (use_torch self)) in *.
    destruct (IH (S start) (pre ++ [q0; q1; q2]) q3 q4 q5 out Hrest)
      as ((suffix & Hout & Hlen) & Hplaced).
    assert (Hout6 : out = (pre ++ [q0; q1; q2; q3; q4; q5]) ++ suffix).
    { rewrite Hout, <- !app_assoc. reflexivity. }
    split.
    + exists ([q3; q4; q5] ++ suffix). split.
      * rewrite Hout, <- !app_assoc. reflexivity.
      * rewrite length_app. cbn [length]. lia.
    + intros [ | k] phi psi omega Hk.
      * injection Hk as -> -> ->.
        exists q0, q1, q2, a1, l1, a2, l2, a3, l3.
        rewrite Nat.add_0_r, Nat.mul_0_r, Nat.add_0_r.
        split; [ repeat split; assumption | ].
        rewrite Hout6.
        rewrite <- (Nat.add_0_r (length pre)) at 1.
        rewrite !nth_error_middle by (cbn [length]; lia).
        repeat split; reflexivity.
      * apply (residue_placed_shift self out
                 (length (pre ++ [q0; q1; q2]) + 3 * k) _ (S start + k) _).
        -- rewrite length_app. cbn [length]. lia.
        -- lia.
        -- apply Hplaced. exact Hk.
Qed.

(** The loop raises nothing but [IndexError] on a constructed builder. *)
Lemma index_bond_value_error (v : bond_value) (i : nat) (e : exn) :
  index_bond_value v i = Raise e -> e = IndexError.
Proof.
  destruct v as [x | xs]; simpl; [ discriminate | ].
  destruct (nth_error xs i); [ discriminate | ]. intros [= <-]. reflexivity.
Qed.

Lemma getitem_keys {V : Type} (d : dict V) (k : bond) :
  In k (keys d) -> exists v, getitem d k = Ok v /\ In (k, v) d.
Proof.
  induction d as [ | [k' v'] rest IH]; simpl; intros Hin; [ contradiction | ].
  destruct (bond_eqb k' k) eqn:Heq.
  - exists v'. split; [ reflexivity | ].
    left. f_equal. unfold bond_eqb in Heq.
    apply andb_true_iff in Heq. destruct Heq as [H1 H2].
    apply String.eqb_eq in H1, H2. destruct k', k; simpl in *; subst. reflexivity.
  - destruct Hin as [-> | Hin].
    + unfold bond_eqb in Heq. rewrite !String.eqb_refl in Heq. discriminate.
    + destruct (IH Hin) as (v & Hget & Hv). exists v. split; [ exact Hget | right; exact Hv ].
Qed.

Lemma get_bond_error (self : NERFBuilder) (b : bond) (i : nat) (e : exn) :
  constructed self -> In b [C_N; N_CA; CA_C] ->
  (_get_bond_angle self b i = Raise e -> e = IndexError) /\
  (_get_bond_length self b i = Raise e -> e = IndexError).
Proof.
  intros (Hl & Ha & _) Hb. unfold _get_bond_angle, _get_bond_length.
  rewrite <- Ha in Hb. destruct (getitem_keys _ _ Hb) as (va & -> & _).
  rewrite Ha, <- Hl in Hb. destruct (getitem_keys _ _ Hb) as (vl & -> & _).
  cbn [bind]. split; apply index_bond_value_error.
Qed.

Lemma place_residue_error (self : NERFBuilder) (i : nat) (pre : list vec3)
                           (q0 q1 q2 : vec3) (tors : R * R * R) (e : exn) :
  constructed self ->
  place_residue self (pre ++ [q0; q1; q2]) (i, tors) = Raise e -> e = IndexError.
Proof.
  intros Hc. destruct tors as [[phi0 psi0] omega0].
  rewrite place_residue_eq by apply Hc.
  pose proof (get_bond_error self C_N i e Hc (or_introl eq_refl)) as [A1 L1].
  pose proof (get_bond_error self N_CA i e Hc (or_intror (or_introl eq_refl))) as [A2 L2].
  pose proof (get_bond_error self CA_C i e Hc
                (or_intror (or_intror (or_introl eq_refl)))) as [A3 L3].
  destruct (_get_bond_angle self C_N i); [ | intros [= <-]; auto ].
  destruct (_get_bond_length self C_N i); [ | intros [= <-]; auto ].
  destruct (_get_bond_angle self N_CA i); [ | intros [= <-]; auto ].
  destruct (_get_bond_length self N_CA i); [ | intros [= <-]; auto ].
  destruct (_get_bond_angle self CA_C i); [ | intros [= <-]; auto ].
  destruct (_get_bond_length self CA_C i); [ | intros [= <-]; auto ].
  discriminate.
Qed.

Lemma for_each_residue_error (self : NERFBuilder) :
  constructed self ->
  forall (items : list (R * R * R)) (start : nat) (pre : list vec3)
         (q0 q1 q2 : vec3) (e : exn),
    for_each (place_residue self) (enumerate_from start items) (pre ++ [q0; q1; q2])
    = Raise e ->
    e = IndexError.
Proof.
  intros Hc items.
  induction items as [ | tors rest IH]; intros start pre q0 q1 q2 e Hrun.
  - discriminate.
  - cbn [enumerate_from for_each] in Hrun.
    destruct (place_residue self (pre ++ [q0; q1; q2]) (start, tors))
      as [mid | e'] eqn:Hstep.
    + cbn [bind] in Hrun. destruct tors as [[phi0 psi0] omega0].
      rewrite place_residue_eq in Hstep by apply Hc.
      repeat (apply bind_Ok_inv in Hstep; destruct Hstep as (? & _ & Hstep)).
      injection Hstep as <-. unfold place3 in Hrun.
      rewrite <- app_assoc in Hrun.
      change ([q0; q1; q2] ++ ?l) with ([q0; q1; q2] ++ l) in Hrun.
      eapply (IH (S start) (pre ++ [q0; q1; q2])).
      rewrite <- app_assoc. exact Hrun.
    + cbn [bind] in Hrun. injection Hrun as <-.
      eapply place_residue_error; eassumption.
Qed.

(** The loop ends without an exception when the tables answer every index it
    reaches. *)
Lemma for_each_residue_total (self : NERFBuilder) :
  keys (bond_lengths self) = [C_N; N_CA; CA_C] ->
  forall (items : list (R * R * R)) (start : nat) (pre : list vec3) (q0 q1 q2 : vec3),
    (forall i, (start <= i < start + length items)%nat ->
               exists a1 l1 a2 l2 a3 l3, bond_params self i a1 l1 a2 l2 a3 l3) ->
    exists out,
      for_each (place_residue self) (enumerate_from start items) (pre ++ [q0; q1; q2])
      = Ok out.
Proof.
  intros Hkeys items.
  induction items as [ | [[phi0 psi0] omega0] rest IH]; intros start pre q0 q1 q2 Hpar.
  - eexists. reflexivity.
  - cbn [enumerate_from for_each].
    rewrite place_residue_eq by exact Hkeys.
    destruct (Hpar start) as (a1 & l1 & a2 & l2 & a3 & l3 & H1 & H2 & H3 & H4 & H5 & H6).
    { cbn [length]. lia. }
    rewrite H1, H2, H3, H4, H5, H6. cbn [bind]. unfold place3.
    rewrite <- app_assoc.
    change ([q0; q1; q2] ++ ?l) with ([q0; q1; q2] ++ l).
    rewrite app_assoc.
    apply IH. intros i Hi. apply Hpar. cbn [length]. lia.
Qed.

(** ** Slices and [zip] *)

Lemma nth_error_tl {A : Type} (l : list A) (k : nat) :
  nth_error (tl l) k = nth_error l (S k).
Proof. destruct l; [ destruct k | ]; reflexivity. Qed.

Lemma length_tl {A : Type} (l : list A) : length (tl l) = (length l - 1)%nat.
Proof. destruct l; simpl; lia. Qed.

Lemma length_removelast {A : Type} (l : list A) :
  length (removelast l) = (length l - 1)%nat.
Proof.
  induction l as [ | x [ | y rest] IH]; try reflexivity.
  change (S (length (removelast (y :: rest))) = (length (x :: y :: rest) - 1)%nat).
  rewrite IH. simpl. lia.
Qed.

Lemma nth_error_removelast {A : Type} (l : list A) (k : nat) :
  (S k < length l)%nat -> nth_error (removelast l) k = nth_error l k.
Proof.
  revert k. induction l as [ | x [ | y rest] IH]; intros k Hk.
  - simpl in Hk. lia.
  - simpl in Hk. lia.
  - destruct k as [ | k]; [ reflexivity | ].
    change (nth_error (removelast (y :: rest)) k = nth_error (y :: rest) k).
    apply IH. simpl in *. lia.
Qed.

Lemma length_zip3 {A B C : Type} (xs : list A) (ys : list B) (zs : list C) :
  length (zip3 xs ys zs) = Nat.min (length xs) (Nat.min (length ys) (length zs)).
Proof.
  revert ys zs. induction xs as [ | x xs IH]; intros [ | y ys] [ | z zs];
    simpl; try reflexivity.
  rewrite IH. reflexivity.
Qed.

Lemma nth_error_zip3 {A B C : Type} (xs : list A) (ys : list B) (zs : list C)
                     (k : nat) (x : A) (y : B) (z : C) :
  nth_error (zip3 xs ys zs) k = Some (x, y, z) <->
  nth_error xs k = Some x /\ nth_error ys k = Some y /\ nth_error zs k = Some z.
Proof.
  revert ys zs k.
  induction xs as [ | x' xs IH]; intros [ | y' ys] [ | z' zs] [ | k]; simpl;
    try (split; [ discriminate | intros (? & ? & ?); discriminate ]).
  - split.
    + intros [= -> -> ->]. auto.
    + intros ([= ->] & [= ->] & [= ->]). reflexivity.
  - apply IH.
Qed.

Lemma nth_error_nth_default {A : Type} (l : list A) (k : nat) (d : A) :
  (k < length l)%nat -> nth_error l k = Some (nth k l d).
Proof. intros Hk. apply nth_error_nth'. exact Hk. Qed.

(** ** [cartesian_coords] as a whole *)

Lemma three_atoms (l : list vec3) :
  length l = 3%nat -> exists s0 s1 s2, l = [] ++ [s0; s1; s2].
Proof.
  destruct l as [ | s0 [ | s1 [ | s2 [ | ? ?]]]]; simpl; try discriminate.
  intros _. exists s0, s1, s2. reflexivity.
Qed.

Lemma cartesian_coords_run (self : NERFBuilder) (phis psis omegas : list R) :
  phi self = Arr1 phis -> psi self = Arr1 psis -> omega self = Arr1 omegas ->
  cartesian_coords self
  = for_each (place_residue self)
             (enumerate (zip3 (tl phis) (removelast psis) (removelast omegas)))
             (init_coords self).
Proof.
  intros Hp Hs Ho. unfold cartesian_coords. rewrite Hp, Hs, Ho. reflexivity.
Qed.

Lemma cartesian_coords_arrays (self : NERFBuilder) (coords : list vec3) :
  cartesian_coords self = Ok coords ->
  exists phis psis omegas,
    phi self = Arr1 phis /\ psi self = Arr1 psis /\ omega self = Arr1 omegas.
Proof.
  unfold cartesian_coords. intros Hrun.
  destruct (phi self) as [ | phis]; [ discriminate | ].
  destruct (psi self) as [ | psis]; [ discriminate | ].
  destruct (omega self) as [ | omegas]; [ discriminate | ].
  exists phis, psis, omegas. repeat split.
Qed.

Lemma cartesian_coords_error (self : NERFBuilder) (e : exn) :
  constructed self -> cartesian_coords self = Raise e -> e = IndexError.
Proof.
  intros Hc Hrun. unfold cartesian_coords in Hrun.
  destruct (phi self) as [ | phis]; [ injection Hrun as <-; reflexivity | ].
  destruct (psi self) as [ | psis]; [ injection Hrun as <-; reflexivity | ].
  destruct (omega self) as [ | omegas]; [ injection Hrun as <-; reflexivity | ].
  cbn [slice_from_1 slice_to_last bind] in Hrun.
  destruct (three_atoms (init_coords self)) as (s0 & s1 & s2 & Hinit); [ apply Hc | ].
  rewrite Hinit in Hrun.
  eapply for_each_residue_error; eassumption.
Qed.

(** The chain, residue by residue, in terms of the arrays the builder holds. *)
Lemma cartesian_coords_spec (self : NERFBuilder) (coords : list vec3)
                            (phis psis omegas : list R) :
  constructed self ->
  phi self = Arr1 phis -> psi self = Arr1 psis -> omega self = Arr1 omegas ->
  cartesian_coords self = Ok coords ->
  let m := Nat.min (length phis - 1) (Nat.min (length psis - 1) (length omegas - 1)) in
  length coords = (3 + 3 * m)%nat /\
  firstn 3 coords = init_coords self /\
  forall i, (i < m)%nat ->
    residue_placed self coords (3 * i) i (nth (S i) phis 0) (nth i psis 0) (nth i omegas 0).
Proof.
  intros Hc Hp Hs Ho Hrun m.
  rewrite (cartesian_coords_run self phis psis omegas Hp Hs Ho) in Hrun.
  destruct (three_atoms (init_coords self)) as (s0 & s1 & s2 & Hinit); [ apply Hc | ].
  rewrite Hinit in Hrun. unfold enumerate in Hrun.
  destruct Hc as (Hkeys & _ & _).
  destruct (for_each_residue_spec self Hkeys _ _ _ _ _ _ _ Hrun)
    as ((suffix & Hout & Hlen) & Hplaced).
  rewrite length_zip3, length_tl, !length_removelast in Hlen. fold m in Hlen.
  repeat split.
  - rewrite Hout, length_app, Hlen. reflexivity.
  - rewrite Hout, Hinit. reflexivity.
  - intros i Hi.
    apply (Hplaced i (nth (S i) phis 0) (nth i psis 0) (nth i omegas 0)).
    apply nth_error_zip3. repeat split.
    + rewrite nth_error_tl. apply nth_error_nth_default. lia.
    + rewrite nth_error_removelast by lia. apply nth_error_nth_default. lia.
    + rewrite nth_error_removelast by lia. apply nth_error_nth_default. lia.
Qed.

(** The chain is built when every index the loop reaches has its six bond
    parameters. *)
Lemma cartesian_coords_total (self : NERFBuilder) (phis psis omegas : list R) :
  constructed self ->
  phi self = Arr1 phis -> psi self = Arr1 psis -> omega self = Arr1 omegas ->
  let m := Nat.min (length phis - 1) (Nat.min (length psis - 1) (length omegas - 1)) in
  (forall i, (i < m)%nat -> exists a1 l1 a2 l2 a3 l3, bond_params self i a1 l1 a2 l2 a3 l3) ->
  exists coords, cartesian_coords self = Ok coords.
Proof.
  intros Hc Hp Hs Ho m Hpar.
  rewrite (cartesian_coords_run self phis psis omegas Hp Hs Ho).
  destruct (three_atoms (init_coords self)) as (s0 & s1 & s2 & Hinit); [ apply Hc | ].
  rewrite Hinit. unfold enumerate.
  apply for_each_residue_total; [ apply Hc | ].
  intros i Hi. apply Hpar.
  rewrite length_zip3, length_tl, !length_removelast in Hi. unfold m. lia.
Qed.

(** ** Triples along the chain *)

Lemma squeeze_long (xs : list R) : (2 <= length xs)%nat -> squeeze (Arr1 xs) = Arr1 xs.
Proof. destruct xs as [ | x [ | y rest]]; simpl; [ lia | lia | reflexivity ]. Qed.

Lemma squeeze_not_one (xs : list R) : length xs <> 1%nat -> squeeze (Arr1 xs) = Arr1 xs.
Proof. destruct xs as [ | x [ | y rest]]; simpl; [ | lia | ]; reflexivity. Qed.

Section Chain.
Variable self : NERFBuilder.
Variable coords : list vec3.
Variables phis psis omegas : list R.
Hypothesis self_constructed : constructed self.
Hypothesis self_phi : phi self = Arr1 phis.
Hypothesis self_psi : psi self = Arr1 psis.
Hypothesis self_omega : omega self = Arr1 omegas.
Hypothesis self_coords : cartesian_coords self = Ok coords.

Let m := Nat.min (length phis - 1) (Nat.min (length psis - 1) (length omegas - 1)).

Hypothesis tables_ok : nondegenerate_tables self.
Hypothesis seeds_ok :
  forall s0 s1 s2, init_coords self = [s0; s1; s2] -> ~ collinear s0 s1 s2.

Lemma chain_context_noncollinear (i : nat) :
  (i <= m)%nat ->
  forall q0 q1 q2,
    nth_error coords (3 * i) = Some q0 ->
    nth_error coords (3 * i + 1) = Some q1 ->
    nth_error coords (3 * i + 2) = Some q2 ->
    ~ collinear q0 q1 q2.
Proof.
  destruct (cartesian_coords_spec self coords phis psis omegas
              self_constructed self_phi self_psi self_omega self_coords)
    as (Hlen & Hseed & Hplaced).
  fold m in Hlen, Hplaced.
  induction i as [ | i IH]; intros Hi q0 q1 q2 H0 H1 H2.
  - apply seeds_ok. rewrite <- Hseed.
    destruct coords as [ | c0 [ | c1 [ | c2 rest]]]; try discriminate.
    simpl in H0, H1, H2. injection H0 as <-. injection H1 as <-. injection H2 as <-.
    reflexivity.
  - destruct (Hplaced i ltac:(lia))
      as (p0 & p1 & p2 & a1 & l1 & a2 & l2 & a3 & l3 & Hpar & Hp0 & Hp1 & Hp2 & Hq).
    cbv zeta in Hq. destruct Hq as (Hq3 & Hq4 & Hq5).
    replace (3 * S i)%nat with (3 * i + 3)%nat in * by lia.
    replace (3 * i + 3 + 1)%nat with (3 * i + 4)%nat in * by lia.
    replace (3 * i + 3 + 2)%nat with (3 * i + 5)%nat in * by lia.
    rewrite Hq3 in H0. rewrite Hq4 in H1. rewrite Hq5 in H2.
    injection H0 as <-. injection H1 as <-. injection H2 as <-.
    destruct Hpar as (Ha1 & Hl1 & Ha2 & Hl2 & Ha3 & Hl3).
    assert (Hnc : ~ collinear p0 p1 p2) by (apply IH; [ lia | assumption .. ]).
    apply place_dihedral_noncollinear;
      [ | apply (proj1 (tables_ok CA_C i)); exact Hl3
        | apply (proj2 (tables_ok CA_C i)); exact Ha3 ].
    apply place_dihedral_noncollinear;
      [ | apply (proj1 (tables_ok N_CA i)); exact Hl2
        | apply (proj2 (tables_ok N_CA i)); exact Ha2 ].
    apply place_dihedral_noncollinear;
      [ exact Hnc
      | apply (proj1 (tables_ok C_N i)); exact Hl1
      | apply (proj2 (tables_ok C_N i)); exact Ha1 ].
Qed.
End Chain.

(** ** Not-a-number: the placement *)

Lemma collinear_dec (a b c : vec3) : {collinear a b c} + {~ collinear a b c}.
Proof.
  unfold collinear.
  destruct (cross (vsub b a) (vsub c b)) as [x y z]. unfold vzero.
  destruct (Req_dec_T x 0) as [-> | Hx];
    [ | right; intros [= H _ _]; exact (Hx H) ].
  destruct (Req_dec_T y 0) as [-> | Hy];
    [ | right; intros [= H _]; exact (Hy H) ].
  destruct (Req_dec_T z 0) as [-> | Hz];
    [ | right; intros [= H]; exact (Hz H) ].
  left. reflexivity.
Qed.

Lemma norm_vzero : norm vzero = 0.
Proof.
  unfold norm, vzero. simpl.
  replace (0 * 0 + 0 * 0 + 0 * 0) with 0 by ring. apply sqrt_0.
Qed.

Lemma norm_zero_inv (u : vec3) : norm u = 0 -> u = vzero.
Proof.
  intros Hn. apply dot_self_zero. rewrite <- norm_sqr, Hn. ring.
Qed.

Lemma cross_vzero_r (u : vec3) : cross u vzero = vzero.
Proof. unfold cross, vzero. simpl. f_equal; ring. Qed.

Lemma vdiv_vzero (k : R) : vdiv vzero k = vzero.
Proof. unfold vdiv, vzero, Rdiv. simpl. f_equal; ring. Qed.

(** On three numbers that are not collinear the code returns the point the
    definition over the reals describes. *)
Lemma place_dihedral_nan_numbers (a b c : vec3) (theta L tau : R) (use_torch : bool) :
  ~ collinear a b c ->
  place_dihedral_nan (Some a) (Some b) (Some c) theta L tau use_torch
  = Some (place_dihedral a b c theta L tau use_torch).
Proof.
  intros Hnc.
  assert (Hcb : vsub c b <> vzero).
  { intros H. apply Hnc. unfold collinear. rewrite H. apply cross_vzero_r. }
  assert (Hw : cross (vsub b a) (unit_vec (vsub c b)) <> vzero).
  { rewrite cross_unit_vec_r. apply vdiv_nonzero.
    - exact Hnc.
    - apply norm_nonzero. exact Hcb. }
  unfold place_dihedral_nan. cbn [lift2 unit_vec_nan].
  destruct (Req_dec_T (norm (vsub c b)) 0) as [H0 | _];
    [ exfalso; exact (norm_nonzero _ Hcb H0) | ].
  cbn [lift2 unit_vec_nan].
  destruct (Req_dec_T (norm (cross (vsub b a) (unit_vec (vsub c b)))) 0) as [H0 | _];
    [ exfalso; exact (norm_nonzero _ Hw H0) | ].
  cbn [lift2 frame_nan]. unfold place_dihedral.
  destruct use_torch; reflexivity.
Qed.

(** On three collinear numbers every component of the result is
    not-a-number. *)
Lemma place_dihedral_nan_collinear (a b c : vec3) (theta L tau : R) (use_torch : bool) :
  collinear a b c ->
  place_dihedral_nan (Some a) (Some b) (Some c) theta L tau use_torch = None.
Proof.
  intros Hcol. unfold place_dihedral_nan. cbn [lift2 unit_vec_nan].
  destruct (Req_dec_T (norm (vsub c b)) 0) as [H0 | H0]; [ reflexivity | ].
  cbn [lift2 unit_vec_nan].
  destruct (Req_dec_T (norm (cross (vsub b a) (unit_vec (vsub c b)))) 0) as [H1 | H1];
    [ reflexivity | ].
  exfalso. apply H1. rewrite cross_unit_vec_r.
  unfold collinear in Hcol. rewrite Hcol, vdiv_vzero. apply norm_vzero.
Qed.

Lemma place_dihedral_nan_placeable (fa fb fc : fvec) (theta L tau : R) (use_torch : bool) :
  placeable fa fb fc ->
  exists c d,
    fc = Some c /\
    place_dihedral_nan fa fb fc theta L tau use_torch = Some d /\
    dist c d = Rabs L.
Proof.
  intros (a & b & c & -> & -> & -> & Hnc).
  exists c, (place_dihedral a b c theta L tau use_torch).
  split; [ reflexivity | ]. split.
  - apply place_dihedral_nan_numbers. exact Hnc.
  - unfold dist. apply place_dihedral_distance. exact Hnc.
Qed.

Lemma place_dihedral_nan_not_placeable (fa fb fc : fvec) (theta L tau : R)
                                       (use_torch : bool) :
  ~ placeable fa fb fc ->
  place_dihedral_nan fa fb fc theta L tau use_torch = None.
Proof.
  intros Hnp.
  destruct fa as [a | ], fb as [b | ], fc as [c | ]; try reflexivity.
  - destruct (collinear_dec a b c) as [Hcol | Hnc].
    + apply place_dihedral_nan_collinear. exact Hcol.
    + exfalso. apply Hnp. exists a, b, c. repeat split; try reflexivity. exact Hnc.
  - unfold place_dihedral_nan. cbn [lift2 unit_vec_nan].
    destruct (Req_dec_T (norm (vsub c b)) 0); reflexivity.
Qed.

(** A number comes out of three placeable atoms only, and it is then the
    point of the definition over the reals. *)
Lemma place_dihedral_nan_Some_inv (fa fb fc : fvec) (theta L tau : R)
                                  (use_torch : bool) (d : vec3) :
  place_dihedral_nan fa fb fc theta L tau use_torch = Some d ->
  exists a b c,
    fa = Some a /\ fb = Some b /\ fc = Some c /\ ~ collinear a b c /\
    d = place_dihedral a b c theta L tau use_torch.
Proof.
  intros Hd.
  destruct fa as [a | ], fb as [b | ], fc as [c | ];
    try (rewrite place_dihedral_nan_not_placeable in Hd;
         [ discriminate | intros (? & ? & ? & ? & ? & ? & _); discriminate ]).
  destruct (collinear_dec a b c) as [Hcol | Hnc].
  - rewrite place_dihedral_nan_collinear in Hd by exact Hcol. discriminate.
  - rewrite place_dihedral_nan_numbers in Hd by exact Hnc. injection Hd as <-.
    exists a, b, c. repeat split; try reflexivity. exact Hnc.
Qed.

(** ** Not-a-number: the chain *)

Lemma place_next_nan_eq (self : NERFBuilder) (i : nat) (pre : list fvec)
                        (q0 q1 q2 : fvec) (b : bond) (dih : R) :
  place_next_nan self i (pre ++ [q0; q1; q2]) (b, dih)
  = bond_angle <- _get_bond_angle self b i ;;
    bond_length <- _get_bond_length self b i ;;
    Ok ((pre ++ [q0; q1; q2])
        ++ [place_dihedral_nan q0 q1 q2 bond_angle bond_length dih (use_torch self)]).
Proof.
  unfold place_next_nan.
  destruct (neg_index_app3 pre q0 q1 q2) as (-> & -> & ->). reflexivity.
Qed.

Lemma place_residue_nan_eq (self : NERFBuilder) (i : nat) (pre : list fvec)
                           (q0 q1 q2 : fvec) (phi psi omega : R) :
  keys (bond_lengths self) = [C_N; N_CA; CA_C] ->
  place_residue_nan self (pre ++ [q0; q1; q2]) (i, (phi, psi, omega))
  = a1 <- _get_bond_angle self C_N i ;;
    l1 <- _get_bond_length self C_N i ;;
    a2 <- _get_bond_angle self N_CA i ;;
    l2 <- _get_bond_length self N_CA i ;;
    a3 <- _get_bond_angle self CA_C i ;;
    l3 <- _get_bond_length self CA_C i ;;
    Ok ((pre ++ [q0; q1; q2])
        ++ place3_nan (use_torch self) q0 q1 q2 a1 l1 a2 l2 a3 l3 phi psi omega).
Proof.
  intros Hkeys. unfold place_residue_nan. rewrite Hkeys.
  cbn [combine for_each].
  rewrite place_next_nan_eq.
  destruct (_get_bond_angle self C_N i) as [a1 | e]; [ | reflexivity ].
  destruct (_get_bond_length self C_N i) as [l1 | e]; [ | reflexivity ].
  cbn [bind].
  set (q3 := place_dihedral_nan q0 q1 q2 a1 l1 psi (use_torch self)).
  replace ((pre ++ [q0; q1; q2]) ++ [q3]) with ((pre ++ [q0]) ++ [q1; q2; q3])
    by (rewrite <- !app_assoc; reflexivity).
  rewrite place_next_nan_eq.
  destruct (_get_bond_angle self N_CA i) as [a2 | e]; [ | reflexivity ].
  destruct (_get_bond_length self N_CA i) as [l2 | e]; [ | reflexivity ].
  cbn [bind].
  set (q4 := place_dihedral_nan q1 q2 q3 a2 l2 omega (use_torch self)).
  replace (((pre ++ [q0]) ++ [q1; q2; q3]) ++ [q4])
    with ((pre ++ [q0; q1]) ++ [q2; q3; q4])
    by (rewrite <- !app_assoc; reflexivity).
  rewrite place_next_nan_eq.
  destruct (_get_bond_angle self CA_C i) as [a3 | e]; [ | reflexivity ].
  destruct (_get_bond_length self CA_C i) as [l3 | e]; [ | reflexivity ].
  cbn [bind]. unfold place3_nan. fold q3. fold q4.
  rewrite <- !app_assoc. reflexivity.
Qed.

(** What the loop has done when it ends without an exception: residue by
    residue, three atoms, each placed from the three atoms before it. *)
Lemma for_each_residue_nan_spec (self : NERFBuilder) :
  keys (bond_lengths self) = [C_N; N_CA; CA_C] ->
  forall (items : list (R * R * R)) (start : nat) (pre : list fvec)
         (q0 q1 q2 : fvec) (out : list fvec),
    for_each (place_residue_nan self) (enumerate_from start items) (pre ++ [q0; q1; q2])
    = Ok out ->
    (exists suffix, out = (pre ++ [q0; q1; q2]) ++ suffix
                    /\ length suffix = (3 * length items)%nat) /\
    forall k, (k < length items)%nat ->
      exists p0 p1 p2 a1 l1 a2 l2 a3 l3 phi psi omega,
        bond_params self (start + k) a1 l1 a2 l2 a3 l3 /\
        nth_error out (length pre + 3 * k) = Some p0 /\
        nth_error out (length pre + 3 * k + 1) = Some p1 /\
        nth_error out (length pre + 3 * k + 2) = Some p2 /\
        let q3 := place_dihedral_nan p0 p1 p2 a1 l1 psi (use_torch self) in
        let q4 := place_dihedral_nan p1 p2 q3 a2 l2 omega (use_torch self) in
        let q5 := place_dihedral_nan p2 q3 q4 a3 l3 phi (use_torch self) in
        nth_error out (length pre + 3 * k + 3) = Some q3 /\
        nth_error out (length pre + 3 * k + 4) = Some q4 /\
        nth_error out (length pre + 3 * k + 5) = Some q5.
Proof.
  intros Hkeys items.
  induction items as [ | [[phi0 psi0] omega0] rest IH];
    intros start pre q0 q1 q2 out Hrun.
  - simpl in Hrun. injection Hrun as <-. split.
    + exists []. rewrite app_nil_r. split; reflexivity.
    + intros k Hk. simpl in Hk. lia.
  - cbn [enumerate_from for_each] in Hrun.
    apply bind_Ok_inv in Hrun. destruct Hrun as (mid & Hstep & Hrest).
    rewrite place_residue_nan_eq in Hstep by exact Hkeys.
    apply bind_Ok_inv in Hstep. destruct Hstep as (a1 & Ha1 & Hstep).
    apply bind_Ok_inv in Hstep. destruct Hstep as (l1 & Hl1 & Hstep).
    apply bind_Ok_inv in Hstep. destruct Hstep as (a2 & Ha2 & Hstep).
    apply bind_Ok_inv in Hstep. destruct Hstep as (l2 & Hl2 & Hstep).
    apply bind_Ok_inv in Hstep. destruct Hstep as (a3 & Ha3 & Hstep).
    apply bind_Ok_inv in Hstep. destruct Hstep as (l3 & Hl3 & Hstep).
    injection Hstep as <-.
    unfold place3_nan in Hrest.
    set (q3 := place_dihedral_nan q0 q1 q2 a1 l1 psi0 (use_torch self)) in *.
    set (q4 := place_dihedral_nan q1 q2 q3 a2 l2 omega0 (use_torch self)) in *.
    set (q5 := place_dihedral_nan q2 q3 q4 a3 l3 phi0 (use_torch self)) in *.
    destruct (IH (S start) (pre ++ [q0; q1; q2]) q3 q4 q5 out Hrest)
      as ((suffix & Hout & Hlen) & Hplaced).
    assert (Hout6 : out = (pre ++ [q0; q1; q2; q3; q4; q5]) ++ suffix).
    { rewrite Hout, <- !app_assoc. reflexivity. }
    split.
    + exists ([q3; q4; q5] ++ suffix). split.
      * rewrite Hout, <- !app_assoc. reflexivity.
      * rewrite length_app. cbn [length]. lia.
    + intros [ | k] Hk.
      * exists q0, q1, q2, a1, l1, a2, l2, a3, l3, phi0, psi0, omega0.
        rewrite Nat.add_0_r, Nat.mul_0_r, Nat.add_0_r.
        split; [ repeat split; assumption | ].
        rewrite Hout6.
        rewrite <- (Nat.add_0_r (length pre)) at 1.
        rewrite !nth_error_middle by (cbn [length]; lia).
        repeat split; reflexivity.
      * destruct (Hplaced k) as (p0 & p1 & p2 & b1 & m1 & b2 & m2 & b3 & m3
                                 & phi & psi & omega & Hpar & H0 & H1 & H2 & Hq).
        { cbn [length] in Hk. lia. }
        cbv zeta in Hq. destruct Hq as (H3 & H4 & H5).
        rewrite length_app in H0, H1, H2, H3, H4, H5. cbn [length] in H0, H1, H2, H3, H4, H5.
        exists p0, p1, p2, b1, m1, b2, m2, b3, m3, phi, psi, omega.
        replace (start + S k)%nat with (S start + k)%nat by lia.
        split; [ exact Hpar | ].
        replace (length pre + 3 * S k)%nat with (length pre + 3 + 3 * k)%nat by lia.
        cbv zeta. repeat split; assumption.
Qed.

Lemma cartesian_coords_nan_run (self : NERFBuilder) (chain : list fvec) :
  cartesian_coords_nan self = Ok chain ->
  exists items,
    for_each (place_residue_nan self) (enumerate_from 0 items) (map Some (init_coords self))
    = Ok chain.
Proof.
  unfold cartesian_coords_nan. intros Hrun.
  apply bind_Ok_inv in Hrun. destruct Hrun as (phis & _ & Hrun).
  apply bind_Ok_inv in Hrun. destruct Hrun as (psis & _ & Hrun).
  apply bind_Ok_inv in Hrun. destruct Hrun as (omegas & _ & Hrun).
  exists (zip3 phis psis omegas). exact Hrun.
Qed.

(** The chain with not-a-number, atom by atom. *)
Lemma cartesian_coords_nan_spec (self : NERFBuilder) (chain : list fvec) :
  constructed self ->
  cartesian_coords_nan self = Ok chain ->
  (exists m, length chain = (3 + 3 * m)%nat) /\
  firstn 3 chain = map Some (init_coords self) /\
  forall i, (3 * i + 5 < length chain)%nat ->
    bond_respected_nan self chain (3 * i + 3) C_N i /\
    bond_respected_nan self chain (3 * i + 4) N_CA i /\
    bond_respected_nan self chain (3 * i + 5) CA_C i.
Proof.
  intros Hc Hrun.
  destruct (cartesian_coords_nan_run self chain Hrun) as (items & Hloop).
  destruct (three_atoms (init_coords self)) as (s0 & s1 & s2 & Hinit); [ apply Hc | ].
  rewrite Hinit in Hloop. cbn [map app] in Hloop.
  change [Some s0; Some s1; Some s2] with ([] ++ [Some s0; Some s1; Some s2]) in Hloop.
  destruct Hc as (Hkeys & _ & _).
  destruct (for_each_residue_nan_spec self Hkeys _ _ _ _ _ _ _ Hloop)
    as ((suffix & Hout & Hlen) & Hplaced).
  assert (Hlength : length chain = (3 + 3 * length items)%nat).
  { rewrite Hout, length_app, Hlen. reflexivity. }
  split; [ exists (length items); exact Hlength | ].
  split; [ rewrite Hout, Hinit; reflexivity | ].
  intros i Hi.
  destruct (Hplaced i) as (p0 & p1 & p2 & a1 & l1 & a2 & l2 & a3 & l3
                           & phi0 & psi0 & omega0 & Hpar & H0 & H1 & H2 & Hq);
    [ lia | ].
  cbv zeta in Hq. destruct Hq as (H3 & H4 & H5).
  cbn [length Nat.add] in H0, H1, H2, H3, H4, H5.
  destruct Hpar as (_ & Hl1 & _ & Hl2 & _ & Hl3).
  set (q3 := place_dihedral_nan p0 p1 p2 a1 l1 psi0 (use_torch self)) in *.
  set (q4 := place_dihedral_nan p1 p2 q3 a2 l2 omega0 (use_torch self)) in *.
  set (q5 := place_dihedral_nan p2 q3 q4 a3 l3 phi0 (use_torch self)) in *.
  split; [ | split ].
  - exists p0, p1, p2, l1.
    replace (3 * i + 3 - 3)%nat with (3 * i)%nat by lia.
    replace (3 * i + 3 - 2)%nat with (3 * i + 1)%nat by lia.
    replace (3 * i + 3 - 1)%nat with (3 * i + 2)%nat by lia.
    repeat split; try assumption.
    + intros Hpl.
      destruct (place_dihedral_nan_placeable p0 p1 p2 a1 l1 psi0 (use_torch self) Hpl)
        as (c & d & Hc' & Hd & Hdist).
      exists c, d. fold q3 in Hd. rewrite H3, Hd. repeat split; assumption.
    + intros Hnp. rewrite H3. unfold q3.
      rewrite place_dihedral_nan_not_placeable by exact Hnp. reflexivity.
  - exists p1, p2, q3, l2.
    replace (3 * i + 4 - 3)%nat with (3 * i + 1)%nat by lia.
    replace (3 * i + 4 - 2)%nat with (3 * i + 2)%nat by lia.
    replace (3 * i + 4 - 1)%nat with (3 * i + 3)%nat by lia.
    repeat split; try assumption.
    + intros Hpl.
      destruct (place_dihedral_nan_placeable p1 p2 q3 a2 l2 omega0 (use_torch self) Hpl)
        as (c & d & Hc' & Hd & Hdist).
      exists c, d. fold q4 in Hd. rewrite H4, Hd. repeat split; assumption.
    + intros Hnp. rewrite H4. unfold q4.
      rewrite place_dihedral_nan_not_placeable by exact Hnp. reflexivity.
  - exists p2, q3, q4, l3.
    replace (3 * i + 5 - 3)%nat with (3 * i + 2)%nat by lia.
    replace (3 * i + 5 - 2)%nat with (3 * i + 3)%nat by lia.
    replace (3 * i + 5 - 1)%nat with (3 * i + 4)%nat by lia.
    repeat split; try assumption.
    + intros Hpl.
      destruct (place_dihedral_nan_placeable p2 q3 q4 a3 l3 phi0 (use_torch self) Hpl)
        as (c & d & Hc' & Hd & Hdist).
      exists c, d. fold q5 in Hd. rewrite H5, Hd. repeat split; assumption.
    + intros Hnp. rewrite H5. unfold q5.
      rewrite place_dihedral_nan_not_placeable by exact Hnp. reflexivity.
Qed.

(** ** Not-a-number: chains of numbers

    From seed atoms that are not collinear, with tables that hold no zero
    length and no straight angle at the indices the loop reads, no
    not-a-number arises and the chain is the one over the reals. *)
Lemma for_each_residue_nan_numbers (self : NERFBuilder) :
  keys (bond_lengths self) = [C_N; N_CA; CA_C] ->
  nondegenerate_tables self ->
  forall (items : list (R * R * R)) (start : nat) (pre : list vec3)
         (q0 q1 q2 : vec3) (out : list vec3),
    ~ collinear q0 q1 q2 ->
    for_each (place_residue self) (enumerate_from start items) (pre ++ [q0; q1; q2])
    = Ok out ->
    for_each (place_residue_nan self) (enumerate_from start items)
             (map Some (pre ++ [q0; q1; q2]))
    = Ok (map Some out).
Proof.
  intros Hkeys Htab items.
  induction items as [ | [[phi0 psi0] omega0] rest IH];
    intros start pre q0 q1 q2 out Hnc Hrun.
  - simpl in Hrun. injection Hrun as <-. reflexivity.
  - cbn [enumerate_from for_each] in Hrun |- *.
    apply bind_Ok_inv in Hrun. destruct Hrun as (mid & Hstep & Hrest).
    rewrite place_residue_eq in Hstep by exact Hkeys.
    apply bind_Ok_inv in Hstep. destruct Hstep as (a1 & Ha1 & Hstep).
    apply bind_Ok_inv in Hstep. destruct Hstep as (l1 & Hl1 & Hstep).
    apply bind_Ok_inv in Hstep. destruct Hstep as (a2 & Ha2 & Hstep).
    apply bind_Ok_inv in Hstep. destruct Hstep as (l2 & Hl2 & Hstep).
    apply bind_Ok_inv in Hstep. destruct Hstep as (a3 & Ha3 & Hstep).
    apply bind_Ok_inv in Hstep. destruct Hstep as (l3 & Hl3 & Hstep).
    injection Hstep as <-.
    rewrite map_app. cbn [map].
    rewrite place_residue_nan_eq by exact Hkeys.
    rewrite Ha1, Hl1, Ha2, Hl2, Ha3, Hl3. cbn [bind].
    unfold place3 in Hrest. unfold place3_nan.
    set (q3 := place_dihedral q0 q1 q2 a1 l1 psi0 (use_torch self)) in *.
    set (q4 := place_dihedral q1 q2 q3 a2 l2 omega0 (use_torch self)) in *.
    set (q5 := place_dihedral q2 q3 q4 a3 l3 phi0 (use_torch self)) in *.
    assert (Hnc1 : ~ collinear q1 q2 q3).
    { apply place_dihedral_noncollinear;
        [ exact Hnc
        | apply (proj1 (Htab C_N start)); exact Hl1
        | apply (proj2 (Htab C_N start)); exact Ha1 ]. }
    assert (Hnc2 : ~ collinear q2 q3 q4).
    { apply place_dihedral_noncollinear;
        [ exact Hnc1
        | apply (proj1 (Htab N_CA start)); exact Hl2
        | apply (proj2 (Htab N_CA start)); exact Ha2 ]. }
    assert (Hnc3 : ~ collinear q3 q4 q5).
    { apply place_dihedral_noncollinear;
        [ exact Hnc2
        | apply (proj1 (Htab CA_C start)); exact Hl3
        | apply (proj2 (Htab CA_C start)); exact Ha3 ]. }
    rewrite (place_dihedral_nan_numbers q0 q1 q2) by exact Hnc. fold q3.
    rewrite (place_dihedral_nan_numbers q1 q2 q3) by exact Hnc1. fold q4.
    rewrite (place_dihedral_nan_numbers q2 q3 q4) by exact Hnc2. fold q5.
    replace ((pre ++ [q0; q1; q2]) ++ [q3; q4; q5])
      with ((pre ++ [q0; q1; q2]) ++ [q3; q4; q5]) in Hrest by reflexivity.
    rewrite <- app_assoc in Hrest. cbn [app] in Hrest.
    replace (pre ++ [q0; q1; q2; q3; q4; q5])
      with ((pre ++ [q0; q1; q2]) ++ [q3; q4; q5]) in Hrest
      by (rewrite <- app_assoc; reflexivity).
    specialize (IH (S start) (pre ++ [q0; q1; q2]) q3 q4 q5 out Hnc3 Hrest).
    rewrite !map_app in IH. cbn [map] in IH.
    exact IH.
Qed.

Lemma cartesian_coords_nan_numbers (self : NERFBuilder) (coords : list vec3) :
  constructed self ->
  nondegenerate_tables self ->
  (forall s0 s1 s2, init_coords self = [s0; s1; s2] -> ~ collinear s0 s1 s2) ->
  cartesian_coords self = Ok coords ->
  cartesian_coords_nan self = Ok (map Some coords).
Proof.
  intros Hc Htab Hseeds Hrun.
  unfold cartesian_coords in Hrun. unfold cartesian_coords_nan.
  destruct (slice_from_1 (phi self)) as [phis | ]; [ | discriminate ].
  destruct (slice_to_last (psi self)) as [psis | ]; [ | discriminate ].
  destruct (slice_to_last (omega self)) as [omegas | ]; [ | discriminate ].
  cbn [bind] in Hrun |- *.
  destruct (three_atoms (init_coords self)) as (s0 & s1 & s2 & Hinit); [ apply Hc | ].
  rewrite Hinit in Hrun |- *. unfold enumerate in *.
  apply for_each_residue_nan_numbers; try assumption.
  - apply Hc.
  - apply Hseeds. exact Hinit.
Qed.

(** ** The default builder *)

Lemma default_seeds_noncollinear :
  forall s0 s1 s2,
    all_vec3 [N_INIT; CA_INIT; C_INIT] = Some [s0; s1; s2] -> ~ collinear s0 s1 s2.
Proof.
  intros s0 s1 s2 Hs. simpl in Hs. injection Hs as <- <- <-.
  unfold collinear, cross, vsub, vzero. simpl. intros H.
  injection H as Hx Hy Hz. lra.
Qed.

Lemma default_angle_sin (k : R) : 0 < k < 180 -> sin (k / 180 * PI) <> 0.
Proof.
  intros Hk. pose proof PI_RGT_0 as Hpi.
  apply Rgt_not_eq. apply sin_gt_0.
  - apply Rmult_lt_0_compat; lra.
  - replace PI with (180 / 180 * PI) at 2 by field.
    apply Rmult_lt_compat_r; lra.
Qed.

Lemma default_tables_nondegenerate (p s o : array) (self : NERFBuilder) :
  NERFBuilder_default p s o = Ok self -> nondegenerate_tables self.
Proof.
  intros Hinit. apply NERFBuilder_init_fields in Hinit.
  destruct Hinit as (_ & _ & _ & _ & Hl & Ha & _).
  intros b i. unfold _get_bond_length, _get_bond_angle. rewrite Hl, Ha.
  cbn [getitem]. split.
  - intros L.
    destruct (bond_eqb C_N b); [ intros [= <-]; unfold C_N_LENGTH; lra | ].
    destruct (bond_eqb N_CA b); [ intros [= <-]; unfold N_CA_LENGTH; lra | ].
    destruct (bond_eqb CA_C b); [ intros [= <-]; unfold CA_C_LENGTH; lra | ].
    discriminate.
  - intros theta.
    destruct (bond_eqb C_N b); [ intros [= <-]; apply default_angle_sin; lra | ].
    destruct (bond_eqb N_CA b); [ intros [= <-]; apply default_angle_sin; lra | ].
    destruct (bond_eqb CA_C b); [ intros [= <-]; apply default_angle_sin; lra | ].
    discriminate.
Qed.

(** The default builder on two residues: six atoms, all of them numbers. *)
Lemma default_chain_numbers :
  exists self coords,
    NERFBuilder_default (np_array [0; -1]) (np_array [2; 0]) (np_array [3; 0]) = Ok self /\
    cartesian_coords self = Ok coords /\
    cartesian_coords_nan self = Ok (map Some coords) /\
    length coords = 6%nat.
Proof.
  eexists.
  assert (Hreal : exists coords,
             cartesian_coords
               {| use_torch := false; phi := Arr1 [0; -1]; psi := Arr1 [2; 0];
                  omega := Arr1 [3; 0];
                  bond_lengths := [(C_N, Scalar C_N_LENGTH); (N_CA, Scalar N_CA_LENGTH);
                                   (CA_C, Scalar CA_C_LENGTH)];
                  bond_angles := [(C_N, Scalar default_bond_angle_c_n);
                                  (N_CA, Scalar default_bond_angle_n_ca);
                                  (CA_C, Scalar default_bond_angle_ca_c)];
                  init_coords := [V3 (17047 / 1000) (14099 / 1000) (3625 / 1000);
                                  V3 (16967 / 1000) (12784 / 1000) (4338 / 1000);
                                  V3 (15685 / 1000) (12755 / 1000) (5133 / 1000)] |}
             = Ok coords /\ length coords = 6%nat).
  { eexists. split; reflexivity. }
  destruct Hreal as (coords & Hreal & Hlen).
  exists coords.
  split; [ reflexivity | ].
  split; [ exact Hreal | ].
  split; [ | exact Hlen ].
  apply cartesian_coords_nan_numbers.
  - repeat split.
  - apply (default_tables_nondegenerate
             (np_array [0; -1]) (np_array [2; 0]) (np_array [3; 0])). reflexivity.
  - cbn [init_coords]. intros s0 s1 s2 Hs. apply default_seeds_noncollinear.
    simpl. f_equal. exact Hs.
  - exact Hreal.
Qed.

(** ** C1 *)

(** With collinear seed atoms the first placement divides zero by zero, and
    no later atom is a number. *)
Lemma collinear_seeds_chain :
  exists self,
    NERFBuilder_init (np_array [0; -1]) (np_array [2; 0]) (np_array [3; 0])
      (Scalar N_CA_LENGTH) (Scalar CA_C_LENGTH) (Scalar C_N_LENGTH)
      (Scalar default_bond_angle_n_ca) (Scalar default_bond_angle_ca_c)
      (Scalar default_bond_angle_c_n) [[0; 0; 0]; [1; 0; 0]; [2; 0; 0]] = Ok self /\
    cartesian_coords_nan self
    = Ok [Some (V3 0 0 0); Some (V3 1 0 0); Some (V3 2 0 0); None; None; None].
Proof.
  eexists. split; [ reflexivity | ].
  assert (Hrun : exists q3 q4 q5,
             cartesian_coords_nan
               {| use_torch := false; phi := Arr1 [0; -1]; psi := Arr1 [2; 0];
                  omega := Arr1 [3; 0];
                  bond_lengths := [(C_N, Scalar C_N_LENGTH); (N_CA, Scalar N_CA_LENGTH);
                                   (CA_C, Scalar CA_C_LENGTH)];
                  bond_angles := [(C_N, Scalar default_bond_angle_c_n);
                                  (N_CA, Scalar default_bond_angle_n_ca);
                                  (CA_C, Scalar default_bond_angle_ca_c)];
                  init_coords := [V3 0 0 0; V3 1 0 0; V3 2 0 0] |}
             = Ok [Some (V3 0 0 0); Some (V3 1 0 0); Some (V3 2 0 0); q3; q4; q5] /\
             q3 = place_dihedral_nan (Some (V3 0 0 0)) (Some (V3 1 0 0)) (Some (V3 2 0 0))
                    default_bond_angle_c_n C_N_LENGTH 2 false /\
             q4 = place_dihedral_nan (Some (V3 1 0 0)) (Some (V3 2 0 0)) q3
                    default_bond_angle_n_ca N_CA_LENGTH 3 false /\
             q5 = place_dihedral_nan (Some (V3 2 0 0)) q3 q4
                    default_bond_angle_ca_c CA_C_LENGTH (-1) false).
  { eexists. eexists. eexists. repeat split; reflexivity. }
  destruct Hrun as (q3 & q4 & q5 & Hrun & H3 & H4 & H5).
  assert (E3 : q3 = None).
  { rewrite H3. apply place_dihedral_nan_collinear.
    unfold collinear, cross, vsub, vzero. simpl. f_equal; ring. }
  assert (E4 : q4 = None).
  { rewrite H4, E3. apply place_dihedral_nan_not_placeable.
    intros (? & ? & ? & _ & _ & ? & _). discriminate. }
  assert (E5 : q5 = None).
  { rewrite H5, E3. apply place_dihedral_nan_not_placeable.
    intros (? & ? & ? & _ & ? & _). discriminate. }
  rewrite E3, E4, E5 in Hrun. exact Hrun.
Qed.




(** ** C2 *)

(** C2.  In the chain of a constructed builder, every residue index [i] the
    loop processes accounts for exactly the three atoms at [3i+3], [3i+4],
    [3i+5]: each is [place_dihedral] of the three atoms just before it, with
    the bond angle and length of C-N, N-CA, CA-C at index [i], in this order,
    and the torsions [psi[i]], [omega[i]], [phi[i+1]]; the chain holds nothing
    else besides the three seed atoms. *)
Theorem C2_three_placements_per_residue
    (p s o : array) (l_n_ca l_ca_c l_c_n a_n_ca a_ca_c a_c_n : bond_value)
    (ic : list (list R)) (self : NERFBuilder) (coords : list vec3)
    (phis psis omegas : list R) :
  NERFBuilder_init p s o l_n_ca l_ca_c l_c_n a_n_ca a_ca_c a_c_n ic = Ok self ->
  phi self = Arr1 phis -> psi self = Arr1 psis -> omega self = Arr1 omegas ->
  cartesian_coords self = Ok coords ->
  length coords = (3 + 3 * residues_processed phis psis omegas)%nat /\
  forall i, (i < residues_processed phis psis omegas)%nat ->
    residue_placed self coords (3 * i) i (nth (S i) phis 0) (nth i psis 0) (nth i omegas 0).
Proof.
  intros Hinit Hp Hs Ho Hrun.
  apply NERFBuilder_init_constructed in Hinit.
  destruct (cartesian_coords_spec self coords phis psis omegas Hinit Hp Hs Ho Hrun)
    as (Hlen & _ & Hplaced).
  split; [ exact Hlen | exact Hplaced ].
Qed.

(** Three residues at the default geometry: residue index 1 is placed with
    [psi[1]], [omega[1]] and [phi[2]]. *)
Lemma C2_three_placements_witness :
  exists self coords,
    NERFBuilder_default (torch_tensor [0; -1; 1]) (torch_tensor [2; 1; 0])
                        (torch_tensor [3; 3; 0]) = Ok self /\
    cartesian_coords self = Ok coords /\
    length coords = 9%nat /\
    residue_placed self coords 3 1 1 1 3.
Proof.
  eexists. eexists.
  split; [ reflexivity | ].
  split; [ reflexivity | ].
  pose proof (C2_three_placements_per_residue
                (torch_tensor [0; -1; 1]) (torch_tensor [2; 1; 0]) (torch_tensor [3; 3; 0])
                (Scalar N_CA_LENGTH) (Scalar CA_C_LENGTH) (Scalar C_N_LENGTH)
                (Scalar default_bond_angle_n_ca) (Scalar default_bond_angle_ca_c)
                (Scalar default_bond_angle_c_n) [N_INIT; CA_INIT; C_INIT]
                _ _ [0; -1; 1] [2; 1; 0] [3; 3; 0]
                eq_refl eq_refl eq_refl eq_refl eq_refl) as [Hlen Hplaced].
  split; [ exact Hlen | ].
  apply (Hplaced 1%nat). unfold residues_processed. simpl. lia.
Defined.

(** ** The length of the chain *)

Lemma index_bond_value_covers (v : bond_value) (k i : nat) :
  covers v k -> (i < k)%nat -> exists x, index_bond_value v i = Ok x.
Proof.
  destruct v as [x | xs]; simpl; intros Hc Hi.
  - exists x. reflexivity.
  - destruct (nth_error xs i) as [x | ] eqn:Hx.
    + exists x. reflexivity.
    + apply nth_error_None in Hx. lia.
Qed.

Lemma init_get_bond (p s o : array) (l_n_ca l_ca_c l_c_n a_n_ca a_ca_c a_c_n : bond_value)
                    (ic : list (list R)) (self : NERFBuilder) (i : nat) :
  NERFBuilder_init p s o l_n_ca l_ca_c l_c_n a_n_ca a_ca_c a_c_n ic = Ok self ->
  _get_bond_angle self C_N i = index_bond_value a_c_n i /\
  _get_bond_length self C_N i = index_bond_value l_c_n i /\
  _get_bond_angle self N_CA i = index_bond_value a_n_ca i /\
  _get_bond_length self N_CA i = index_bond_value l_n_ca i /\
  _get_bond_angle self CA_C i = index_bond_value a_ca_c i /\
  _get_bond_length self CA_C i = index_bond_value l_ca_c i.
Proof.
  intros Hinit. apply NERFBuilder_init_fields in Hinit.
  destruct Hinit as (_ & _ & _ & _ & Hl & Ha & _).
  unfold _get_bond_angle, _get_bond_length. rewrite Hl, Ha.
  repeat split; reflexivity.
Qed.

(** For [n >= 2] residues, given as three arrays of [n] angles, and bond
    tables that are scalars or hold at least [n - 1] entries, the chain is
    built and has [3 + 3 (n - 1)] atoms. *)
Theorem cartesian_coords_length
    (p s o : array) (l_n_ca l_ca_c l_c_n a_n_ca a_ca_c a_c_n : bond_value)
    (ic : list (list R)) (self : NERFBuilder) (phis psis omegas : list R) (n : nat) :
  NERFBuilder_init p s o l_n_ca l_ca_c l_c_n a_n_ca a_ca_c a_c_n ic = Ok self ->
  values p = Arr1 phis -> values s = Arr1 psis -> values o = Arr1 omegas ->
  length phis = n -> length psis = n -> length omegas = n ->
  (2 <= n)%nat ->
  covers l_n_ca (n - 1) -> covers l_ca_c (n - 1) -> covers l_c_n (n - 1) ->
  covers a_n_ca (n - 1) -> covers a_ca_c (n - 1) -> covers a_c_n (n - 1) ->
  exists coords,
    cartesian_coords self = Ok coords /\ length coords = (3 + 3 * (n - 1))%nat.
Proof.
  intros Hinit Hp Hs Ho Lp Ls Lo Hn C1 C2 C3 C4 C5 C6.
  pose proof (NERFBuilder_init_constructed _ _ _ _ _ _ _ _ _ _ _ Hinit) as Hc.
  destruct (NERFBuilder_init_fields _ _ _ _ _ _ _ _ _ _ _ Hinit)
    as (_ & Fp & Fs & Fo & _).
  rewrite Hp, squeeze_long in Fp by lia.
  rewrite Hs, squeeze_long in Fs by lia.
  rewrite Ho, squeeze_long in Fo by lia.
  assert (Hm : Nat.min (length phis - 1) (Nat.min (length psis - 1) (length omegas - 1))
               = (n - 1)%nat) by lia.
  destruct (cartesian_coords_total self phis psis omegas Hc Fp Fs Fo) as (coords & Hrun).
  { rewrite Hm. intros i Hi.
    destruct (init_get_bond _ _ _ _ _ _ _ _ _ _ _ i Hinit)
      as (E1 & E2 & E3 & E4 & E5 & E6).
    destruct (index_bond_value_covers _ _ i C6 Hi) as (a1 & A1).
    destruct (index_bond_value_covers _ _ i C3 Hi) as (l1 & L1).
    destruct (index_bond_value_covers _ _ i C4 Hi) as (a2 & A2).
    destruct (index_bond_value_covers _ _ i C1 Hi) as (l2 & L2).
    destruct (index_bond_value_covers _ _ i C5 Hi) as (a3 & A3).
    destruct (index_bond_value_covers _ _ i C2 Hi) as (l3 & L3).
    exists a1, l1, a2, l2, a3, l3. unfold bond_params.
    rewrite E1, E2, E3, E4, E5, E6. repeat split; assumption. }
  exists coords. split; [ exact Hrun | ].
  destruct (cartesian_coords_spec self coords phis psis omegas Hc Fp Fs Fo Hrun)
    as (Hlen & _).
  rewrite Hlen, Hm. reflexivity.
Qed.

Lemma cartesian_coords_length_witness :
  exists self coords,
    NERFBuilder_default (np_array [0; -1; 1]) (np_array [2; 1; 0]) (np_array [3; 3; 0])
    = Ok self /\
    cartesian_coords self = Ok coords /\ length coords = 9%nat.
Proof.
  eexists.
  destruct (cartesian_coords_length
              (np_array [0; -1; 1]) (np_array [2; 1; 0]) (np_array [3; 3; 0])
              (Scalar N_CA_LENGTH) (Scalar CA_C_LENGTH) (Scalar C_N_LENGTH)
              (Scalar default_bond_angle_n_ca) (Scalar default_bond_angle_ca_c)
              (Scalar default_bond_angle_c_n) [N_INIT; CA_INIT; C_INIT]
              _ [0; -1; 1] [2; 1; 0] [3; 3; 0] 3%nat
              eq_refl eq_refl eq_refl eq_refl eq_refl eq_refl eq_refl
              (le_S _ _ (le_n 2)) I I I I I I) as (coords & Hrun & Hlen).
  exists coords. split; [ reflexivity | ]. split; [ exact Hrun | exact Hlen ].
Defined.

(** ** C3 and C4: one residue *)

(** C3, at [n = 1].  With one angle per array and every other argument at its
    default, [cartesian_coords] is no sequence of [3 + 3 (1 - 1) = 3] atoms:
    [squeeze] has turned each array into a 0-d array, and slicing the first
    of them raises [IndexError]. *)
Theorem C3_single_residue_raises :
  build_cartesian_coords (np_array [1]) (np_array [2]) (np_array [3])
    (Scalar N_CA_LENGTH) (Scalar CA_C_LENGTH) (Scalar C_N_LENGTH)
    (Scalar default_bond_angle_n_ca) (Scalar default_bond_angle_ca_c)
    (Scalar default_bond_angle_c_n) [N_INIT; CA_INIT; C_INIT]
  = Raise IndexError.
Proof. reflexivity. Qed.

(** C4, on the code.  Whatever the single angles are, whether the arrays are
    NumPy arrays or Torch tensors, and whatever the bond tables hold, a
    builder given arrays of length one and the default seed atoms does not
    return the seed atoms: reading [cartesian_coords] raises [IndexError]
    before the loop is reached. *)
Theorem C4_length_one_arrays_raise
    (x y z : R) (tp ts to : bool)
    (l_n_ca l_ca_c l_c_n a_n_ca a_ca_c a_c_n : bond_value) :
  build_cartesian_coords
    {| is_tensor := tp; values := Arr1 [x] |}
    {| is_tensor := ts; values := Arr1 [y] |}
    {| is_tensor := to; values := Arr1 [z] |}
    l_n_ca l_ca_c l_c_n a_n_ca a_ca_c a_c_n [N_INIT; CA_INIT; C_INIT]
  = Raise IndexError.
Proof. reflexivity. Qed.

(** ** What [cartesian_coords] depends on *)

(** The two branches of the mode switch are the same function of real
    arguments.  This says nothing of the numbers the two libraries return:
    in Torch mode a Python [float] argument becomes a single-precision
    tensor, and precision is not part of the number model. *)
Lemma place_dihedral_mode (a b c : vec3) (theta L tau : R) (mode mode' : bool) :
  place_dihedral a b c theta L tau mode = place_dihedral a b c theta L tau mode'.
Proof. rewrite !place_dihedral_frame. reflexivity. Qed.

Lemma place_next_congr (self self' : NERFBuilder) (i : nat) (retval : list vec3)
                       (bond_dih : bond * R) :
  bond_lengths self = bond_lengths self' ->
  bond_angles self = bond_angles self' ->
  place_next self i retval bond_dih = place_next self' i retval bond_dih.
Proof.
  intros Hl Ha. unfold place_next, _get_bond_angle, _get_bond_length.
  destruct bond_dih as [b dih]. rewrite Hl, Ha.
  destruct (neg_index retval 3); [ | reflexivity ].
  destruct (neg_index retval 2); [ | reflexivity ].
  destruct (neg_index retval 1); [ | reflexivity ].
  cbn [bind].
  destruct (getitem (bond_angles self') b) as [va | ]; [ | reflexivity ]. cbn [bind].
  destruct (index_bond_value va i); [ | reflexivity ]. cbn [bind].
  destruct (getitem (bond_lengths self') b) as [vl | ]; [ | reflexivity ]. cbn [bind].
  destruct (index_bond_value vl i); [ | reflexivity ]. cbn [bind].
  rewrite (place_dihedral_mode _ _ _ _ _ _ (use_torch self) (use_torch self')).
  reflexivity.
Qed.

(** The chain is a function of the two tables, the seed atoms and the three
    slices; the mode and the entries outside the slices do not enter. *)
Lemma cartesian_coords_congr (self self' : NERFBuilder) :
  bond_lengths self = bond_lengths self' ->
  bond_angles self = bond_angles self' ->
  init_coords self = init_coords self' ->
  slice_from_1 (phi self) = slice_from_1 (phi self') ->
  slice_to_last (psi self) = slice_to_last (psi self') ->
  slice_to_last (omega self) = slice_to_last (omega self') ->
  cartesian_coords self = cartesian_coords self'.
Proof.
  intros Hl Ha Hi Hp Hs Ho. unfold cartesian_coords.
  rewrite Hp, Hs, Ho, Hi.
  destruct (slice_from_1 (phi self')) as [phis | ]; [ | reflexivity ].
  destruct (slice_to_last (psi self')) as [psis | ]; [ | reflexivity ].
  destruct (slice_to_last (omega self')) as [omegas | ]; [ | reflexivity ].
  cbn [bind]. apply for_each_ext.
  intros retval [i [[phi0 psi0] omega0]]. unfold place_residue. rewrite Hl.
  apply for_each_ext. intros retval' bond_dih.
  apply place_next_congr; assumption.
Qed.

Lemma build_cartesian_coords_congr
    (p s o p' s' o' : array) (l_n_ca l_ca_c l_c_n a_n_ca a_ca_c a_c_n : bond_value)
    (ic : list (list R)) :
  slice_from_1 (squeeze (values p)) = slice_from_1 (squeeze (values p')) ->
  slice_to_last (squeeze (values s)) = slice_to_last (squeeze (values s')) ->
  slice_to_last (squeeze (values o)) = slice_to_last (squeeze (values o')) ->
  build_cartesian_coords p s o l_n_ca l_ca_c l_c_n a_n_ca a_ca_c a_c_n ic
  = build_cartesian_coords p' s' o' l_n_ca l_ca_c l_c_n a_n_ca a_ca_c a_c_n ic.
Proof.
  intros Hp Hs Ho. unfold build_cartesian_coords, NERFBuilder_init.
  destruct (assert (length ic =? 3)%nat); [ | reflexivity ]. cbn [bind].
  destruct (all_vec3 ic); [ | reflexivity ]. cbn [bind].
  apply cartesian_coords_congr; try reflexivity; assumption.
Qed.

(** ** C6 *)

Lemma not_covers (v : bond_value) (m : nat) :
  ~ covers v m -> exists i, (i < m)%nat /\ index_bond_value v i = Raise IndexError.
Proof.
  destruct v as [x | xs]; simpl; intros Hnc.
  - exfalso. apply Hnc. exact I.
  - exists (length xs). split; [ lia | ].
    destruct (nth_error xs (length xs)) eqn:Hx; [ | reflexivity ].
    assert (nth_error xs (length xs) = None) as Hn by (apply nth_error_None; lia).
    congruence.
Qed.

Section Tables.
Variables (p s o : array) (l_n_ca l_ca_c l_c_n a_n_ca a_ca_c a_c_n : bond_value).
Variable ic : list (list R).
Variable self : NERFBuilder.
Variables phis psis omegas : list R.
Hypothesis self_init :
  NERFBuilder_init p s o l_n_ca l_ca_c l_c_n a_n_ca a_ca_c a_c_n ic = Ok self.
Hypothesis self_phi : phi self = Arr1 phis.
Hypothesis self_psi : psi self = Arr1 psis.
Hypothesis self_omega : omega self = Arr1 omegas.

Let m := residues_processed phis psis omegas.

Lemma cartesian_coords_covered :
  covers l_n_ca m -> covers l_ca_c m -> covers l_c_n m ->
  covers a_n_ca m -> covers a_ca_c m -> covers a_c_n m ->
  exists coords, cartesian_coords self = Ok coords /\ length coords = (3 + 3 * m)%nat.
Proof.
  intros C1 C2 C3 C4 C5 C6.
  pose proof (NERFBuilder_init_constructed _ _ _ _ _ _ _ _ _ _ _ self_init) as Hc.
  destruct (cartesian_coords_total self phis psis omegas Hc self_phi self_psi self_omega)
    as (coords & Hrun).
  { fold (residues_processed phis psis omegas). fold m. intros i Hi.
    destruct (init_get_bond _ _ _ _ _ _ _ _ _ _ _ i self_init)
      as (E1 & E2 & E3 & E4 & E5 & E6).
    destruct (index_bond_value_covers _ _ i C6 Hi) as (a1 & A1).
    destruct (index_bond_value_covers _ _ i C3 Hi) as (l1 & L1).
    destruct (index_bond_value_covers _ _ i C4 Hi) as (a2 & A2).
    destruct (index_bond_value_covers _ _ i C1 Hi) as (l2 & L2).
    destruct (index_bond_value_covers _ _ i C5 Hi) as (a3 & A3).
    destruct (index_bond_value_covers _ _ i C2 Hi) as (l3 & L3).
    exists a1, l1, a2, l2, a3, l3. unfold bond_params.
    rewrite E1, E2, E3, E4, E5, E6. repeat split; assumption. }
  exists coords. split; [ exact Hrun | ].
  apply (cartesian_coords_spec self coords phis psis omegas Hc
           self_phi self_psi self_omega Hrun).
Qed.

Lemma cartesian_coords_short_table :
  ~ covers l_n_ca m \/ ~ covers l_ca_c m \/ ~ covers l_c_n m \/
  ~ covers a_n_ca m \/ ~ covers a_ca_c m \/ ~ covers a_c_n m ->
  cartesian_coords self = Raise IndexError.
Proof.
  intros Hshort.
  pose proof (NERFBuilder_init_constructed _ _ _ _ _ _ _ _ _ _ _ self_init) as Hc.
  destruct (cartesian_coords self) as [coords | e] eqn:Hrun.
  - exfalso.
    destruct (cartesian_coords_spec self coords phis psis omegas Hc
                self_phi self_psi self_omega Hrun) as (_ & _ & Hplaced).
    fold (residues_processed phis psis omegas) in Hplaced. fold m in Hplaced.
    assert (Hlookup : forall v, In v [l_n_ca; l_ca_c; l_c_n; a_n_ca; a_ca_c; a_c_n] ->
                                forall i, (i < m)%nat ->
                                          index_bond_value v i <> Raise IndexError).
    { intros v Hv i Hi.
      destruct (Hplaced i Hi)
        as (q0 & q1 & q2 & a1 & l1 & a2 & l2 & a3 & l3 & Hpar & _).
      destruct (init_get_bond _ _ _ _ _ _ _ _ _ _ _ i self_init)
        as (E1 & E2 & E3 & E4 & E5 & E6).
      destruct Hpar as (A1 & L1 & A2 & L2 & A3 & L3).
      rewrite E1 in A1. rewrite E2 in L1. rewrite E3 in A2.
      rewrite E4 in L2. rewrite E5 in A3. rewrite E6 in L3.
      simpl in Hv.
      destruct Hv as [<- | [<- | [<- | [<- | [<- | [<- | []]]]]]]; congruence. }
    assert (Hin : exists v, In v [l_n_ca; l_ca_c; l_c_n; a_n_ca; a_ca_c; a_c_n]
                            /\ ~ covers v m).
    { simpl.
      destruct Hshort as [H | [H | [H | [H | [H | H]]]]]; eexists; (split; [ | exact H ]);
        tauto. }
    destruct Hin as (v & Hv & Hnc).
    destruct (not_covers v m Hnc) as (i & Hi & Hraise).
    exact (Hlookup v Hv i Hi Hraise).
  - f_equal. eapply cartesian_coords_error; eassumption.
Qed.
End Tables.

(** C6 (as amended).  The lengths of the three torsion arrays are never
    compared.  For 1-D arrays none of which has exactly one entry, the loop
    runs over [m = min(len phi, len psi, len omega) - 1] residue indices,
    [zip] stopping with the shortest slice, so arrays of unequal length raise
    nothing by themselves.  A per-residue bond length or bond angle sequence
    with fewer than [m] entries makes [cartesian_coords] raise [IndexError];
    when every table is a scalar or holds at least [m] entries, the chain of
    [3 + 3 m] atoms is returned.  The arrays are the ones passed to the
    constructor. *)
Theorem C6_short_table_raises_unequal_lengths_truncate
    (p s o : array) (l_n_ca l_ca_c l_c_n a_n_ca a_ca_c a_c_n : bond_value)
    (ic : list (list R)) (self : NERFBuilder) (phis psis omegas : list R) :
  NERFBuilder_init p s o l_n_ca l_ca_c l_c_n a_n_ca a_ca_c a_c_n ic = Ok self ->
  values p = Arr1 phis -> values s = Arr1 psis -> values o = Arr1 omegas ->
  length phis <> 1%nat -> length psis <> 1%nat -> length omegas <> 1%nat ->
  let m := residues_processed phis psis omegas in
  (covers l_n_ca m /\ covers l_ca_c m /\ covers l_c_n m /\
   covers a_n_ca m /\ covers a_ca_c m /\ covers a_c_n m ->
   exists coords, cartesian_coords self = Ok coords /\ length coords = (3 + 3 * m)%nat)
  /\
  (~ covers l_n_ca m \/ ~ covers l_ca_c m \/ ~ covers l_c_n m \/
   ~ covers a_n_ca m \/ ~ covers a_ca_c m \/ ~ covers a_c_n m ->
   cartesian_coords self = Raise IndexError).
Proof.
  intros Hinit Vp Vs Vo Np Ns No m.
  destruct (NERFBuilder_init_fields _ _ _ _ _ _ _ _ _ _ _ Hinit)
    as (_ & Hp & Hs & Ho & _).
  rewrite Vp, squeeze_not_one in Hp by exact Np.
  rewrite Vs, squeeze_not_one in Hs by exact Ns.
  rewrite Vo, squeeze_not_one in Ho by exact No.
  split.
  - intros (C1 & C2 & C3 & C4 & C5 & C6).
    eapply cartesian_coords_covered; eassumption.
  - intros Hshort. eapply cartesian_coords_short_table; eassumption.
Qed.

(** Two, three and four angles with scalar tables: six atoms.  Three angles
    each with a single C-N length: [IndexError]. *)
Lemma C6_short_table_witness :
  (exists self coords,
      NERFBuilder_default (np_array [0; 1]) (np_array [2; 3; 4]) (np_array [5; 6; 7; 8])
      = Ok self /\
      cartesian_coords self = Ok coords /\ length coords = 6%nat)
  /\
  (exists self,
      NERFBuilder_init (np_array [0; 1; 2]) (np_array [3; 4; 5]) (np_array [6; 7; 8])
        (Scalar N_CA_LENGTH) (Scalar CA_C_LENGTH) (PerResidue [C_N_LENGTH])
        (Scalar default_bond_angle_n_ca) (Scalar default_bond_angle_ca_c)
        (Scalar default_bond_angle_c_n) [N_INIT; CA_INIT; C_INIT]
      = Ok self /\
      cartesian_coords self = Raise IndexError).
Proof.
  split.
  - eexists.
    destruct (proj1 (C6_short_table_raises_unequal_lengths_truncate
                (np_array [0; 1]) (np_array [2; 3; 4]) (np_array [5; 6; 7; 8])
                (Scalar N_CA_LENGTH) (Scalar CA_C_LENGTH) (Scalar C_N_LENGTH)
                (Scalar default_bond_angle_n_ca) (Scalar default_bond_angle_ca_c)
                (Scalar default_bond_angle_c_n) [N_INIT; CA_INIT; C_INIT]
                _ [0; 1] [2; 3; 4] [5; 6; 7; 8]
                eq_refl eq_refl eq_refl eq_refl
                ltac:(simpl; lia) ltac:(simpl; lia) ltac:(simpl; lia)))
      as (coords & Hrun & Hlen).
    + simpl. tauto.
    + exists coords. split; [ reflexivity | ]. split; [ exact Hrun | exact Hlen ].
  - eexists. split; [ reflexivity | ].
    apply (proj2 (C6_short_table_raises_unequal_lengths_truncate
                (np_array [0; 1; 2]) (np_array [3; 4; 5]) (np_array [6; 7; 8])
                (Scalar N_CA_LENGTH) (Scalar CA_C_LENGTH) (PerResidue [C_N_LENGTH])
                (Scalar default_bond_angle_n_ca) (Scalar default_bond_angle_ca_c)
                (Scalar default_bond_angle_c_n) [N_INIT; CA_INIT; C_INIT]
                _ [0; 1; 2] [3; 4; 5] [6; 7; 8]
                eq_refl eq_refl eq_refl eq_refl
                ltac:(simpl; lia) ltac:(simpl; lia) ltac:(simpl; lia))).
    right. right. left. unfold covers, residues_processed. simpl. lia.
Defined.

(** Arrays of two, three and four angles raise nothing and give six atoms;
    and with three residues, a C-N length sequence of two entries, shorter
    than the number of residues, raises nothing either and gives nine atoms. *)
Lemma C6_unequal_lengths_no_error :
  (exists coords,
      build_cartesian_coords (np_array [0; 1]) (np_array [2; 3; 4]) (np_array [5; 6; 7; 8])
        (Scalar N_CA_LENGTH) (Scalar CA_C_LENGTH) (Scalar C_N_LENGTH)
        (Scalar default_bond_angle_n_ca) (Scalar default_bond_angle_ca_c)
        (Scalar default_bond_angle_c_n) [N_INIT; CA_INIT; C_INIT]
      = Ok coords /\ length coords = 6%nat)
  /\
  (exists coords,
      build_cartesian_coords (np_array [0; 1; 2]) (np_array [3; 4; 5]) (np_array [6; 7; 8])
        (Scalar N_CA_LENGTH) (Scalar CA_C_LENGTH) (PerResidue [C_N_LENGTH; C_N_LENGTH])
        (Scalar default_bond_angle_n_ca) (Scalar default_bond_angle_ca_c)
        (Scalar default_bond_angle_c_n) [N_INIT; CA_INIT; C_INIT]
      = Ok coords /\ length coords = 9%nat).
Proof.
  split; eexists; (split; [ reflexivity | reflexivity ]).
Qed.

(** ** C7 *)

Lemma tl_agree (xs ys : list R) :
  (forall i, i <> 0%nat -> nth_error xs i = nth_error ys i) -> tl xs = tl ys.
Proof.
  intros H. apply nth_error_ext. intros k. rewrite !nth_error_tl. apply H. lia.
Qed.

Lemma removelast_agree (xs ys : list R) (n : nat) :
  length xs = n -> length ys = n ->
  (forall i, i <> (n - 1)%nat -> nth_error xs i = nth_error ys i) ->
  removelast xs = removelast ys.
Proof.
  intros Lx Ly H. apply nth_error_ext. intros k.
  destruct (Nat.lt_ge_cases (S k) n) as [Hk | Hk].
  - rewrite !nth_error_removelast by lia. apply H. lia.
  - assert (Hx : nth_error (removelast xs) k = None)
      by (apply nth_error_None; rewrite length_removelast; lia).
    assert (Hy : nth_error (removelast ys) k = None)
      by (apply nth_error_None; rewrite length_removelast; lia).
    congruence.
Qed.

Lemma squeeze_slices (xs : list R) :
  (length xs = 1%nat /\ slice_from_1 (squeeze (Arr1 xs)) = Raise IndexError
                     /\ slice_to_last (squeeze (Arr1 xs)) = Raise IndexError)
  \/ (length xs <> 1%nat /\ slice_from_1 (squeeze (Arr1 xs)) = Ok (tl xs)
                         /\ slice_to_last (squeeze (Arr1 xs)) = Ok (removelast xs)).
Proof.
  destruct xs as [ | x [ | y rest]].
  - right. repeat split. discriminate.
  - left. repeat split.
  - right. repeat split. discriminate.
Qed.

(** C7.  Two runs on arrays of [n] angles that agree everywhere except
    possibly at [phi[0]], [psi[n-1]] and [omega[n-1]] give the same result,
    the chain or the exception: the builder reads [phi] from index 1 on and
    [psi], [omega] up to index [n-2] only. *)
Theorem C7_boundary_angles_not_read
    (tp ts to : bool) (l_n_ca l_ca_c l_c_n a_n_ca a_ca_c a_c_n : bond_value)
    (ic : list (list R)) (n : nat)
    (phis phis' psis psis' omegas omegas' : list R) :
  length phis = n -> length phis' = n ->
  length psis = n -> length psis' = n ->
  length omegas = n -> length omegas' = n ->
  (forall i, i <> 0%nat -> nth_error phis i = nth_error phis' i) ->
  (forall i, i <> (n - 1)%nat -> nth_error psis i = nth_error psis' i) ->
  (forall i, i <> (n - 1)%nat -> nth_error omegas i = nth_error omegas' i) ->
  build_cartesian_coords
    {| is_tensor := tp; values := Arr1 phis |}
    {| is_tensor := ts; values := Arr1 psis |}
    {| is_tensor := to; values := Arr1 omegas |}
    l_n_ca l_ca_c l_c_n a_n_ca a_ca_c a_c_n ic
  = build_cartesian_coords
      {| is_tensor := tp; values := Arr1 phis' |}
      {| is_tensor := ts; values := Arr1 psis' |}
      {| is_tensor := to; values := Arr1 omegas' |}
      l_n_ca l_ca_c l_c_n a_n_ca a_ca_c a_c_n ic.
Proof.
  intros Lp Lp' Ls Ls' Lo Lo' Hp Hs Ho.
  apply build_cartesian_coords_congr; cbn [values].
  - destruct (squeeze_slices phis) as [(L1 & -> & _) | (L1 & -> & _)];
      destruct (squeeze_slices phis') as [(L2 & -> & _) | (L2 & -> & _)];
      try reflexivity; try lia.
    f_equal. apply tl_agree. exact Hp.
  - destruct (squeeze_slices psis) as [(L1 & _ & ->) | (L1 & _ & ->)];
      destruct (squeeze_slices psis') as [(L2 & _ & ->) | (L2 & _ & ->)];
      try reflexivity; try lia.
    f_equal. apply (removelast_agree _ _ n); assumption.
  - destruct (squeeze_slices omegas) as [(L1 & _ & ->) | (L1 & _ & ->)];
      destruct (squeeze_slices omegas') as [(L2 & _ & ->) | (L2 & _ & ->)];
      try reflexivity; try lia.
    f_equal. apply (removelast_agree _ _ n); assumption.
Qed.

(** Three residues, with other numbers in the three boundary slots. *)
Lemma C7_boundary_angles_witness :
  build_cartesian_coords
    (np_array [0; -1; 1]) (np_array [2; 1; 0]) (np_array [3; 3; 0])
    (Scalar N_CA_LENGTH) (Scalar CA_C_LENGTH) (Scalar C_N_LENGTH)
    (Scalar default_bond_angle_n_ca) (Scalar default_bond_angle_ca_c)
    (Scalar default_bond_angle_c_n) [N_INIT; CA_INIT; C_INIT]
  = build_cartesian_coords
      (np_array [100; -1; 1]) (np_array [2; 1; 200]) (np_array [3; 3; 300])
      (Scalar N_CA_LENGTH) (Scalar CA_C_LENGTH) (Scalar C_N_LENGTH)
      (Scalar default_bond_angle_n_ca) (Scalar default_bond_angle_ca_c)
      (Scalar default_bond_angle_c_n) [N_INIT; CA_INIT; C_INIT].
Proof.
  apply (C7_boundary_angles_not_read false false false
           (Scalar N_CA_LENGTH) (Scalar CA_C_LENGTH) (Scalar C_N_LENGTH)
           (Scalar default_bond_angle_n_ca) (Scalar default_bond_angle_ca_c)
           (Scalar default_bond_angle_c_n) [N_INIT; CA_INIT; C_INIT] 3%nat
           [0; -1; 1] [100; -1; 1] [2; 1; 0] [2; 1; 200] [3; 3; 0] [3; 3; 300]);
    try reflexivity;
    intros [ | [ | [ | i]]] Hi; try reflexivity; simpl in Hi; lia.
Defined.

(** ** C8 *)

Lemma nan_to_num_finite (x : xfloat) : exists r, nan_to_num x = Fin r.
Proof. destruct x; simpl; eauto. Qed.

Lemma residue_row_Ok (distances angles : list string) (use_radians : bool)
                     (values out : list (list xfloat)) (ric : IC_Residue) :
  residue_row distances angles use_radians values ric = Ok out ->
  map (map nan_to_num) out
  = map (map nan_to_num) values ++ [table_row distances angles use_radians ric].
Proof.
  unfold residue_row, table_row. intros Hrow.
  apply bind_Ok_inv in Hrow. destruct Hrow as (this_angles & Hang & Hout).
  injection Hout as <-.
  rewrite map_app. cbn [map]. rewrite map_app, !map_map. do 3 f_equal.
  destruct use_radians.
  - apply bind_Ok_inv in Hang. destruct Hang as (_ & _ & Hang).
    injection Hang as <-. rewrite !map_map. reflexivity.
  - apply bind_Ok_inv in Hang. destruct Hang as (_ & _ & Hang).
    injection Hang as <-. rewrite map_map. reflexivity.
Qed.

Lemma for_each_residue_row (distances angles : list string) (use_radians : bool)
                           (rics : list IC_Residue) (values out : list (list xfloat)) :
  for_each (residue_row distances angles use_radians) rics values = Ok out ->
  map (map nan_to_num) out
  = map (map nan_to_num) values ++ map (table_row distances angles use_radians) rics.
Proof.
  revert values. induction rics as [ | ric rest IH]; intros values Hrun.
  - simpl in Hrun. injection Hrun as <-. rewrite app_nil_r. reflexivity.
  - cbn [for_each] in Hrun. apply bind_Ok_inv in Hrun.
    destruct Hrun as (mid & Hrow & Hrest).
    rewrite (IH mid Hrest), (residue_row_Ok _ _ _ _ _ _ Hrow), <- app_assoc.
    reflexivity.
Qed.

Lemma pop_singleton_or_empty {A : Type} (l : list A) (x : A) :
  (1 <? length l)%nat = false -> pop l = Ok x -> l = [x].
Proof.
  destruct l as [ | y [ | z rest]]; simpl; intros Hlen Hpop.
  - discriminate.
  - injection Hpop as <-. reflexivity.
  - discriminate.
Qed.

(** What a returned table holds. *)
Lemma canonical_table (s : Structure) (distances angles : list string)
                      (use_radians : bool) (df : DataFrame) :
  canonical_distances_and_dihedrals s distances angles use_radians = Ok (Some df) ->
  exists chain,
    get_chains s = [chain] /\
    columns df = distances ++ angles /\
    data df = map (table_row distances angles use_radians) (ordered_aa_ic_list chain).
Proof.
  unfold canonical_distances_and_dihedrals. intros Hrun.
  destruct (1 <? length (get_chains s))%nat eqn:Hlen; [ discriminate | ].
  apply bind_Ok_inv in Hrun. destruct Hrun as (chain & Hpop & Hrun).
  destruct (structure_rebuild_test_pass chain); cbn [negb] in Hrun; [ | discriminate ].
  apply bind_Ok_inv in Hrun. destruct Hrun as (values & Hloop & Hrun).
  apply bind_Ok_inv in Hrun. destruct Hrun as (_ & _ & Hrun).
  injection Hrun as <-. exists chain. cbn [columns data].
  split; [ | split; [ reflexivity | ] ].
  - apply pop_singleton_or_empty; assumption.
  - rewrite (for_each_residue_row _ _ _ _ _ _ Hloop). reflexivity.
Qed.

Lemma degrees_in_range (d : R) :
  -180 <= d <= 180 ->
  xge (deg_to_rad (Fin d)) (- PI) = true /\ xle (deg_to_rad (Fin d)) PI = true.
Proof.
  intros Hd. pose proof PI_RGT_0 as Hpi. cbn [deg_to_rad xge xle].
  split.
  - destruct (Rle_dec (- PI) (d / 180 * PI)) as [ | Hn]; [ reflexivity | ].
    exfalso. apply Hn. nra.
  - destruct (Rle_dec (d / 180 * PI) PI) as [ | Hn]; [ reflexivity | ].
    exfalso. apply Hn. nra.
Qed.

(** The table of the one-residue structure, with the default columns. *)
Lemma one_residue_table :
  canonical_distances_and_dihedrals one_residue_structure
    default_distances default_angles true
  = Ok (Some {| columns := default_distances ++ default_angles;
                data := [[Fin (133 / 100); Fin 0; Fin (90 / 180 * PI);
                          Fin (90 / 180 * PI); Fin (90 / 180 * PI)]] |}).
Proof.
  destruct (degrees_in_range 90 ltac:(lra)) as [Hge Hle].
  cbn [deg_to_rad] in Hge, Hle.
  unfold canonical_distances_and_dihedrals, one_residue_structure, residue_row.
  cbn -[xge xle PI Rdiv]. rewrite Hge, Hle. reflexivity.
Qed.

(** C8 (as amended).  When [canonical_distances_and_dihedrals] returns a
    table, the structure has one chain and the table has one row per entry
    of that chain's [ordered_aa_ic_list]: the requested distances, then the
    requested angles, which are the collaborator's degrees times [pi/180]
    when [use_radians] is set (the default) and the degrees themselves
    otherwise.  Every entry is a finite number: a value the collaborator
    leaves undefined becomes not-a-number and is then replaced by [0], so the
    table holds no not-a-number. *)
Theorem C8_table_in_radians_without_nan
    (s : Structure) (distances angles : list string) (use_radians : bool)
    (df : DataFrame) :
  canonical_distances_and_dihedrals s distances angles use_radians = Ok (Some df) ->
  exists chain,
    get_chains s = [chain] /\
    columns df = distances ++ angles /\
    data df = map (fun ric =>
                     map (fun d => nan_to_num (to_float64 (get_length ric d))) distances
                     ++ map (fun a => nan_to_num
                                        ((if use_radians then deg_to_rad else fun x => x)
                                           (to_float64 (get_angle ric a)))) angles)
                  (ordered_aa_ic_list chain) /\
    (forall row x, In row (data df) -> In x row -> exists r, x = Fin r) /\
    (forall ric a, get_angle ric a = None ->
                   nan_to_num ((if use_radians then deg_to_rad else fun x => x)
                                 (to_float64 (get_angle ric a))) = Fin 0).
Proof.
  intros Hrun.
  destruct (canonical_table s distances angles use_radians df Hrun)
    as (chain & Hchain & Hcols & Hdata).
  exists chain. repeat split; try assumption.
  - intros row x Hrow Hx. rewrite Hdata in Hrow.
    apply in_map_iff in Hrow. destruct Hrow as (ric & <- & _).
    unfold table_row in Hx. apply in_app_or in Hx.
    destruct Hx as [Hx | Hx]; apply in_map_iff in Hx;
      destruct Hx as (k & <- & _); apply nan_to_num_finite.
  - intros ric a ->. destruct use_radians; reflexivity.
Qed.

(** The one-residue structure: its table has the row of [first_residue]. *)
Lemma C8_table_witness :
  exists df chain,
    canonical_distances_and_dihedrals one_residue_structure
      default_distances default_angles true = Ok (Some df) /\
    get_chains one_residue_structure = [chain] /\
    forall row x, In row (data df) -> In x row -> exists r, x = Fin r.
Proof.
  eexists.
  destruct (C8_table_in_radians_without_nan one_residue_structure
              default_distances default_angles true _ one_residue_table)
    as (chain & Hchain & _ & _ & Hfin & _).
  exists chain. split; [ exact one_residue_table | ].
  split; [ exact Hchain | exact Hfin ].
Defined.

(** The first residue has no [phi]; its table entry is [0], not
    not-a-number. *)
Lemma C8_undefined_phi_is_zero :
  exists df row,
    canonical_distances_and_dihedrals one_residue_structure
      default_distances default_angles true = Ok (Some df) /\
    get_angle first_residue "phi" = None /\
    nth_error (columns df) 1 = Some "phi"%string /\
    nth_error (data df) 0 = Some row /\
    nth_error row 1 = Some (Fin 0) /\
    Fin 0 <> NaN.
Proof.
  eexists. eexists.
  split; [ exact one_residue_table | ].
  repeat split. discriminate.
Qed.

(** ** C9 *)

Lemma fold_left_vadd_acc (xs : list vec3) (acc : vec3) :
  fold_left vadd xs acc = vadd acc (fold_left vadd xs vzero).
Proof.
  revert acc. induction xs as [ | x rest IH]; intros acc; simpl.
  - apply vec3_eq; simpl; ring.
  - rewrite (IH (vadd acc x)), (IH (vadd vzero x)).
    apply vec3_eq; simpl; ring.
Qed.

Lemma sum_of_shifted (xs : list vec3) (mu : vec3) :
  fold_left vadd (map (fun x => vsub x mu) xs) vzero
  = V3 (vx (fold_left vadd xs vzero) - INR (length xs) * vx mu)
       (vy (fold_left vadd xs vzero) - INR (length xs) * vy mu)
       (vz (fold_left vadd xs vzero) - INR (length xs) * vz mu).
Proof.
  induction xs as [ | x rest IH].
  - apply vec3_eq; simpl; ring.
  - cbn [map fold_left length].
    rewrite (fold_left_vadd_acc (map _ rest)), (fold_left_vadd_acc rest), IH.
    rewrite S_INR. apply vec3_eq; simpl; ring.
Qed.

Lemma mean_of_centered (coords : list vec3) :
  coords <> [] ->
  mean_axis0 (map (fun x => vsub x (mean_axis0 coords)) coords) = vzero.
Proof.
  intros Hne.
  assert (Hn : INR (length coords) <> 0).
  { apply not_0_INR. destruct coords; [ contradiction | discriminate ]. }
  unfold mean_axis0 at 1. rewrite length_map, sum_of_shifted.
  apply vec3_eq; unfold mean_axis0, vdiv, vzero; simpl; field; exact Hn.
Qed.

(** The mean the code takes is the centroid. *)
Lemma fold_left_vadd_components (xs : list vec3) (acc : vec3) :
  fold_left vadd xs acc
  = V3 (vx acc + fold_right Rplus 0 (map vx xs))
       (vy acc + fold_right Rplus 0 (map vy xs))
       (vz acc + fold_right Rplus 0 (map vz xs)).
Proof.
  revert acc. induction xs as [ | x rest IH]; intros acc.
  - apply vec3_eq; simpl; ring.
  - cbn [fold_left map fold_right]. rewrite IH.
    apply vec3_eq; simpl; ring.
Qed.

Lemma mean_axis0_centroid (coords : list vec3) : mean_axis0 coords = centroid coords.
Proof.
  unfold mean_axis0, centroid. rewrite fold_left_vadd_components.
  unfold vdiv, vzero. cbn [vx vy vz]. rewrite !Rplus_0_l. reflexivity.
Qed.

Lemma all_numbers_map_Some (coords : list vec3) : all_numbers (map Some coords) = Some coords.
Proof.
  induction coords as [ | x rest IH]; [ reflexivity | ].
  cbn [map all_numbers]. rewrite IH. reflexivity.
Qed.

Lemma all_numbers_None (chain : list fvec) (k : nat) :
  nth_error chain k = Some None -> all_numbers chain = None.
Proof.
  revert k. induction chain as [ | [x | ] rest IH]; intros k Hk.
  - destruct k; discriminate.
  - destruct k as [ | k]; [ discriminate | ].
    cbn [all_numbers]. rewrite (IH k Hk). reflexivity.
  - reflexivity.
Qed.

Lemma mean_axis0_nan_numbers (coords : list vec3) :
  coords <> [] -> mean_axis0_nan (map Some coords) = Some (centroid coords).
Proof.
  intros Hne. unfold mean_axis0_nan. rewrite all_numbers_map_Some.
  destruct coords as [ | x rest]; [ contradiction | ].
  rewrite mean_axis0_centroid. reflexivity.
Qed.

Lemma centered_of_numbers (self : NERFBuilder) (coords : list vec3) :
  coords <> [] ->
  cartesian_coords_nan self = Ok (map Some coords) ->
  centered_cartesian_coords_nan self
  = Ok (map Some (map (fun x => vsub x (centroid coords)) coords)).
Proof.
  intros Hne Hrun. unfold centered_cartesian_coords_nan. rewrite Hrun. cbn [bind].
  rewrite mean_axis0_nan_numbers by exact Hne.
  rewrite !map_map. reflexivity.
Qed.

Lemma centered_of_nan (self : NERFBuilder) (chain : list fvec) (k : nat) :
  cartesian_coords_nan self = Ok chain ->
  nth_error chain k = Some None ->
  centered_cartesian_coords_nan self = Ok (map (fun _ => None) chain).
Proof.
  intros Hrun Hk. unfold centered_cartesian_coords_nan. rewrite Hrun. cbn [bind].
  unfold mean_axis0_nan. rewrite (all_numbers_None chain k Hk).
  f_equal. apply map_ext. intros [x | ]; reflexivity.
Qed.

Lemma centroid_of_centered (coords : list vec3) :
  coords <> [] ->
  centroid (map (fun x => vsub x (centroid coords)) coords) = vzero.
Proof.
  intros Hne. rewrite <- !mean_axis0_centroid. apply mean_of_centered. exact Hne.
Qed.

(** C9 (as amended).  When every atom of the chain is a number,
    [centered_cartesian_coords] is the chain with its centroid subtracted
    from every atom, and the centroid of the result is the zero vector
    (exactly, over the reals); the chain has at least the three seed atoms.
    When an atom of the chain is not-a-number, every atom of
    [centered_cartesian_coords] is not-a-number. *)
Theorem C9_centered_mean_is_zero
    (p s o : array) (l_n_ca l_ca_c l_c_n a_n_ca a_ca_c a_c_n : bond_value)
    (ic : list (list R)) (self : NERFBuilder) (chain : list fvec) :
  NERFBuilder_init p s o l_n_ca l_ca_c l_c_n a_n_ca a_ca_c a_c_n ic = Ok self ->
  cartesian_coords_nan self = Ok chain ->
  (forall coords,
      chain = map Some coords ->
      (3 <= length coords)%nat /\
      centered_cartesian_coords_nan self
      = Ok (map Some (map (fun x => vsub x (centroid coords)) coords)) /\
      centroid (map (fun x => vsub x (centroid coords)) coords) = vzero)
  /\
  ((exists k, nth_error chain k = Some None) ->
   centered_cartesian_coords_nan self = Ok (map (fun _ => None) chain)).
Proof.
  intros Hinit Hrun.
  apply NERFBuilder_init_constructed in Hinit.
  destruct (cartesian_coords_nan_spec self chain Hinit Hrun) as ((m & Hlen) & _).
  split.
  - intros coords ->. rewrite length_map in Hlen.
    assert (Hne : coords <> []) by (intros ->; discriminate).
    split; [ lia | ]. split.
    + apply centered_of_numbers; assumption.
    + apply centroid_of_centered. exact Hne.
  - intros (k & Hk). eapply centered_of_nan; eassumption.
Qed.

(** The default builder on two residues: six atoms, all of them numbers,
    centred. *)
Lemma C9_centered_mean_witness :
  exists self coords,
    NERFBuilder_default (np_array [0; -1]) (np_array [2; 0]) (np_array [3; 0]) = Ok self /\
    cartesian_coords_nan self = Ok (map Some coords) /\
    length coords = 6%nat /\
    centered_cartesian_coords_nan self
    = Ok (map Some (map (fun x => vsub x (centroid coords)) coords)) /\
    centroid (map (fun x => vsub x (centroid coords)) coords) = vzero.
Proof.
  destruct default_chain_numbers as (self & coords & Hinit & _ & Hnan & Hlen).
  exists self, coords.
  split; [ exact Hinit | ].
  split; [ exact Hnan | ].
  split; [ exact Hlen | ].
  apply (proj1 (C9_centered_mean_is_zero
           (np_array [0; -1]) (np_array [2; 0]) (np_array [3; 0])
           (Scalar N_CA_LENGTH) (Scalar CA_C_LENGTH) (Scalar C_N_LENGTH)
           (Scalar default_bond_angle_n_ca) (Scalar default_bond_angle_ca_c)
           (Scalar default_bond_angle_c_n) [N_INIT; CA_INIT; C_INIT]
           self (map Some coords) Hinit Hnan) coords eq_refl).
Defined.

(** From collinear seed atoms the chain holds not-a-number, every centred
    atom is not-a-number and so is their mean: it is not the zero vector. *)
Lemma C9_collinear_seeds_not_a_number :
  exists self centered,
    NERFBuilder_init (np_array [0; -1]) (np_array [2; 0]) (np_array [3; 0])
      (Scalar N_CA_LENGTH) (Scalar CA_C_LENGTH) (Scalar C_N_LENGTH)
      (Scalar default_bond_angle_n_ca) (Scalar default_bond_angle_ca_c)
      (Scalar default_bond_angle_c_n) [[0; 0; 0]; [1; 0; 0]; [2; 0; 0]] = Ok self /\
    centered_cartesian_coords_nan self = Ok centered /\
    centered = [None; None; None; None; None; None] /\
    mean_axis0_nan centered = None /\
    mean_axis0_nan centered <> Some vzero.
Proof.
  destruct collinear_seeds_chain as (self & Hinit & Hrun).
  exists self, [None; None; None; None; None; None].
  split; [ exact Hinit | ].
  split.
  - rewrite (centered_of_nan self _ 3 Hrun eq_refl). reflexivity.
  - split; [ reflexivity | ]. split; [ reflexivity | discriminate ].
Qed.

(** ** C10 *)

Lemma unique_all_equal (v : Z) (t : list Z) :
  t <> [] -> Forall (eq v) t -> unique t = [v].
Proof.
  intros Hne Hall. induction Hall as [ | w rest <- Hrest IH]; [ contradiction | ].
  cbn [unique fold_right]. fold (unique rest).
  destruct rest as [ | w' rest'].
  - reflexivity.
  - rewrite IH by discriminate. cbn [insert_unique].
    rewrite Z.ltb_irrefl, Z.eqb_refl. reflexivity.
Qed.

Section SamplingFacts.
Context {tensor generator : Type} `{Torch tensor generator}.
Variable compute_alphas : list R -> alpha_beta_terms.
Variable model : tensor -> list Z -> list (list R) -> tensor.

(** More than one distinct value in [t], or none, fails the assertion. *)
Lemma p_sample_assertion (x : tensor) (t seq_lens : list Z) (t_index : Z)
                         (betas : list R) (g : generator) :
  length (unique t) <> 1%nat ->
  p_sample compute_alphas model x t seq_lens t_index betas g = Raise AssertionError.
Proof.
  unfold p_sample. intros Hlen.
  destruct (unique t) as [ | v [ | w rest]]; try reflexivity.
  exfalso. apply Hlen. reflexivity.
Qed.

(** C10.  The result of [p_sample], the sample with the state of the random
    source after it, or the exception, does not depend on the [t_index]
    argument: the name is bound again to the one value of [t] before it is
    read. *)
Theorem C10_t_index_argument_ignored
    (x : tensor) (t seq_lens : list Z) (betas : list R) (g : generator)
    (t_index t_index' : Z) :
  p_sample compute_alphas model x t seq_lens t_index betas g
  = p_sample compute_alphas model x t seq_lens t_index' betas g.
Proof. unfold p_sample. reflexivity. Qed.
End SamplingFacts.

(** A run of the step on nested lists: a batch of two sequences at time 1,
    called with [t_index = 7]; the step indexes the schedule at 1. *)
Example p_sample_runs :
  let terms := fun betas : list R =>
    {| alphas := map (fun b => 1 - b) betas;
       sqrt_one_minus_alphas_cumprod := map sqrt betas;
       posterior_variance := betas |} in
  exists out,
    p_sample terms (fun x _ _ => x) [[[1]]; [[2]]] [1%Z; 1%Z] [1%Z; 1%Z] 7%Z
             [1 / 10; 2 / 10] 0%nat
    = Ok (out, 1%nat).
Proof. eexists. reflexivity. Qed.

(** * Further properties *)

From Stdlib Require Import RNsatz.

(** ** [place_dihedral]: the bond angle and the torsion *)

Lemma vsub_as_scaled_unit (v : vec3) :
  v <> vzero ->
  vx v = norm v * vx (unit_vec v) /\
  vy v = norm v * vy (unit_vec v) /\
  vz v = norm v * vz (unit_vec v).
Proof.
  intros Hv. pose proof (norm_nonzero v Hv) as Hn.
  unfold unit_vec, vdiv. simpl. repeat split; field; exact Hn.
Qed.

Lemma dot_scaled_l (v w : vec3) :
  v <> vzero -> dot v w = norm v * dot (unit_vec v) w.
Proof.
  intros Hv. rewrite dot_unit_vec_l. field. apply norm_nonzero. exact Hv.
Qed.

Lemma norm_pos (v : vec3) : v <> vzero -> 0 < norm v.
Proof.
  intros Hv. pose proof (norm_nonneg v). pose proof (norm_nonzero v Hv). lra.
Qed.

Lemma place_dihedral_axis_component (a b c : vec3) (theta L tau : R) (mode : bool) :
  ~ collinear a b c ->
  dot (unit_vec (vsub c b)) (vsub (place_dihedral a b c theta L tau mode) c)
  = - L * cos theta.
Proof.
  intros Hnc. destruct (frame_of_noncollinear a b c Hnc) as (Hcb & Hu & Hn & Hnu).
  rewrite place_dihedral_frame, vsub_vadd.
  apply frame_dot_axis; assumption.
Qed.

Lemma place_dihedral_angle_at_c
    (a b c : vec3) (bond_angle bond_length torsion_angle : R) (mode : bool) :
  ~ collinear a b c ->
  let d := place_dihedral a b c bond_angle bond_length torsion_angle mode in
  dot (vsub b c) (vsub d c) = norm (vsub b c) * bond_length * cos bond_angle /\
  (0 < bond_length -> 0 <= bond_angle <= PI ->
   angle_between (vsub b c) (vsub d c) = bond_angle).
Proof.
  intros Hnc d.
  destruct (frame_of_noncollinear a b c Hnc) as (Hcb & _).
  pose proof (place_dihedral_axis_component a b c bond_angle bond_length
                torsion_angle mode Hnc) as Hax.
  fold d in Hax.
  assert (Hdot : dot (vsub b c) (vsub d c)
                 = norm (vsub b c) * bond_length * cos bond_angle).
  { rewrite (norm_vsub_sym b c).
    replace (dot (vsub b c) (vsub d c)) with (- dot (vsub c b) (vsub d c))
      by (unfold dot, vsub; simpl; ring).
    rewrite (dot_scaled_l _ _ Hcb), Hax. ring. }
  split; [ exact Hdot | ].
  intros HL Hth. unfold angle_between. rewrite Hdot.
  assert (Hd : norm (vsub d c) = bond_length).
  { rewrite norm_vsub_sym. unfold d.
    rewrite place_dihedral_distance by exact Hnc. apply Rabs_right. lra. }
  rewrite Hd.
  replace (norm (vsub b c) * bond_length * cos bond_angle
           / (norm (vsub b c) * bond_length)) with (cos bond_angle).
  - apply acos_cos. exact Hth.
  - field. split; [ lra | ].
    rewrite norm_vsub_sym. apply norm_nonzero. exact Hcb.
Qed.

(** The bond angle.  For non-collinear [a], [b], [c] the placed point [d]
    satisfies [(b - c) . (d - c) = |b - c| L cos(bond_angle)]; with a positive
    bond length and a bond angle in [[0, pi]], the angle at [c] between
    [b - c] and [d - c] is the bond angle itself. *)
Theorem place_dihedral_bond_angle
    (a b c : vec3) (bond_angle bond_length torsion_angle : R) (mode : bool) :
  ~ collinear a b c ->
  let d := place_dihedral a b c bond_angle bond_length torsion_angle mode in
  dot (vsub b c) (vsub d c) = norm (vsub b c) * bond_length * cos bond_angle /\
  (0 < bond_length -> 0 <= bond_angle <= PI ->
   angle_between (vsub b c) (vsub d c) = bond_angle).
Proof.
  exact (place_dihedral_angle_at_c a b c bond_angle bond_length torsion_angle mode).
Qed.

Lemma place_dihedral_bond_angle_witness :
  angle_between (vsub (V3 0 0 0) (V3 0 1 0))
    (vsub (place_dihedral (V3 1 0 0) (V3 0 0 0) (V3 0 1 0) (PI / 2) 1 0 false) (V3 0 1 0))
  = PI / 2.
Proof.
  apply (place_dihedral_bond_angle (V3 1 0 0) (V3 0 0 0) (V3 0 1 0) (PI / 2) 1 0 false).
  - unfold collinear, cross, vsub, vzero. simpl. intros H. injection H as Hz. lra.
  - lra.
  - pose proof PI_RGT_0. lra.
Defined.

(** The two normals of the dihedral, in the frame. *)
Lemma frame_dihedral (u n : vec3) (s k x y z : R) :
  dot u u = 1 -> dot n n = 1 -> dot n u = 0 ->
  let b2 := V3 (s * vx u) (s * vy u) (s * vz u) in
  let n1 := V3 (k * vx n) (k * vy n) (k * vz n) in
  let n2 := cross b2 (frame_combination u n x y z) in
  dot n1 n2 = k * s * y /\
  dot (cross n1 n2) b2 = k * (s * s) * z /\
  dot n2 n2 = (s * s) * (y * y + z * z).
Proof.
  intros Hu Hn Hnu b2 n1 n2.
  unfold n2, n1, b2, frame_combination, cross, dot in *. simpl in *.
  repeat split; nsatz.
Qed.

Lemma plane_normal_scaled (a b c : vec3) :
  ~ collinear a b c ->
  let n1 := cross (vsub b a) (vsub c b) in
  let n := unit_vec (cross (vsub b a) (unit_vec (vsub c b))) in
  vx n1 = norm n1 * vx n /\ vy n1 = norm n1 * vy n /\ vz n1 = norm n1 * vz n.
Proof.
  intros Hnc n1 n.
  destruct (frame_of_noncollinear a b c Hnc) as (Hcb & _).
  assert (Hs : 0 < norm (vsub c b)) by (apply norm_pos; exact Hcb).
  assert (Hw : cross (vsub b a) (unit_vec (vsub c b)) <> vzero).
  { rewrite cross_unit_vec_r. apply vdiv_nonzero; [ exact Hnc | lra ]. }
  assert (Hwn : 0 < norm (cross (vsub b a) (unit_vec (vsub c b))))
    by (apply norm_pos; exact Hw).
  assert (Hnorm : norm n1
                  = norm (vsub c b) * norm (cross (vsub b a) (unit_vec (vsub c b)))).
  { apply Rsqr_inj.
    - apply norm_nonneg.
    - apply Rmult_le_pos; lra.
    - unfold Rsqr.
      replace (norm (vsub c b) * norm (cross (vsub b a) (unit_vec (vsub c b)))
               * (norm (vsub c b) * norm (cross (vsub b a) (unit_vec (vsub c b)))))
        with ((norm (vsub c b) * norm (vsub c b))
              * (norm (cross (vsub b a) (unit_vec (vsub c b)))
                 * norm (cross (vsub b a) (unit_vec (vsub c b))))) by ring.
      rewrite !norm_sqr, cross_unit_vec_r. fold n1.
      rewrite <- (norm_sqr (vsub c b)).
      unfold dot, vdiv. simpl. field. lra. }
  destruct (vsub_as_scaled_unit _ Hw) as (Wx & Wy & Wz). fold n in Wx, Wy, Wz.
  rewrite Hnorm.
  assert (Hc : n1 = V3 (norm (vsub c b) * vx (cross (vsub b a) (unit_vec (vsub c b))))
                       (norm (vsub c b) * vy (cross (vsub b a) (unit_vec (vsub c b))))
                       (norm (vsub c b) * vz (cross (vsub b a) (unit_vec (vsub c b))))).
  { unfold n1. rewrite cross_unit_vec_r. apply vec3_eq; simpl; field; lra. }
  rewrite Hc. cbn [vx vy vz]. rewrite Wx at 1. rewrite Wy at 1. rewrite Wz at 1.
  repeat split; ring.
Qed.

Lemma place_dihedral_dihedral
    (a b c : vec3) (bond_angle bond_length torsion_angle : R) (mode : bool) :
  ~ collinear a b c ->
  0 < bond_length * sin bond_angle ->
  let d := place_dihedral a b c bond_angle bond_length torsion_angle mode in
  let n1 := cross (vsub b a) (vsub c b) in
  let n2 := cross (vsub c b) (vsub d c) in
  dot n1 n2 = norm n1 * norm n2 * cos torsion_angle /\
  dot (cross n1 n2) (vsub c b) = norm n1 * norm n2 * norm (vsub c b) * sin torsion_angle.
Proof.
  intros Hnc Hpos d n1 n2.
  destruct (frame_of_noncollinear a b c Hnc) as (Hcb & Hu & Hn & Hnu).
  destruct (vsub_as_scaled_unit _ Hcb) as (Bx & By & Bz).
  destruct (plane_normal_scaled a b c Hnc) as (Nx & Ny & Nz). fold n1 in Nx, Ny, Nz.
  set (u := unit_vec (vsub c b)) in *.
  set (n := unit_vec (cross (vsub b a) u)) in *.
  set (s := norm (vsub c b)) in *.
  set (k := norm n1) in *.
  assert (Hd : vsub d c = frame_combination u n
                 (- bond_length * cos bond_angle)
                 (bond_length * cos torsion_angle * sin bond_angle)
                 (bond_length * sin torsion_angle * sin bond_angle)).
  { unfold d. rewrite place_dihedral_frame, vsub_vadd. reflexivity. }
  assert (Hb2 : vsub c b = V3 (s * vx u) (s * vy u) (s * vz u))
    by (apply vec3_eq; assumption).
  assert (Hn1 : n1 = V3 (k * vx n) (k * vy n) (k * vz n))
    by (apply vec3_eq; assumption).
  destruct (frame_dihedral u n s k
              (- bond_length * cos bond_angle)
              (bond_length * cos torsion_angle * sin bond_angle)
              (bond_length * sin torsion_angle * sin bond_angle) Hu Hn Hnu)
    as (D1 & D2 & D3).
  cbv zeta in D1, D2, D3. rewrite <- Hb2, <- Hd in D1, D2, D3.
  fold n2 in D1, D2, D3. rewrite <- Hn1 in D1, D2.
  assert (Hs : 0 < s) by (apply norm_pos; exact Hcb).
  assert (Hn2 : norm n2 = s * (bond_length * sin bond_angle)).
  { replace (s * (bond_length * sin bond_angle))
      with (Rabs (s * (bond_length * sin bond_angle)))
      by (apply Rabs_right; apply Rle_ge; apply Rmult_le_pos; lra).
    apply norm_of_dot. rewrite D3.
    pose proof (sin2_cos2 torsion_angle) as Ht. unfold Rsqr in Ht.
    transitivity (s * s * (bond_length * sin bond_angle * (bond_length * sin bond_angle))
                  * (sin torsion_angle * sin torsion_angle
                     + cos torsion_angle * cos torsion_angle)).
    - ring.
    - rewrite Ht. ring. }
  rewrite D1, D2, Hn2. split; ring.
Qed.

(** The torsion.  With [n1 = (b - a) x (c - b)] the normal of the plane of
    [a, b, c] and [n2 = (c - b) x (d - c)] the normal of the plane of
    [b, c, d], the placed point [d] gives
    [n1 . n2 = |n1| |n2| cos(torsion_angle)] and
    [(n1 x n2) . (c - b) = |n1| |n2| |c - b| sin(torsion_angle)]
    when [bond_length * sin(bond_angle) > 0]: the dihedral of [a, b, c, d]
    about the axis [b - c] is the torsion angle, sign included. *)
Theorem place_dihedral_torsion
    (a b c : vec3) (bond_angle bond_length torsion_angle : R) (mode : bool) :
  ~ collinear a b c ->
  0 < bond_length * sin bond_angle ->
  let d := place_dihedral a b c bond_angle bond_length torsion_angle mode in
  let n1 := cross (vsub b a) (vsub c b) in
  let n2 := cross (vsub c b) (vsub d c) in
  dot n1 n2 = norm n1 * norm n2 * cos torsion_angle /\
  dot (cross n1 n2) (vsub c b) = norm n1 * norm n2 * norm (vsub c b) * sin torsion_angle.
Proof.
  exact (place_dihedral_dihedral a b c bond_angle bond_length torsion_angle mode).
Qed.

Lemma place_dihedral_torsion_witness :
  let a := V3 1 0 0 in
  let b := V3 0 0 0 in
  let c := V3 0 1 0 in
  let d := place_dihedral a b c (PI / 2) 1 (PI / 3) true in
  dot (cross (vsub b a) (vsub c b)) (cross (vsub c b) (vsub d c))
  = norm (cross (vsub b a) (vsub c b)) * norm (cross (vsub c b) (vsub d c)) * cos (PI / 3).
Proof.
  apply (place_dihedral_torsion (V3 1 0 0) (V3 0 0 0) (V3 0 1 0) (PI / 2) 1 (PI / 3) true).
  - unfold collinear, cross, vsub, vzero. simpl. intros H. injection H as Hz. lra.
  - rewrite sin_PI2. lra.
Defined.

(** ** Translating the seed atoms *)

Lemma vsub_translate (u v t : vec3) : vsub (vadd u t) (vadd v t) = vsub u v.
Proof. apply vec3_eq; simpl; ring. Qed.

Lemma place_dihedral_translate (a b c t : vec3) (theta L tau : R) (mode : bool) :
  place_dihedral (vadd a t) (vadd b t) (vadd c t) theta L tau mode
  = vadd (place_dihedral a b c theta L tau mode) t.
Proof.
  rewrite !place_dihedral_frame, !vsub_translate.
  apply vec3_eq; simpl; ring.
Qed.

Lemma for_each_simulation {S X : Type} (f : S -> S) (body : S -> X -> result S)
                          (xs : list X) (s : S) :
  (forall s' x, body (f s') x = result_map f (body s' x)) ->
  for_each body xs (f s) = result_map f (for_each body xs s).
Proof.
  intros Hsim. revert s. induction xs as [ | x rest IH]; intros s; simpl.
  - reflexivity.
  - rewrite Hsim. destruct (body s x) as [s' | e]; simpl; [ apply IH | reflexivity ].
Qed.

Lemma neg_index_map {A B : Type} (f : A -> B) (l : list A) (k : nat) :
  neg_index (map f l) k = result_map f (neg_index l k).
Proof.
  unfold neg_index. rewrite length_map, nth_error_map.
  destruct (length l <? k)%nat; [ reflexivity | ].
  destruct (nth_error l (length l - k)); reflexivity.
Qed.

Lemma place_next_translate (self : NERFBuilder) (t : vec3) (i : nat)
                           (retval : list vec3) (bond_dih : bond * R) :
  place_next self i (translate t retval) bond_dih
  = result_map (translate t) (place_next self i retval bond_dih).
Proof.
  unfold place_next, translate. destruct bond_dih as [b dih].
  rewrite !neg_index_map.
  destruct (neg_index retval 3) as [a3 | ]; [ | reflexivity ].
  destruct (neg_index retval 2) as [a2 | ]; [ | reflexivity ].
  destruct (neg_index retval 1) as [a1 | ]; [ | reflexivity ].
  cbn [result_map bind].
  destruct (_get_bond_angle self b i) as [ang | ]; [ | reflexivity ].
  destruct (_get_bond_length self b i) as [len | ]; [ | reflexivity ].
  cbn [result_map bind].
  rewrite map_app. cbn [map]. rewrite place_dihedral_translate. reflexivity.
Qed.

Lemma cartesian_coords_translate (self self' : NERFBuilder) (t : vec3) :
  bond_lengths self' = bond_lengths self ->
  bond_angles self' = bond_angles self ->
  phi self' = phi self -> psi self' = psi self -> omega self' = omega self ->
  init_coords self' = translate t (init_coords self) ->
  cartesian_coords self' = result_map (translate t) (cartesian_coords self).
Proof.
  intros Hl Ha Hp Hs Ho Hi. unfold cartesian_coords.
  rewrite Hp, Hs, Ho, Hi.
  destruct (slice_from_1 (phi self)) as [phis | ]; [ | reflexivity ].
  destruct (slice_to_last (psi self)) as [psis | ]; [ | reflexivity ].
  destruct (slice_to_last (omega self)) as [omegas | ]; [ | reflexivity ].
  cbn [bind].
  rewrite (for_each_ext (place_residue self') (place_residue self)).
  - apply for_each_simulation.
    intros retval [i [[phi0 psi0] omega0]]. unfold place_residue.
    apply for_each_simulation. intros retval' bond_dih.
    apply place_next_translate.
  - intros retval [i [[phi0 psi0] omega0]]. unfold place_residue. rewrite Hl.
    apply for_each_ext. intros retval' bond_dih.
    apply place_next_congr; assumption.
Qed.

Lemma sum_of_translated (xs : list vec3) (t : vec3) :
  fold_left vadd (translate t xs) vzero
  = V3 (vx (fold_left vadd xs vzero) + INR (length xs) * vx t)
       (vy (fold_left vadd xs vzero) + INR (length xs) * vy t)
       (vz (fold_left vadd xs vzero) + INR (length xs) * vz t).
Proof.
  unfold translate. induction xs as [ | x rest IH].
  - apply vec3_eq; simpl; ring.
  - cbn [map fold_left length].
    rewrite (fold_left_vadd_acc (map _ rest)), (fold_left_vadd_acc rest), IH.
    rewrite S_INR. apply vec3_eq; simpl; ring.
Qed.

Lemma centered_translate (coords : list vec3) (t : vec3) :
  coords <> [] ->
  map (fun x => vsub x (mean_axis0 (translate t coords))) (translate t coords)
  = map (fun x => vsub x (mean_axis0 coords)) coords.
Proof.
  intros Hne.
  assert (Hn : INR (length coords) <> 0).
  { apply not_0_INR. destruct coords; [ contradiction | discriminate ]. }
  assert (Hmean : mean_axis0 (translate t coords) = vadd (mean_axis0 coords) t).
  { unfold mean_axis0. rewrite sum_of_translated. unfold translate.
    rewrite length_map. apply vec3_eq; simpl; field; exact Hn. }
  rewrite Hmean. unfold translate. rewrite map_map.
  apply map_ext. intros x. apply vsub_translate.
Qed.

(** Moving the three seed atoms by a vector [t] moves every atom of the
    chain by [t] (an exception stays the same exception), and leaves
    [centered_cartesian_coords] unchanged. *)
Theorem seed_translation
    (p s o : array) (l_n_ca l_ca_c l_c_n a_n_ca a_ca_c a_c_n : bond_value)
    (ic ic' : list (list R)) (self self' : NERFBuilder) (t : vec3) :
  NERFBuilder_init p s o l_n_ca l_ca_c l_c_n a_n_ca a_ca_c a_c_n ic = Ok self ->
  NERFBuilder_init p s o l_n_ca l_ca_c l_c_n a_n_ca a_ca_c a_c_n ic' = Ok self' ->
  init_coords self' = translate t (init_coords self) ->
  cartesian_coords self' = result_map (translate t) (cartesian_coords self) /\
  centered_cartesian_coords self' = centered_cartesian_coords self.
Proof.
  intros Hinit Hinit' Hseeds.
  pose proof (NERFBuilder_init_constructed _ _ _ _ _ _ _ _ _ _ _ Hinit) as Hc.
  destruct (NERFBuilder_init_fields _ _ _ _ _ _ _ _ _ _ _ Hinit)
    as (_ & Fp & Fs & Fo & Fl & Fa & _).
  destruct (NERFBuilder_init_fields _ _ _ _ _ _ _ _ _ _ _ Hinit')
    as (_ & Fp' & Fs' & Fo' & Fl' & Fa' & _).
  assert (Hrun : cartesian_coords self'
                 = result_map (translate t) (cartesian_coords self)).
  { apply cartesian_coords_translate; congruence. }
  split; [ exact Hrun | ].
  unfold centered_cartesian_coords. rewrite Hrun.
  destruct (cartesian_coords self) as [coords | e] eqn:Hcoords; [ | reflexivity ].
  cbn [result_map bind]. f_equal. apply centered_translate.
  destruct (cartesian_coords_arrays self coords Hcoords)
    as (phis & psis & omegas & Hp & Hs & Ho).
  destruct (cartesian_coords_spec self coords phis psis omegas Hc Hp Hs Ho Hcoords)
    as (Hlen & _).
  intros ->. discriminate.
Qed.

Lemma seed_translation_witness :
  exists self self',
    NERFBuilder_default (np_array [0; -1]) (np_array [2; 0]) (np_array [3; 0]) = Ok self /\
    NERFBuilder_init (np_array [0; -1]) (np_array [2; 0]) (np_array [3; 0])
      (Scalar N_CA_LENGTH) (Scalar CA_C_LENGTH) (Scalar C_N_LENGTH)
      (Scalar default_bond_angle_n_ca) (Scalar default_bond_angle_ca_c)
      (Scalar default_bond_angle_c_n)
      [[17047 / 1000 + 1; 14099 / 1000 + 2; 3625 / 1000 + 3];
       [16967 / 1000 + 1; 12784 / 1000 + 2; 4338 / 1000 + 3];
       [15685 / 1000 + 1; 12755 / 1000 + 2; 5133 / 1000 + 3]] = Ok self' /\
    centered_cartesian_coords self' = centered_cartesian_coords self.
Proof.
  eexists. eexists.
  split; [ reflexivity | ].
  split; [ reflexivity | ].
  apply (seed_translation
           (np_array [0; -1]) (np_array [2; 0]) (np_array [3; 0])
           (Scalar N_CA_LENGTH) (Scalar CA_C_LENGTH) (Scalar C_N_LENGTH)
           (Scalar default_bond_angle_n_ca) (Scalar default_bond_angle_ca_c)
           (Scalar default_bond_angle_c_n)
           [N_INIT; CA_INIT; C_INIT]
           [[17047 / 1000 + 1; 14099 / 1000 + 2; 3625 / 1000 + 3];
            [16967 / 1000 + 1; 12784 / 1000 + 2; 4338 / 1000 + 3];
            [15685 / 1000 + 1; 12755 / 1000 + 2; 5133 / 1000 + 3]]
           _ _ (V3 1 2 3) eq_refl eq_refl eq_refl).
Defined.

(** ** What an atom of the chain depends on *)

Lemma same_angle_refl (x : R) : same_angle x x.
Proof. split; reflexivity. Qed.

Lemma same_angle_period (x : R) (k : Z) : same_angle (x + 2 * IZR k * PI) x.
Proof.
  assert (Hnat : forall (y : R) (n : nat), same_angle (y + 2 * INR n * PI) y).
  { intros y n. split; [ apply cos_period | apply sin_period ]. }
  destruct (Z.le_gt_cases 0 k) as [Hk | Hk].
  - rewrite <- (Z2Nat.id k Hk), <- INR_IZR_INZ. apply Hnat.
  - destruct (Hnat (x + 2 * IZR k * PI) (Z.to_nat (- k))) as [Hc Hs].
    rewrite INR_IZR_INZ, Z2Nat.id, opp_IZR in Hc, Hs by lia.
    replace (x + 2 * IZR k * PI + 2 * - IZR k * PI) with x in Hc, Hs by ring.
    split; congruence.
Qed.

Lemma place_dihedral_same_angle (a b c : vec3) (theta theta' L tau tau' : R)
                                (mode mode' : bool) :
  same_angle theta theta' -> same_angle tau tau' ->
  place_dihedral a b c theta L tau mode = place_dihedral a b c theta' L tau' mode'.
Proof.
  intros [Hc Hs] [Hc' Hs']. rewrite !place_dihedral_frame.
  rewrite Hc, Hs, Hc', Hs'. reflexivity.
Qed.

Section TwoChains.
Variables self self' : NERFBuilder.
Variables coords coords' : list vec3.
Variables phis psis omegas phis' psis' omegas' : list R.
Hypothesis constructed_l : constructed self.
Hypothesis constructed_r : constructed self'.
Hypothesis same_lengths : bond_lengths self = bond_lengths self'.
Hypothesis same_angles : bond_angles self = bond_angles self'.
Hypothesis same_seeds : init_coords self = init_coords self'.
Hypothesis phi_l : phi self = Arr1 phis.
Hypothesis psi_l : psi self = Arr1 psis.
Hypothesis omega_l : omega self = Arr1 omegas.
Hypothesis phi_r : phi self' = Arr1 phis'.
Hypothesis psi_r : psi self' = Arr1 psis'.
Hypothesis omega_r : omega self' = Arr1 omegas'.
Hypothesis run_l : cartesian_coords self = Ok coords.
Hypothesis run_r : cartesian_coords self' = Ok coords'.

Lemma chains_agree_upto (k : nat) :
  (k <= residues_processed phis psis omegas)%nat ->
  (k <= residues_processed phis' psis' omegas')%nat ->
  (forall i, (i < k)%nat ->
             same_angle (nth (S i) phis 0) (nth (S i) phis' 0) /\
             same_angle (nth i psis 0) (nth i psis' 0) /\
             same_angle (nth i omegas 0) (nth i omegas' 0)) ->
  forall j, (j < 3 + 3 * k)%nat -> nth_error coords j = nth_error coords' j.
Proof.
  destruct (cartesian_coords_spec self coords phis psis omegas
              constructed_l phi_l psi_l omega_l run_l) as (_ & Hseed & Hplaced).
  destruct (cartesian_coords_spec self' coords' phis' psis' omegas'
              constructed_r phi_r psi_r omega_r run_r) as (_ & Hseed' & Hplaced').
  fold (residues_processed phis psis omegas) in Hplaced.
  fold (residues_processed phis' psis' omegas') in Hplaced'.
  induction k as [ | k IH]; intros Hk Hk' Htors j Hj.
  - assert (Hf : nth_error (firstn 3 coords) j = nth_error (firstn 3 coords') j)
      by (rewrite Hseed, Hseed', same_seeds; reflexivity).
    rewrite !nth_error_firstn in Hf.
    destruct (Nat.ltb_spec j 3); [ exact Hf | lia ].
  - assert (Hprev : forall j', (j' < 3 + 3 * k)%nat ->
                               nth_error coords j' = nth_error coords' j').
    { apply IH; [ lia | lia | ]. intros i Hi. apply Htors. lia. }
    destruct (Nat.lt_ge_cases j (3 + 3 * k)) as [Hlt | Hge]; [ apply Hprev; exact Hlt | ].
    destruct (Hplaced k ltac:(lia))
      as (q0 & q1 & q2 & a1 & l1 & a2 & l2 & a3 & l3 & Hpar & H0 & H1 & H2 & Hq).
    destruct (Hplaced' k ltac:(lia))
      as (r0 & r1 & r2 & b1 & m1 & b2 & m2 & b3 & m3 & Hpar' & G0 & G1 & G2 & Hr).
    cbv zeta in Hq, Hr.
    destruct Hq as (H3 & H4 & H5). destruct Hr as (G3 & G4 & G5).
    rewrite (Hprev (3 * k)%nat) in H0 by lia.
    rewrite (Hprev (3 * k + 1)%nat) in H1 by lia.
    rewrite (Hprev (3 * k + 2)%nat) in H2 by lia.
    assert (q0 = r0) by congruence. assert (q1 = r1) by congruence.
    assert (q2 = r2) by congruence. subst r0 r1 r2.
    destruct Hpar as (A1 & L1 & A2 & L2 & A3 & L3).
    destruct Hpar' as (B1 & M1 & B2 & M2 & B3 & M3).
    unfold _get_bond_angle, _get_bond_length in *.
    rewrite same_lengths in L1, L2, L3. rewrite same_angles in A1, A2, A3.
    assert (a1 = b1) by congruence. assert (a2 = b2) by congruence.
    assert (a3 = b3) by congruence. assert (l1 = m1) by congruence.
    assert (l2 = m2) by congruence. assert (l3 = m3) by congruence.
    subst b1 b2 b3 m1 m2 m3.
    destruct (Htors k ltac:(lia)) as (Tphi & Tpsi & Tomega).
    rewrite (place_dihedral_same_angle q0 q1 q2 a1 a1 l1 _ _
               (use_torch self) (use_torch self') (same_angle_refl a1) Tpsi) in H3, H4, H5.
    rewrite (place_dihedral_same_angle q1 q2 _ a2 a2 l2 _ _
               (use_torch self) (use_torch self') (same_angle_refl a2) Tomega) in H4, H5.
    rewrite (place_dihedral_same_angle q2 _ _ a3 a3 l3 _ _
               (use_torch self) (use_torch self') (same_angle_refl a3) Tphi) in H5.
    assert (Hcases : j = (3 * k + 3)%nat \/ j = (3 * k + 4)%nat \/ j = (3 * k + 5)%nat)
      by lia.
    destruct Hcases as [-> | [-> | ->]]; congruence.
Qed.
End TwoChains.

(** The atoms placed for the first [k] residue indices, with the seeds the
    first [3 + 3k] atoms of the chain, depend only on the tables, the seeds
    and the torsions [phi[1..k]], [psi[0..k-1]], [omega[0..k-1]], and on those
    only through their cosine and sine: two builders with the same tables and
    seeds whose torsions agree there, up to multiples of a full turn, build
    chains with the same first [3 + 3k] atoms. *)
Theorem chain_prefix_depends_on_first_torsions
    (p s o p' s' o' : array) (l_n_ca l_ca_c l_c_n a_n_ca a_ca_c a_c_n : bond_value)
    (ic : list (list R)) (self self' : NERFBuilder) (coords coords' : list vec3)
    (phis psis omegas phis' psis' omegas' : list R) (k : nat) :
  NERFBuilder_init p s o l_n_ca l_ca_c l_c_n a_n_ca a_ca_c a_c_n ic = Ok self ->
  NERFBuilder_init p' s' o' l_n_ca l_ca_c l_c_n a_n_ca a_ca_c a_c_n ic = Ok self' ->
  phi self = Arr1 phis -> psi self = Arr1 psis -> omega self = Arr1 omegas ->
  phi self' = Arr1 phis' -> psi self' = Arr1 psis' -> omega self' = Arr1 omegas' ->
  cartesian_coords self = Ok coords ->
  cartesian_coords self' = Ok coords' ->
  (k <= residues_processed phis psis omegas)%nat ->
  (k <= residues_processed phis' psis' omegas')%nat ->
  (forall i, (i < k)%nat ->
             same_angle (nth (S i) phis 0) (nth (S i) phis' 0) /\
             same_angle (nth i psis 0) (nth i psis' 0) /\
             same_angle (nth i omegas 0) (nth i omegas' 0)) ->
  firstn (3 + 3 * k) coords = firstn (3 + 3 * k) coords'.
Proof.
  intros Hinit Hinit' Hp Hs Ho Hp' Hs' Ho' Hrun Hrun' Hk Hk' Htors.
  pose proof (NERFBuilder_init_constructed _ _ _ _ _ _ _ _ _ _ _ Hinit) as Hc.
  pose proof (NERFBuilder_init_constructed _ _ _ _ _ _ _ _ _ _ _ Hinit') as Hc'.
  destruct (NERFBuilder_init_fields _ _ _ _ _ _ _ _ _ _ _ Hinit)
    as (_ & _ & _ & _ & Fl & Fa & Fi & _).
  destruct (NERFBuilder_init_fields _ _ _ _ _ _ _ _ _ _ _ Hinit')
    as (_ & _ & _ & _ & Fl' & Fa' & Fi' & _).
  apply nth_error_ext. intros j. rewrite !nth_error_firstn.
  destruct (Nat.ltb_spec j (3 + 3 * k)) as [Hj | Hj]; [ | reflexivity ].
  apply (chains_agree_upto self self' coords coords' phis psis omegas phis' psis' omegas')
    with (k := k); try assumption; congruence.
Qed.

(** Two residues against three, with the first torsions a full turn apart:
    the first six atoms are the same. *)
Lemma chain_prefix_witness :
  exists coords coords',
    build_cartesian_coords (np_array [0; 1]) (np_array [2; 0]) (np_array [3; 0])
      (Scalar N_CA_LENGTH) (Scalar CA_C_LENGTH) (Scalar C_N_LENGTH)
      (Scalar default_bond_angle_n_ca) (Scalar default_bond_angle_ca_c)
      (Scalar default_bond_angle_c_n) [N_INIT; CA_INIT; C_INIT] = Ok coords /\
    build_cartesian_coords
      (np_array [5; 1 + 2 * 1 * PI; 7]) (np_array [2 + 2 * (-1) * PI; 8; 0])
      (np_array [3; 9; 0])
      (Scalar N_CA_LENGTH) (Scalar CA_C_LENGTH) (Scalar C_N_LENGTH)
      (Scalar default_bond_angle_n_ca) (Scalar default_bond_angle_ca_c)
      (Scalar default_bond_angle_c_n) [N_INIT; CA_INIT; C_INIT] = Ok coords' /\
    firstn 6 coords = firstn 6 coords'.
Proof.
  eexists. eexists.
  split; [ reflexivity | ].
  split; [ reflexivity | ].
  apply (chain_prefix_depends_on_first_torsions
           (np_array [0; 1]) (np_array [2; 0]) (np_array [3; 0])
           (np_array [5; 1 + 2 * 1 * PI; 7]) (np_array [2 + 2 * (-1) * PI; 8; 0])
           (np_array [3; 9; 0])
           (Scalar N_CA_LENGTH) (Scalar CA_C_LENGTH) (Scalar C_N_LENGTH)
           (Scalar default_bond_angle_n_ca) (Scalar default_bond_angle_ca_c)
           (Scalar default_bond_angle_c_n) [N_INIT; CA_INIT; C_INIT]
           _ _ _ _ [0; 1] [2; 0] [3; 0]
           [5; 1 + 2 * 1 * PI; 7] [2 + 2 * (-1) * PI; 8; 0] [3; 9; 0] 1%nat
           eq_refl eq_refl eq_refl eq_refl eq_refl eq_refl eq_refl eq_refl eq_refl eq_refl).
  - unfold residues_processed. simpl. lia.
  - unfold residues_processed. simpl. lia.
  - intros i Hi. assert (i = 0%nat) as -> by lia. cbn [nth].
    repeat split;
      try apply same_angle_refl.
    + destruct (same_angle_period 1 1) as [Hc _]. symmetry. exact Hc.
    + destruct (same_angle_period 1 1) as [_ Hs]. symmetry. exact Hs.
    + destruct (same_angle_period 2 (-1)) as [Hc _]. symmetry. exact Hc.
    + destruct (same_angle_period 2 (-1)) as [_ Hs]. symmetry. exact Hs.
Defined.

(** ** When the chain is built *)

Lemma covers_dec (v : bond_value) (m : nat) : covers v m \/ ~ covers v m.
Proof.
  destruct v as [x | xs]; simpl; [ left; exact I | ].
  destruct (Nat.le_gt_cases m (length xs)); [ left; assumption | right; lia ].
Qed.

Lemma cartesian_coords_of_0d
    (p s o : array) (l_n_ca l_ca_c l_c_n a_n_ca a_ca_c a_c_n : bond_value)
    (ic : list (list R)) (self : NERFBuilder) (phis psis omegas : list R) :
  NERFBuilder_init p s o l_n_ca l_ca_c l_c_n a_n_ca a_ca_c a_c_n ic = Ok self ->
  values p = Arr1 phis -> values s = Arr1 psis -> values o = Arr1 omegas ->
  length phis = 1%nat \/ length psis = 1%nat \/ length omegas = 1%nat ->
  cartesian_coords self = Raise IndexError.
Proof.
  intros Hinit Vp Vs Vo Hone.
  destruct (NERFBuilder_init_fields _ _ _ _ _ _ _ _ _ _ _ Hinit)
    as (_ & Fp & Fs & Fo & _).
  unfold cartesian_coords. rewrite Fp, Fs, Fo, Vp, Vs, Vo.
  destruct (squeeze_slices phis) as [(L1 & -> & _) | (L1 & -> & _)]; [ reflexivity | ].
  destruct (squeeze_slices psis) as [(L2 & _ & ->) | (L2 & _ & ->)]; [ reflexivity | ].
  destruct (squeeze_slices omegas) as [(L3 & _ & ->) | (L3 & _ & ->)]; [ reflexivity | ].
  lia.
Qed.

Lemma cartesian_coords_outcome
    (p s o : array) (l_n_ca l_ca_c l_c_n a_n_ca a_ca_c a_c_n : bond_value)
    (ic : list (list R)) (self : NERFBuilder) (phis psis omegas : list R) :
  NERFBuilder_init p s o l_n_ca l_ca_c l_c_n a_n_ca a_ca_c a_c_n ic = Ok self ->
  values p = Arr1 phis -> values s = Arr1 psis -> values o = Arr1 omegas ->
  let m := residues_processed phis psis omegas in
  let well_shaped :=
    length phis <> 1%nat /\ length psis <> 1%nat /\ length omegas <> 1%nat /\
    covers l_n_ca m /\ covers l_ca_c m /\ covers l_c_n m /\
    covers a_n_ca m /\ covers a_ca_c m /\ covers a_c_n m in
  (well_shaped ->
   exists coords, cartesian_coords self = Ok coords /\
                  length coords = (3 + 3 * m)%nat /\
                  firstn 3 coords = init_coords self) /\
  (~ well_shaped -> cartesian_coords self = Raise IndexError).
Proof.
  intros Hinit Vp Vs Vo m well_shaped.
  pose proof (NERFBuilder_init_constructed _ _ _ _ _ _ _ _ _ _ _ Hinit) as Hc.
  destruct (NERFBuilder_init_fields _ _ _ _ _ _ _ _ _ _ _ Hinit)
    as (_ & Fp & Fs & Fo & _).
  rewrite Vp in Fp. rewrite Vs in Fs. rewrite Vo in Fo.
  split.
  - intros (L1 & L2 & L3 & C1 & C2 & C3 & C4 & C5 & C6).
    rewrite squeeze_not_one in Fp, Fs, Fo by assumption.
    destruct (cartesian_coords_covered p s o l_n_ca l_ca_c l_c_n a_n_ca a_ca_c a_c_n
                ic self phis psis omegas Hinit Fp Fs Fo C1 C2 C3 C4 C5 C6)
      as (coords & Hrun & Hlen).
    exists coords. split; [ exact Hrun | ]. split; [ exact Hlen | ].
    apply (cartesian_coords_spec self coords phis psis omegas Hc Fp Fs Fo Hrun).
  - intros Hbad.
    destruct (Nat.eq_dec (length phis) 1) as [L1 | L1];
      [ eapply cartesian_coords_of_0d; eauto | ].
    destruct (Nat.eq_dec (length psis) 1) as [L2 | L2];
      [ eapply cartesian_coords_of_0d; eauto | ].
    destruct (Nat.eq_dec (length omegas) 1) as [L3 | L3];
      [ eapply cartesian_coords_of_0d; eauto | ].
    rewrite squeeze_not_one in Fp, Fs, Fo by assumption.
    apply (cartesian_coords_short_table p s o l_n_ca l_ca_c l_c_n a_n_ca a_ca_c a_c_n
             ic self phis psis omegas Hinit Fp Fs Fo).
    fold m.
    destruct (covers_dec l_n_ca m); [ | tauto ].
    destruct (covers_dec l_ca_c m); [ | tauto ].
    destruct (covers_dec l_c_n m); [ | tauto ].
    destruct (covers_dec a_n_ca m); [ | tauto ].
    destruct (covers_dec a_ca_c m); [ | tauto ].
    destruct (covers_dec a_c_n m); [ | tauto ].
    exfalso. apply Hbad. unfold well_shaped. tauto.
Qed.

(** When [cartesian_coords] returns.  For a builder constructed from three
    1-D arrays: if none of them has exactly one entry and every bond table is
    a scalar or holds at least [m] entries, [m] the number of residue indices
    processed, the chain is returned, it has [3 + 3 m] atoms and its first
    three are the seed atoms (so arrays that leave nothing to process give
    the seeds alone).  In every other case the read raises [IndexError], and
    never any other exception. *)
Theorem cartesian_coords_returns_or_index_error
    (p s o : array) (l_n_ca l_ca_c l_c_n a_n_ca a_ca_c a_c_n : bond_value)
    (ic : list (list R)) (self : NERFBuilder) (phis psis omegas : list R) :
  NERFBuilder_init p s o l_n_ca l_ca_c l_c_n a_n_ca a_ca_c a_c_n ic = Ok self ->
  values p = Arr1 phis -> values s = Arr1 psis -> values o = Arr1 omegas ->
  let m := residues_processed phis psis omegas in
  let well_shaped :=
    length phis <> 1%nat /\ length psis <> 1%nat /\ length omegas <> 1%nat /\
    covers l_n_ca m /\ covers l_ca_c m /\ covers l_c_n m /\
    covers a_n_ca m /\ covers a_ca_c m /\ covers a_c_n m in
  (well_shaped ->
   exists coords, cartesian_coords self = Ok coords /\
                  length coords = (3 + 3 * m)%nat /\
                  firstn 3 coords = init_coords self) /\
  (~ well_shaped -> cartesian_coords self = Raise IndexError).
Proof.
  intros Hinit Vp Vs Vo.
  exact (cartesian_coords_outcome p s o l_n_ca l_ca_c l_c_n a_n_ca a_ca_c a_c_n ic self
           phis psis omegas Hinit Vp Vs Vo).
Qed.

(** Empty arrays: nothing to process, the seeds are returned.  A table of one
    entry against three residues: [IndexError]. *)
Lemma cartesian_coords_returns_witness :
  (exists self coords,
      NERFBuilder_default (np_array []) (np_array []) (np_array []) = Ok self /\
      cartesian_coords self = Ok coords /\ length coords = 3%nat /\
      firstn 3 coords = init_coords self)
  /\
  (exists self,
      NERFBuilder_init (np_array [0; 1; 2]) (np_array [3; 4; 5]) (np_array [6; 7; 8])
        (Scalar N_CA_LENGTH) (Scalar CA_C_LENGTH) (Scalar C_N_LENGTH)
        (Scalar default_bond_angle_n_ca) (PerResidue [default_bond_angle_ca_c])
        (Scalar default_bond_angle_c_n) [N_INIT; CA_INIT; C_INIT] = Ok self /\
      cartesian_coords self = Raise IndexError).
Proof.
  split.
  - eexists.
    destruct (proj1 (cartesian_coords_returns_or_index_error
                (np_array []) (np_array []) (np_array [])
                (Scalar N_CA_LENGTH) (Scalar CA_C_LENGTH) (Scalar C_N_LENGTH)
                (Scalar default_bond_angle_n_ca) (Scalar default_bond_angle_ca_c)
                (Scalar default_bond_angle_c_n) [N_INIT; CA_INIT; C_INIT]
                _ [] [] [] eq_refl eq_refl eq_refl eq_refl))
      as (coords & Hrun & Hlen & Hseed).
    + simpl. repeat split; try exact I; discriminate.
    + exists coords. split; [ reflexivity | ].
      split; [ exact Hrun | ]. split; [ exact Hlen | exact Hseed ].
  - eexists. split; [ reflexivity | ].
    apply (proj2 (cartesian_coords_returns_or_index_error
                (np_array [0; 1; 2]) (np_array [3; 4; 5]) (np_array [6; 7; 8])
                (Scalar N_CA_LENGTH) (Scalar CA_C_LENGTH) (Scalar C_N_LENGTH)
                (Scalar default_bond_angle_n_ca) (PerResidue [default_bond_angle_ca_c])
                (Scalar default_bond_angle_c_n) [N_INIT; CA_INIT; C_INIT]
                _ [0; 1; 2] [3; 4; 5] [6; 7; 8] eq_refl eq_refl eq_refl eq_refl)).
    unfold covers, residues_processed. simpl. lia.
Defined.

(** ** Torsions up to full turns *)

Lemma NERFBuilder_init_same_seeds
    (p s o p' s' o' : array) (l_n_ca l_ca_c l_c_n a_n_ca a_ca_c a_c_n : bond_value)
    (ic : list (list R)) :
  match NERFBuilder_init p s o l_n_ca l_ca_c l_c_n a_n_ca a_ca_c a_c_n ic with
  | Ok _ => exists self',
      NERFBuilder_init p' s' o' l_n_ca l_ca_c l_c_n a_n_ca a_ca_c a_c_n ic = Ok self'
  | Raise e =>
      NERFBuilder_init p' s' o' l_n_ca l_ca_c l_c_n a_n_ca a_ca_c a_c_n ic = Raise e
  end.
Proof.
  unfold NERFBuilder_init.
  destruct (assert (length ic =? 3)%nat); cbn [bind]; [ | reflexivity ].
  destruct (all_vec3 ic); [ eexists; reflexivity | reflexivity ].
Qed.

(** Adding whole turns to torsion angles changes nothing: for arrays of the
    same lengths whose entries differ by integer multiples of [2 pi], as
    after wrapping angles into one period, the builder gives the same
    result, chain or exception. *)
Theorem torsions_up_to_full_turns
    (tp ts to : bool) (l_n_ca l_ca_c l_c_n a_n_ca a_ca_c a_c_n : bond_value)
    (ic : list (list R)) (phis psis omegas phis' psis' omegas' : list R) :
  length phis' = length phis -> length psis' = length psis ->
  length omegas' = length omegas ->
  (forall i, exists k : Z, nth i phis' 0 = nth i phis 0 + 2 * IZR k * PI) ->
  (forall i, exists k : Z, nth i psis' 0 = nth i psis 0 + 2 * IZR k * PI) ->
  (forall i, exists k : Z, nth i omegas' 0 = nth i omegas 0 + 2 * IZR k * PI) ->
  build_cartesian_coords
    {| is_tensor := tp; values := Arr1 phis' |}
    {| is_tensor := ts; values := Arr1 psis' |}
    {| is_tensor := to; values := Arr1 omegas' |}
    l_n_ca l_ca_c l_c_n a_n_ca a_ca_c a_c_n ic
  = build_cartesian_coords
      {| is_tensor := tp; values := Arr1 phis |}
      {| is_tensor := ts; values := Arr1 psis |}
      {| is_tensor := to; values := Arr1 omegas |}
      l_n_ca l_ca_c l_c_n a_n_ca a_ca_c a_c_n ic.
Proof.
  intros Lp Ls Lo Tp Ts To.
  set (p := {| is_tensor := tp; values := Arr1 phis |}).
  set (s := {| is_tensor := ts; values := Arr1 psis |}).
  set (o := {| is_tensor := to; values := Arr1 omegas |}).
  set (p' := {| is_tensor := tp; values := Arr1 phis' |}).
  set (s' := {| is_tensor := ts; values := Arr1 psis' |}).
  set (o' := {| is_tensor := to; values := Arr1 omegas' |}).
  unfold build_cartesian_coords.
  pose proof (NERFBuilder_init_same_seeds p s o p' s' o'
                l_n_ca l_ca_c l_c_n a_n_ca a_ca_c a_c_n ic) as Hboth.
  destruct (NERFBuilder_init p s o l_n_ca l_ca_c l_c_n a_n_ca a_ca_c a_c_n ic)
    as [self | e] eqn:Hinit; [ | rewrite Hboth; reflexivity ].
  destruct Hboth as (self' & Hinit'). rewrite Hinit'. cbn [bind].
  pose proof (cartesian_coords_outcome p s o
                l_n_ca l_ca_c l_c_n a_n_ca a_ca_c a_c_n ic self phis psis omegas
                Hinit eq_refl eq_refl eq_refl) as [Hgood Hbad].
  pose proof (cartesian_coords_outcome p' s' o'
                l_n_ca l_ca_c l_c_n a_n_ca a_ca_c a_c_n ic self' phis' psis' omegas'
                Hinit' eq_refl eq_refl eq_refl) as [Hgood' Hbad'].
  cbv zeta in Hgood, Hbad, Hgood', Hbad'.
  assert (Hm : residues_processed phis' psis' omegas' = residues_processed phis psis omegas)
    by (unfold residues_processed; rewrite Lp, Ls, Lo; reflexivity).
  rewrite Hm, Lp, Ls, Lo in Hgood', Hbad'.
  set (m := residues_processed phis psis omegas) in *.
  set (well_shaped :=
         length phis <> 1%nat /\ length psis <> 1%nat /\ length omegas <> 1%nat /\
         covers l_n_ca m /\ covers l_ca_c m /\ covers l_c_n m /\
         covers a_n_ca m /\ covers a_ca_c m /\ covers a_c_n m) in *.
  assert (Hdec : well_shaped \/ ~ well_shaped).
  { unfold well_shaped.
    destruct (Nat.eq_dec (length phis) 1); [ right; tauto | ].
    destruct (Nat.eq_dec (length psis) 1); [ right; tauto | ].
    destruct (Nat.eq_dec (length omegas) 1); [ right; tauto | ].
    destruct (covers_dec l_n_ca m); [ | right; tauto ].
    destruct (covers_dec l_ca_c m); [ | right; tauto ].
    destruct (covers_dec l_c_n m); [ | right; tauto ].
    destruct (covers_dec a_n_ca m); [ | right; tauto ].
    destruct (covers_dec a_ca_c m); [ | right; tauto ].
    destruct (covers_dec a_c_n m); [ | right; tauto ].
    left. tauto. }
  destruct Hdec as [Hw | Hw]; [ | rewrite (Hbad Hw), (Hbad' Hw); reflexivity ].
  destruct (Hgood Hw) as (coords & Hrun & Hlen & _).
  destruct (Hgood' Hw) as (coords' & Hrun' & Hlen' & _).
  rewrite Hrun, Hrun'. f_equal.
  destruct Hw as (L1 & L2 & L3 & _).
  destruct (NERFBuilder_init_fields _ _ _ _ _ _ _ _ _ _ _ Hinit)
    as (_ & Fp & Fs & Fo & Fl & Fa & Fi & _).
  destruct (NERFBuilder_init_fields _ _ _ _ _ _ _ _ _ _ _ Hinit')
    as (_ & Fp' & Fs' & Fo' & Fl' & Fa' & Fi' & _).
  cbn [values p s o p' s' o'] in Fp, Fs, Fo, Fp', Fs', Fo'.
  rewrite squeeze_not_one in Fp, Fs, Fo by assumption.
  rewrite squeeze_not_one in Fp', Fs', Fo' by congruence.
  apply nth_error_ext. intros j.
  destruct (Nat.lt_ge_cases j (3 + 3 * m)) as [Hj | Hj].
  - apply (chains_agree_upto self' self coords' coords
             phis' psis' omegas' phis psis omegas) with (k := m);
      try assumption;
      try (eapply NERFBuilder_init_constructed; eassumption);
      try congruence; try (rewrite Hm; fold m; lia); try (fold m; lia).
    intros i _.
    destruct (Tp (S i)) as (k1 & ->). destruct (Ts i) as (k2 & ->).
    destruct (To i) as (k3 & ->).
    repeat split; apply same_angle_period.
  - assert (H1 : nth_error coords' j = None) by (apply nth_error_None; lia).
    assert (H2 : nth_error coords j = None) by (apply nth_error_None; lia).
    congruence.
Qed.

Lemma torsions_up_to_full_turns_witness :
  build_cartesian_coords
    (np_array [0 + 2 * 1 * PI; 1 + 2 * (-2) * PI]) (np_array [2 + 2 * 3 * PI; 0 + 2 * 0 * PI])
    (np_array [3 + 2 * (-1) * PI; 0 + 2 * 0 * PI])
    (Scalar N_CA_LENGTH) (Scalar CA_C_LENGTH) (Scalar C_N_LENGTH)
    (Scalar default_bond_angle_n_ca) (Scalar default_bond_angle_ca_c)
    (Scalar default_bond_angle_c_n) [N_INIT; CA_INIT; C_INIT]
  = build_cartesian_coords (np_array [0; 1]) (np_array [2; 0]) (np_array [3; 0])
      (Scalar N_CA_LENGTH) (Scalar CA_C_LENGTH) (Scalar C_N_LENGTH)
      (Scalar default_bond_angle_n_ca) (Scalar default_bond_angle_ca_c)
      (Scalar default_bond_angle_c_n) [N_INIT; CA_INIT; C_INIT].
Proof.
  apply (torsions_up_to_full_turns false false false
           (Scalar N_CA_LENGTH) (Scalar CA_C_LENGTH) (Scalar C_N_LENGTH)
           (Scalar default_bond_angle_n_ca) (Scalar default_bond_angle_ca_c)
           (Scalar default_bond_angle_c_n) [N_INIT; CA_INIT; C_INIT]
           [0; 1] [2; 0] [3; 0]);
    try reflexivity.
  - intros [ | [ | i]]; cbn [nth].
    + exists 1%Z. reflexivity.
    + exists (-2)%Z. reflexivity.
    + exists 0%Z. destruct i; simpl; ring.
  - intros [ | [ | i]]; cbn [nth].
    + exists 3%Z. reflexivity.
    + exists 0%Z. reflexivity.
    + exists 0%Z. destruct i; simpl; ring.
  - intros [ | [ | i]]; cbn [nth].
    + exists (-1)%Z. reflexivity.
    + exists 0%Z. reflexivity.
    + exists 0%Z. destruct i; simpl; ring.
Defined.

(** ** The constructor and the bond tables *)

Lemma all_vec3_sizes (ic : list (list R)) :
  (exists coords, all_vec3 ic = Some coords) <-> Forall (fun c => length c = 3%nat) ic.
Proof.
  induction ic as [ | c rest IH]; simpl.
  - split; [ constructor | eexists; reflexivity ].
  - split.
    + intros (coords & Hall).
      destruct (as_vec3 c) as [v | ] eqn:Hc; [ | discriminate ].
      destruct (all_vec3 rest) as [vs | ] eqn:Hrest; [ | discriminate ].
      constructor.
      * destruct c as [ | x [ | y [ | z [ | w more]]]]; simpl in Hc;
          try discriminate. reflexivity.
      * apply IH. eexists. reflexivity.
    + intros Hall. inversion Hall as [ | c' rest' Hc Hrest]; subst.
      apply IH in Hrest. destruct Hrest as (vs & ->).
      destruct c as [ | x [ | y [ | z [ | w more]]]]; simpl in Hc; try discriminate.
      eexists. reflexivity.
Qed.

(** The constructor validates the seed coordinates and nothing else: it
    returns a builder exactly when there are three initial coordinates, each
    of three components, and holds them as its seed atoms; otherwise it
    raises [AssertionError].  The torsion arrays and the bond tables are not
    looked at. *)
Theorem NERFBuilder_init_validates_seeds_only
    (p s o : array) (l_n_ca l_ca_c l_c_n a_n_ca a_ca_c a_c_n : bond_value)
    (ic : list (list R)) :
  let valid := length ic = 3%nat /\ Forall (fun c => length c = 3%nat) ic in
  (valid ->
   exists self,
     NERFBuilder_init p s o l_n_ca l_ca_c l_c_n a_n_ca a_ca_c a_c_n ic = Ok self /\
     map (fun v => [vx v; vy v; vz v]) (init_coords self) = ic) /\
  (~ valid ->
   NERFBuilder_init p s o l_n_ca l_ca_c l_c_n a_n_ca a_ca_c a_c_n ic
   = Raise AssertionError).
Proof.
  intros valid. unfold NERFBuilder_init, assert. split.
  - intros [Hlen Hsizes]. rewrite Hlen. cbn [Nat.eqb bind].
    apply all_vec3_sizes in Hsizes. destruct Hsizes as (coords & Hall).
    rewrite Hall. eexists. split; [ reflexivity | ]. cbn [init_coords].
    clear - Hall. revert coords Hall.
    induction ic as [ | c rest IH]; intros coords Hall; simpl in Hall.
    + injection Hall as <-. reflexivity.
    + destruct c as [ | x [ | y [ | z [ | w more]]]]; simpl in Hall; try discriminate.
      destruct (all_vec3 rest) as [vs | ]; [ | discriminate ].
      injection Hall as <-. simpl. f_equal. apply IH. reflexivity.
  - intros Hbad.
    destruct (Nat.eqb_spec (length ic) 3) as [Hlen | Hlen]; [ | reflexivity ].
    cbn [bind].
    destruct (all_vec3 ic) as [coords | ] eqn:Hall; [ | reflexivity ].
    exfalso. apply Hbad. split; [ exact Hlen | ].
    apply all_vec3_sizes. eexists. exact Hall.
Qed.

Lemma NERFBuilder_init_validates_witness :
  (exists self,
      NERFBuilder_init (np_array [1]) (torch_tensor []) (np_array [1; 2; 3])
        (Scalar 1) (PerResidue []) (Scalar 1) (Scalar 1) (Scalar 1) (Scalar 1)
        [N_INIT; CA_INIT; C_INIT] = Ok self)
  /\
  NERFBuilder_init (np_array [0; 1]) (np_array [0; 1]) (np_array [0; 1])
    (Scalar 1) (Scalar 1) (Scalar 1) (Scalar 1) (Scalar 1) (Scalar 1)
    [N_INIT; [1; 2]; C_INIT] = Raise AssertionError.
Proof.
  split.
  - destruct (proj1 (NERFBuilder_init_validates_seeds_only
                (np_array [1]) (torch_tensor []) (np_array [1; 2; 3])
                (Scalar 1) (PerResidue []) (Scalar 1) (Scalar 1) (Scalar 1) (Scalar 1)
                [N_INIT; CA_INIT; C_INIT])) as (self & Hself & _).
    + split; [ reflexivity | repeat constructor ].
    + exists self. exact Hself.
  - apply (proj2 (NERFBuilder_init_validates_seeds_only
                (np_array [0; 1]) (np_array [0; 1]) (np_array [0; 1])
                (Scalar 1) (Scalar 1) (Scalar 1) (Scalar 1) (Scalar 1) (Scalar 1)
                [N_INIT; [1; 2]; C_INIT])).
    intros [_ Hsizes]. inversion Hsizes as [ | ? ? _ Hrest]; subst.
    inversion Hrest as [ | ? ? Hc _]; subst. simpl in Hc. discriminate.
Defined.

Lemma getitem_not_key {V : Type} (d : dict V) (k : bond) :
  ~ In k (keys d) -> getitem d k = Raise KeyError.
Proof.
  induction d as [ | [k' v] rest IH]; simpl; intros Hk; [ reflexivity | ].
  destruct (bond_eqb k' k) eqn:Heq.
  - exfalso. apply Hk. left. unfold bond_eqb in Heq.
    apply andb_true_iff in Heq. destruct Heq as [H1 H2].
    apply String.eqb_eq in H1, H2. destruct k', k; simpl in *; subst. reflexivity.
  - apply IH. tauto.
Qed.

(** Which argument a placement reads.  In a constructed builder the lookups
    for C-N answer from [bond_len_c_n] and [bond_angle_c_n], those for N-CA
    from [bond_len_n_ca] and [bond_angle_n_ca], those for CA-C from
    [bond_len_ca_c] and [bond_angle_ca_c]: a scalar is returned for every
    index, a sequence is indexed and raises [IndexError] from its length on.
    Any other bond raises [KeyError]. *)
Theorem bond_lookup_of_constructed
    (p s o : array) (l_n_ca l_ca_c l_c_n a_n_ca a_ca_c a_c_n : bond_value)
    (ic : list (list R)) (self : NERFBuilder) :
  NERFBuilder_init p s o l_n_ca l_ca_c l_c_n a_n_ca a_ca_c a_c_n ic = Ok self ->
  let answer (v : bond_value) (idx : nat) : result R :=
    match v with
    | Scalar x => Ok x
    | PerResidue xs =>
        if (idx <? length xs)%nat then Ok (nth idx xs 0) else Raise IndexError
    end in
  forall idx,
    _get_bond_length self C_N idx = answer l_c_n idx /\
    _get_bond_angle self C_N idx = answer a_c_n idx /\
    _get_bond_length self N_CA idx = answer l_n_ca idx /\
    _get_bond_angle self N_CA idx = answer a_n_ca idx /\
    _get_bond_length self CA_C idx = answer l_ca_c idx /\
    _get_bond_angle self CA_C idx = answer a_ca_c idx /\
    forall b, b <> C_N -> b <> N_CA -> b <> CA_C ->
              _get_bond_length self b idx = Raise KeyError /\
              _get_bond_angle self b idx = Raise KeyError.
Proof.
  intros Hinit answer idx.
  assert (Hans : forall v, index_bond_value v idx = answer v idx).
  { intros [x | xs]; simpl; [ reflexivity | ].
    destruct (Nat.ltb_spec idx (length xs)) as [Hlt | Hge].
    - rewrite (nth_error_nth' xs 0 Hlt). reflexivity.
    - destruct (nth_error xs idx) eqn:Hx; [ | reflexivity ].
      assert (nth_error xs idx = None) by (apply nth_error_None; exact Hge).
      congruence. }
  destruct (init_get_bond _ _ _ _ _ _ _ _ _ _ _ idx Hinit)
    as (E1 & E2 & E3 & E4 & E5 & E6).
  rewrite E1, E2, E3, E4, E5, E6, !Hans.
  repeat split; intros.
  - unfold _get_bond_length.
    destruct (NERFBuilder_init_fields _ _ _ _ _ _ _ _ _ _ _ Hinit)
      as (_ & _ & _ & _ & Fl & _).
    rewrite getitem_not_key; [ reflexivity | ].
    rewrite Fl. simpl. intros [<- | [<- | [<- | []]]]; congruence.
  - unfold _get_bond_angle.
    destruct (NERFBuilder_init_fields _ _ _ _ _ _ _ _ _ _ _ Hinit)
      as (_ & _ & _ & _ & _ & Fa & _).
    rewrite getitem_not_key; [ reflexivity | ].
    rewrite Fa. simpl. intros [<- | [<- | [<- | []]]]; congruence.
Qed.

Lemma bond_lookup_witness :
  exists self,
    NERFBuilder_init (np_array [0; 1; 2]) (np_array [0; 1; 2]) (np_array [0; 1; 2])
      (Scalar 1) (Scalar 2) (PerResidue [3; 4]) (Scalar 5) (Scalar 6) (Scalar 7)
      [N_INIT; CA_INIT; C_INIT] = Ok self /\
    _get_bond_length self C_N 1 = Ok 4 /\
    _get_bond_length self C_N 2 = Raise IndexError /\
    _get_bond_angle self CA_C 9 = Ok 6.
Proof.
  eexists. split; [ reflexivity | ].
  pose proof (bond_lookup_of_constructed
                (np_array [0; 1; 2]) (np_array [0; 1; 2]) (np_array [0; 1; 2])
                (Scalar 1) (Scalar 2) (PerResidue [3; 4]) (Scalar 5) (Scalar 6) (Scalar 7)
                [N_INIT; CA_INIT; C_INIT] _ eq_refl) as Hlook.
  cbv zeta in Hlook.
  split; [ | split ].
  - apply (Hlook 1%nat).
  - apply (Hlook 2%nat).
  - apply (Hlook 9%nat).
Defined.

(** ** Centring keeps the shape *)

(** [centered_cartesian_coords] has as many atoms as [cartesian_coords] and
    raises exactly when [cartesian_coords] does; when every atom of the chain
    is a number so is every centred atom, and the distance between any two
    atoms is the same in both. *)
Theorem centering_preserves_distances (self : NERFBuilder) :
  match cartesian_coords_nan self with
  | Ok chain =>
      exists centered,
        centered_cartesian_coords_nan self = Ok centered /\
        length centered = length chain /\
        forall coords,
          chain = map Some coords ->
          exists cs,
            centered = map Some cs /\
            forall i j x y u v,
              nth_error coords i = Some x -> nth_error coords j = Some y ->
              nth_error cs i = Some u -> nth_error cs j = Some v ->
              dist u v = dist x y
  | Raise e => centered_cartesian_coords_nan self = Raise e
  end.
Proof.
  unfold centered_cartesian_coords_nan.
  destruct (cartesian_coords_nan self) as [chain | e]; [ | reflexivity ].
  cbn [bind]. eexists. split; [ reflexivity | ]. split; [ apply length_map | ].
  intros coords ->.
  destruct coords as [ | c0 rest].
  - exists []. split; [ reflexivity | ].
    intros [ | i] j x y u v Hx; discriminate.
  - exists (map (fun x => vsub x (mean_axis0 (c0 :: rest))) (c0 :: rest)).
    split.
    + unfold mean_axis0_nan. rewrite all_numbers_map_Some.
      rewrite !map_map. reflexivity.
    + intros i j x y u v Hx Hy Hu Hv.
      rewrite nth_error_map, Hx in Hu. rewrite nth_error_map, Hy in Hv.
      injection Hu as <-. injection Hv as <-.
      unfold dist. f_equal. apply vec3_eq; simpl; ring.
Qed.

(** The default builder on two residues: the six centred atoms are numbers,
    and the first two are as far apart as the first two seed atoms. *)
Lemma centering_preserves_distances_witness :
  exists self coords cs,
    NERFBuilder_default (np_array [0; -1]) (np_array [2; 0]) (np_array [3; 0]) = Ok self /\
    cartesian_coords_nan self = Ok (map Some coords) /\
    centered_cartesian_coords_nan self = Ok (map Some cs) /\
    length cs = 6%nat /\
    forall x y u v,
      nth_error coords 0 = Some x -> nth_error coords 1 = Some y ->
      nth_error cs 0 = Some u -> nth_error cs 1 = Some v ->
      dist u v = dist x y.
Proof.
  destruct default_chain_numbers as (self & coords & Hinit & _ & Hnan & Hlen).
  pose proof (centering_preserves_distances self) as Hcen.
  rewrite Hnan in Hcen.
  destruct Hcen as (centered & Hrun & Hlen' & Hdist).
  destruct (Hdist coords eq_refl) as (cs & -> & Hpairs).
  exists self, coords, cs.
  split; [ exact Hinit | ].
  split; [ exact Hnan | ].
  split; [ exact Hrun | ].
  split.
  - rewrite !length_map in Hlen'. rewrite Hlen'. exact Hlen.
  - intros x y u v. apply (Hpairs 0%nat 1%nat).
Defined.

(** ** [canonical_distances_and_dihedrals]: when a table is returned *)

(** The two range assertions of one residue, for a conversion that keeps
    the order of degrees. *)
Lemma range_assertion (conv : R -> R) (lo hi : R) (raw : list xfloat) :
  (forall d, lo <= conv d <-> -180 <= d) ->
  (forall d, conv d <= hi <-> d <= 180) ->
  let converted := map (fun x => match x with Fin d => Fin (conv d) | other => other end) raw in
  let nonnan := map (fun a => negb (isnan a)) raw in
  forallb (fun a => xge a lo) (select converted nonnan)
  && forallb (fun a => xle a hi) (select converted nonnan) = true
  <-> Forall degrees_ok raw.
Proof.
  intros Hlo Hhi. cbv zeta.
  induction raw as [ | x rest IH].
  - split; [ constructor | reflexivity ].
  - destruct x as [d | | | ]; cbn [map select isnan negb forallb xge xle].
    + destruct (Rle_dec lo (conv d)) as [Hl | Hl];
        destruct (Rle_dec (conv d) hi) as [Hh | Hh]; cbn [andb].
      * rewrite IH. split.
        -- intros Hall. constructor; [ | exact Hall ].
           simpl. split; [ apply Hlo; exact Hl | apply Hhi; exact Hh ].
        -- intros Hall. inversion Hall; subst. assumption.
      * rewrite andb_false_r. split; [ discriminate | ].
        intros Hall. inversion Hall as [ | ? ? Hd _]; subst. simpl in Hd.
        exfalso. apply Hh. apply Hhi. lra.
      * split; [ discriminate | ].
        intros Hall. inversion Hall as [ | ? ? Hd _]; subst. simpl in Hd.
        exfalso. apply Hl. apply Hlo. lra.
      * split; [ discriminate | ].
        intros Hall. inversion Hall as [ | ? ? Hd _]; subst. simpl in Hd.
        exfalso. apply Hl. apply Hlo. lra.
    + rewrite andb_false_r. split; [ discriminate | ].
      intros Hall. inversion Hall as [ | ? ? Hd _]; subst. contradiction.
    + split; [ discriminate | ].
      intros Hall. inversion Hall as [ | ? ? Hd _]; subst. contradiction.
    + rewrite IH. split.
      * intros Hall. constructor; [ exact I | exact Hall ].
      * intros Hall. inversion Hall; subst. assumption.
Qed.

Lemma radians_order (d : R) :
  (- PI <= d / 180 * PI <-> -180 <= d) /\ (d / 180 * PI <= PI <-> d <= 180).
Proof. pose proof PI_RGT_0 as Hpi. repeat split; intros; nra. Qed.

Lemma deg_to_rad_as_match (raw : list xfloat) :
  map deg_to_rad raw
  = map (fun x => match x with Fin d => Fin (d / 180 * PI) | other => other end) raw.
Proof. apply map_ext. intros [d | | | ]; reflexivity. Qed.

Lemma identity_as_match (raw : list xfloat) :
  raw = map (fun x => match x with Fin d => Fin d | other => other end) raw.
Proof.
  rewrite <- (map_id raw) at 1. apply map_ext. intros [d | | | ]; reflexivity.
Qed.

(** One residue: a row when its angles are acceptable, [AssertionError]
    otherwise. *)
Lemma residue_row_outcome (distances angles : list string) (use_radians : bool)
                          (values : list (list xfloat)) (ric : IC_Residue) :
  (residue_angles_ok angles ric ->
   exists row, residue_row distances angles use_radians values ric = Ok (values ++ [row])) /\
  (~ residue_angles_ok angles ric ->
   residue_row distances angles use_radians values ric = Raise AssertionError).
Proof.
  unfold residue_row, residue_angles_ok.
  set (raw := map (fun a => to_float64 (get_angle ric a)) angles).
  assert (Hraw : Forall degrees_ok raw
                 <-> Forall (fun a => degrees_ok (to_float64 (get_angle ric a))) angles).
  { unfold raw. rewrite Forall_map. reflexivity. }
  rewrite <- Hraw.
  destruct use_radians.
  - pose proof (range_assertion (fun d => d / 180 * PI) (- PI) PI raw
                  (fun d => proj1 (radians_order d)) (fun d => proj2 (radians_order d)))
      as Hcheck.
    cbv zeta in Hcheck. rewrite <- deg_to_rad_as_match in Hcheck.
    destruct (forallb (fun a => xge a (- PI))
                (select (map deg_to_rad raw) (map (fun a => negb (isnan a)) raw))
              && forallb (fun a => xle a PI)
                   (select (map deg_to_rad raw) (map (fun a => negb (isnan a)) raw)))
      eqn:Hb; cbn [assert bind].
    + split; [ intros _; eexists; reflexivity | ].
      intros Hn. exfalso. apply Hn. apply Hcheck. reflexivity.
    + split; [ | reflexivity ].
      intros Hall. apply Hcheck in Hall. discriminate.
  - pose proof (range_assertion (fun d => d) (- 180) 180 raw
                  (fun d => conj (fun H => H) (fun H => H))
                  (fun d => conj (fun H => H) (fun H => H))) as Hcheck.
    cbv zeta in Hcheck. rewrite <- identity_as_match in Hcheck.
    destruct (forallb (fun a => xge a (- 180))
                (select raw (map (fun a => negb (isnan a)) raw))
              && forallb (fun a => xle a 180)
                   (select raw (map (fun a => negb (isnan a)) raw)))
      eqn:Hb; cbn [assert bind].
    + split; [ intros _; eexists; reflexivity | ].
      intros Hn. exfalso. apply Hn. apply Hcheck. reflexivity.
    + split; [ | reflexivity ].
      intros Hall. apply Hcheck in Hall. discriminate.
Qed.

Lemma residue_rows_outcome (distances angles : list string) (use_radians : bool)
                           (rics : list IC_Residue) (values : list (list xfloat)) :
  (Forall (residue_angles_ok angles) rics ->
   exists rows,
     for_each (residue_row distances angles use_radians) rics values = Ok (values ++ rows)
     /\ length rows = length rics) /\
  (Exists (fun ric => ~ residue_angles_ok angles ric) rics ->
   for_each (residue_row distances angles use_radians) rics values = Raise AssertionError).
Proof.
  revert values. induction rics as [ | ric rest IH]; intros values.
  - split.
    + intros _. exists []. rewrite app_nil_r. split; reflexivity.
    + intros Hex. inversion Hex.
  - cbn [for_each].
    destruct (residue_row_outcome distances angles use_radians values ric) as [Hok Hbad].
    split.
    + intros Hall. inversion Hall as [ | ? ? Hric Hrest]; subst.
      destruct (Hok Hric) as (row & Hrow). rewrite Hrow. cbn [bind].
      destruct (proj1 (IH (values ++ [row])) Hrest) as (rows & Hrun & Hlen).
      rewrite Hrun.
      exists (row :: rows). rewrite <- app_assoc. split; [ reflexivity | ].
      simpl. rewrite Hlen. reflexivity.
    + intros Hex.
      assert (Hdec : residue_angles_ok angles ric \/ ~ residue_angles_ok angles ric).
      { destruct (residue_row distances angles use_radians values ric) eqn:Hrow.
        - left.
          assert (Hn : ~ ~ residue_angles_ok angles ric)
            by (intros Hn; discriminate (Hbad Hn)).
          unfold residue_angles_ok in *.
          clear - Hn. induction angles as [ | a more IHa]; [ constructor | ].
          assert (Hhead : degrees_ok (to_float64 (get_angle ric a))).
          { destruct (to_float64 (get_angle ric a)) as [d | | | ] eqn:Hx; simpl.
            - destruct (Rle_dec (-180) d) as [H1 | H1];
                destruct (Rle_dec d 180) as [H2 | H2]; [ split; assumption | | | ];
                exfalso; apply Hn; intros Hall; inversion Hall as [ | ? ? Hd _];
                subst; rewrite Hx in Hd; simpl in Hd; lra.
            - apply Hn. intros Hall. inversion Hall as [ | ? ? Hd _]; subst.
              rewrite Hx in Hd. exact Hd.
            - apply Hn. intros Hall. inversion Hall as [ | ? ? Hd _]; subst.
              rewrite Hx in Hd. exact Hd.
            - exact I. }
          constructor; [ exact Hhead | ].
          apply IHa. intros Hm. apply Hn. intros Hall.
          inversion Hall; subst. contradiction.
        - right. intros Hric. destruct (Hok Hric) as (row & Hrow'). discriminate. }
      destruct Hdec as [Hric | Hric].
      * destruct (Hok Hric) as (row & Hrow). rewrite Hrow. cbn [bind].
        apply IH. inversion Hex; subst; [ contradiction | assumption ].
      * rewrite (Hbad Hric). reflexivity.
Qed.

Lemma degrees_ok_dec (x : xfloat) : degrees_ok x \/ ~ degrees_ok x.
Proof.
  destruct x as [d | | | ]; simpl.
  - destruct (Rle_dec (-180) d); destruct (Rle_dec d 180); tauto.
  - right. exact (fun H => H).
  - right. exact (fun H => H).
  - left. exact I.
Qed.

Lemma residue_angles_ok_dec (angles : list string) (ric : IC_Residue) :
  residue_angles_ok angles ric \/ ~ residue_angles_ok angles ric.
Proof.
  unfold residue_angles_ok. induction angles as [ | a rest IH].
  - left. constructor.
  - destruct (degrees_ok_dec (to_float64 (get_angle ric a))) as [Ha | Ha].
    + destruct IH as [Hrest | Hrest].
      * left. constructor; assumption.
      * right. intros Hall. inversion Hall; subst. contradiction.
    + right. intros Hall. inversion Hall; subst. contradiction.
Qed.

Lemma residue_rows_Ok (distances angles : list string) (use_radians : bool)
                      (rics : list IC_Residue) (values out : list (list xfloat)) :
  for_each (residue_row distances angles use_radians) rics values = Ok out ->
  Forall (residue_angles_ok angles) rics.
Proof.
  revert values. induction rics as [ | ric rest IH]; intros values Hrun.
  - constructor.
  - cbn [for_each] in Hrun. apply bind_Ok_inv in Hrun.
    destruct Hrun as (mid & Hrow & Hrest).
    constructor; [ | eapply IH; exact Hrest ].
    destruct (residue_angles_ok_dec angles ric) as [Hok | Hbad]; [ exact Hok | ].
    rewrite (proj2 (residue_row_outcome distances angles use_radians values ric) Hbad)
      in Hrow.
    discriminate.
Qed.

Lemma residue_rows_error (distances angles : list string) (use_radians : bool)
                         (rics : list IC_Residue) (values : list (list xfloat)) (e : exn) :
  for_each (residue_row distances angles use_radians) rics values = Raise e ->
  e = AssertionError.
Proof.
  revert values. induction rics as [ | ric rest IH]; intros values Hrun.
  - discriminate.
  - cbn [for_each] in Hrun.
    destruct (residue_row_outcome distances angles use_radians values ric) as [Hok Hbad].
    destruct (residue_angles_ok_dec angles ric) as [Hric | Hric].
    + destruct (Hok Hric) as (row & Hrow). rewrite Hrow in Hrun. cbn [bind] in Hrun.
      eapply IH. exact Hrun.
    + rewrite (Hbad Hric) in Hrun. cbn [bind] in Hrun. congruence.
Qed.

Lemma shape_matches_spec (values : list (list xfloat)) (n : nat) :
  shape_matches (map (map nan_to_num) values) n = true
  <-> values <> [] /\ length values = n.
Proof.
  destruct values as [ | row rest]; simpl.
  - split; [ discriminate | intros [H _]; contradiction ].
  - rewrite length_map. split.
    + intros H. split; [ discriminate | ].
      destruct n; [ discriminate | ]. f_equal. apply Nat.eqb_eq. exact H.
    + intros [_ H]. subst n. apply Nat.eqb_refl.
Qed.

(** Every outcome of [canonical_distances_and_dihedrals].  No chain:
    [IndexError] from [chains.pop()].  Two chains or more: [None].  One chain
    that fails the rebuild test: [None].  One chain that passes it: the table,
    one row per entry of [ordered_aa_ic_list], when every requested angle of
    every entry is undefined or within [[-180, 180]] degrees, the list is not
    empty and it has as many entries as the chain has residues other than
    water and sodium; [AssertionError] when any of the three fails. *)
Theorem canonical_distances_and_dihedrals_outcome
    (s : Structure) (distances angles : list string) (use_radians : bool) :
  let run := canonical_distances_and_dihedrals s distances angles use_radians in
  (get_chains s = [] -> run = Raise IndexError) /\
  ((2 <= length (get_chains s))%nat -> run = Ok None) /\
  (forall chain, get_chains s = [chain] ->
     let residues := filter not_water_or_sodium (get_resnames chain) in
     let rics := ordered_aa_ic_list chain in
     (structure_rebuild_test_pass chain = false -> run = Ok None) /\
     (structure_rebuild_test_pass chain = true ->
      Forall (residue_angles_ok angles) rics ->
      rics <> [] -> length rics = length residues ->
      run = Ok (Some {| columns := distances ++ angles;
                        data := map (table_row distances angles use_radians) rics |})) /\
     (structure_rebuild_test_pass chain = true ->
      Exists (fun ric => ~ residue_angles_ok angles ric) rics
      \/ rics = [] \/ length rics <> length residues ->
      run = Raise AssertionError)).
Proof.
  intros run. unfold run, canonical_distances_and_dihedrals.
  split; [ | split ].
  - intros ->. reflexivity.
  - intros Hlen. destruct (Nat.ltb_spec 1 (length (get_chains s))); [ reflexivity | lia ].
  - intros chain ->. cbn [length Nat.ltb Nat.leb pop rev app bind].
    set (rics := ordered_aa_ic_list chain).
    set (residues := filter not_water_or_sodium (get_resnames chain)).
    split; [ | split ].
    + intros ->. reflexivity.
    + intros -> Hall Hne Hlen. cbn [negb].
      destruct (proj1 (residue_rows_outcome distances angles use_radians rics []) Hall)
        as (rows & Hrun & Hrows).
      rewrite Hrun. cbn [bind app].
      pose proof (for_each_residue_row _ _ _ _ _ _ Hrun) as Hdata.
      cbn [map app] in Hdata.
      assert (Hshape : shape_matches (map (map nan_to_num) rows) (length residues) = true).
      { apply shape_matches_spec. split; [ | congruence ].
        intros ->. destruct rics; [ contradiction | discriminate ]. }
      rewrite Hshape. cbn [assert bind]. rewrite Hdata. reflexivity.
    + intros -> Hbad. cbn [negb].
      destruct (for_each (residue_row distances angles use_radians) rics [])
        as [values | e] eqn:Hrun.
      * cbn [bind].
        pose proof (residue_rows_Ok _ _ _ _ _ _ Hrun) as Hall.
        destruct (proj1 (residue_rows_outcome distances angles use_radians rics []) Hall)
          as (rows & Hrun' & Hrows).
        rewrite Hrun in Hrun'. injection Hrun' as ->. cbn [app].
        destruct (shape_matches (map (map nan_to_num) rows) (length residues)) eqn:Hshape;
          [ | reflexivity ].
        exfalso. apply shape_matches_spec in Hshape. destruct Hshape as [Hne Hlen].
        destruct Hbad as [Hex | [Hnil | Hcount]].
        -- apply Exists_exists in Hex. destruct Hex as (ric & Hin & Hric).
           apply Hric. rewrite Forall_forall in Hall. apply Hall. exact Hin.
        -- rewrite Hnil in Hrows. destruct rows; [ contradiction | discriminate ].
        -- congruence.
      * cbn [bind]. f_equal. eapply residue_rows_error. exact Hrun.
Qed.

Lemma canonical_outcome_witness :
  canonical_distances_and_dihedrals one_residue_structure
    default_distances default_angles false
  = Ok (Some {| columns := default_distances ++ default_angles;
                data := map (table_row default_distances default_angles false)
                            [first_residue] |}).
Proof.
  destruct (canonical_distances_and_dihedrals_outcome one_residue_structure
              default_distances default_angles false) as (_ & _ & Hone).
  destruct (Hone _ eq_refl) as (_ & Htable & _).
  apply Htable.
  - reflexivity.
  - repeat constructor; simpl; lra.
  - discriminate.
  - reflexivity.
Defined.

(** The shape and the range of a returned table.  It is not empty, has one
    row per residue of the chain other than water and sodium, every row has
    one entry per requested distance followed by one per requested angle,
    and every angle entry is a number within [[-pi, pi]] when [use_radians] is
    set and within [[-180, 180]] otherwise. *)
Theorem canonical_table_shape_and_range
    (s : Structure) (distances angles : list string) (use_radians : bool)
    (df : DataFrame) :
  canonical_distances_and_dihedrals s distances angles use_radians = Ok (Some df) ->
  let bound := if use_radians then PI else 180 in
  exists chain,
    get_chains s = [chain] /\
    data df <> [] /\
    length (data df) = length (filter not_water_or_sodium (get_resnames chain)) /\
    forall row, In row (data df) ->
      length row = (length distances + length angles)%nat /\
      forall x, In x (skipn (length distances) row) ->
                exists r, x = Fin r /\ - bound <= r <= bound.
Proof.
  intros Hrun bound.
  destruct (canonical_table s distances angles use_radians df Hrun)
    as (chain & Hchain & _ & Hdata).
  exists chain. split; [ exact Hchain | ].
  unfold canonical_distances_and_dihedrals in Hrun. rewrite Hchain in Hrun.
  cbn [length Nat.ltb Nat.leb pop rev app bind] in Hrun.
  destruct (structure_rebuild_test_pass chain); cbn [negb] in Hrun; [ | discriminate ].
  apply bind_Ok_inv in Hrun. destruct Hrun as (values & Hloop & Hrun).
  apply bind_Ok_inv in Hrun. destruct Hrun as ([] & Hshape & _).
  unfold assert in Hshape.
  destruct (shape_matches (map (map nan_to_num) values)
              (length (filter not_water_or_sodium (get_resnames chain)))) eqn:Hs;
    [ | discriminate ].
  apply shape_matches_spec in Hs. destruct Hs as [Hne Hcount].
  pose proof (for_each_residue_row _ _ _ _ _ _ Hloop) as Hrows. cbn [map app] in Hrows.
  pose proof (residue_rows_Ok _ _ _ _ _ _ Hloop) as Hall.
  assert (Hlen : length (data df) = length values).
  { rewrite Hdata, <- Hrows, !length_map. reflexivity. }
  split; [ | split ].
  - intros Hnil. rewrite Hnil in Hlen. destruct values; [ contradiction | discriminate ].
  - congruence.
  - intros row Hrow. rewrite Hdata in Hrow. apply in_map_iff in Hrow.
    destruct Hrow as (ric & <- & Hric).
    rewrite Forall_forall in Hall. specialize (Hall ric Hric).
    unfold table_row. split.
    + rewrite length_app, !length_map. reflexivity.
    + intros x Hx.
      rewrite skipn_app, length_map, Nat.sub_diag, skipn_all2 in Hx
        by (rewrite length_map; lia).
      cbn [skipn app] in Hx. apply in_map_iff in Hx. destruct Hx as (a & <- & Ha).
      unfold residue_angles_ok in Hall. rewrite Forall_forall in Hall.
      specialize (Hall a Ha). pose proof PI_RGT_0 as Hpi.
      unfold bound.
      destruct (to_float64 (get_angle ric a)) as [d | | | ]; simpl in Hall;
        try contradiction; destruct use_radians; cbn [deg_to_rad nan_to_num].
      * exists (d / 180 * PI). split; [ reflexivity | ].
        destruct (radians_order d) as [H1 H2]. split; [ apply H1 | apply H2 ]; lra.
      * exists d. split; [ reflexivity | lra ].
      * exists 0. split; [ reflexivity | lra ].
      * exists 0. split; [ reflexivity | lra ].
Qed.

Lemma canonical_table_shape_witness :
  exists df,
    canonical_distances_and_dihedrals one_residue_structure
      default_distances default_angles true = Ok (Some df) /\
    forall row, In row (data df) ->
      length row = 5%nat /\
      forall x, In x (skipn 1 row) -> exists r, x = Fin r /\ - PI <= r <= PI.
Proof.
  eexists. split; [ exact one_residue_table | ].
  destruct (canonical_table_shape_and_range one_residue_structure
              default_distances default_angles true _ one_residue_table)
    as (chain & _ & _ & _ & Hrows).
  exact Hrows.
Defined.

(** ** [sample_coords] *)

Lemma atom_getitem_setitem (d : atom_dict) (k k' : string) (v : vec3) :
  atom_getitem (atom_setitem d k v) k'
  = if String.eqb k k' then Ok v else atom_getitem d k'.
Proof.
  induction d as [ | [k0 v0] rest IH]; simpl.
  - reflexivity.
  - destruct (String.eqb_spec k0 k) as [-> | Hne]; simpl.
    + destruct (String.eqb k k'); reflexivity.
    + rewrite IH. destruct (String.eqb_spec k0 k') as [-> | Hne'].
      * destruct (String.eqb_spec k k') as [-> | ]; [ contradiction | reflexivity ].
      * reflexivity.
Qed.

Lemma find_snoc {A : Type} (f : A -> bool) (l : list A) (a : A) :
  find f (l ++ [a])
  = match find f l with
    | Some x => Some x
    | None => if f a then Some a else None
    end.
Proof.
  induction l as [ | x rest IH]; simpl.
  - reflexivity.
  - destruct (f x); [ reflexivity | exact IH ].
Qed.

Lemma atom_getitem_fold (atoms : list Atom) (d : atom_dict) (k : string) :
  atom_getitem
    (fold_left (fun d atom => atom_setitem d (get_name atom) (get_coord atom)) atoms d) k
  = match find (fun a => String.eqb (get_name a) k) (rev atoms) with
    | Some a => Ok (get_coord a)
    | None => atom_getitem d k
    end.
Proof.
  revert d. induction atoms as [ | a rest IH]; intros d; simpl.
  - reflexivity.
  - rewrite IH, find_snoc.
    destruct (find (fun a0 => String.eqb (get_name a0) k) (rev rest)); [ reflexivity | ].
    rewrite atom_getitem_setitem.
    destruct (String.eqb (get_name a) k); reflexivity.
Qed.

Lemma atom_contains_getitem (d : atom_dict) (k : string) :
  atom_contains d k = match atom_getitem d k with Ok _ => true | Raise _ => false end.
Proof.
  induction d as [ | [k0 v0] rest IH]; simpl.
  - reflexivity.
  - destruct (String.eqb k0 k); [ reflexivity | exact IH ].
Qed.

Lemma residue_dict_lookup (res : Residue) (k : string) :
  let coords :=
    fold_left (fun d atom => atom_setitem d (get_name atom) (get_coord atom))
              (get_atoms res) [] in
  atom_getitem coords k
  = match last_coord res k with Some v => Ok v | None => Raise KeyError end.
Proof.
  cbv zeta. rewrite atom_getitem_fold. unfold last_coord.
  destruct (find (fun a => String.eqb (get_name a) k) (rev (get_atoms res))); reflexivity.
Qed.

Lemma comprehension_present (res : Residue) (query : list string) :
  let coords :=
    fold_left (fun d atom => atom_setitem d (get_name atom) (get_coord atom))
              (get_atoms res) [] in
  forallb (atom_contains coords) query
  = forallb (fun k => match last_coord res k with Some _ => true | None => false end) query
  /\ (forallb (atom_contains coords) query = true ->
      comprehension (atom_getitem coords) query
      = Ok (map (fun k => match last_coord res k with Some v => v | None => vzero end)
                query)).
Proof.
  cbv zeta. induction query as [ | k rest [IHb IHc]]; simpl.
  - split; reflexivity.
  - rewrite atom_contains_getitem, (residue_dict_lookup res k), IHb.
    split.
    + destruct (last_coord res k); reflexivity.
    + destruct (last_coord res k) as [v | ]; cbn [andb]; [ | discriminate ].
      intros Hrest. cbn [bind]. rewrite IHc by (rewrite IHb; exact Hrest).
      reflexivity.
Qed.

Lemma sample_residue_eq (subset : option (list string)) (query : list string)
                        (acc : list CoordFrame) (res : Residue) :
  sample_residue subset query acc res
  = Ok (acc ++ if negb (excluded subset (get_resname res))
                  && forallb (fun k => match last_coord res k with
                                       | Some _ => true
                                       | None => false
                                       end) query
               then [frame_of query res] else []).
Proof.
  unfold sample_residue.
  destruct (excluded subset (get_resname res)); cbn [negb andb].
  - rewrite app_nil_r. reflexivity.
  - destruct (comprehension_present res query) as [Hb Hc]. cbv zeta in Hb, Hc.
    rewrite <- Hb.
    destruct (forallb _ query) eqn:Hall.
    + rewrite (Hc eq_refl). reflexivity.
    + rewrite app_nil_r. reflexivity.
Qed.

Lemma sample_chain_eq (subset : option (list string)) (query : list string)
                      (chain : list Residue) (acc : list CoordFrame) :
  for_each (sample_residue subset query)
           (filter (fun r => not_water_or_sodium (get_resname r)) chain) acc
  = Ok (acc ++ map (frame_of query) (filter (contributes subset query) chain)).
Proof.
  revert acc. induction chain as [ | res rest IH]; intros acc; simpl.
  - rewrite app_nil_r. reflexivity.
  - unfold contributes at 1.
    destruct (not_water_or_sodium (get_resname res)); cbn [andb].
    + cbn [for_each]. rewrite sample_residue_eq. cbn [bind]. rewrite IH.
      destruct (negb (excluded subset (get_resname res)) && forallb _ query);
        cbn [map]; rewrite <- app_assoc; reflexivity.
    + apply IH.
Qed.

(** [sample_coords] never raises, and returns one frame for each residue,
    in the order of the chains and of the residues in them, that is not water
    or sodium, belongs to [subset_residues] when that is given, and has an
    atom of every queried name; the frame is indexed by the queried names and
    its rows are the coordinates of the residue's last atom of each name. *)
Theorem sample_coords_frames (chains : list (list Residue))
                             (subset_residues : option (list string))
                             (query_atoms : list string) :
  sample_coords chains subset_residues query_atoms
  = Ok (map (frame_of query_atoms)
            (filter (contributes subset_residues query_atoms) (concat chains))).
Proof.
  unfold sample_coords.
  change (map (frame_of query_atoms)
            (filter (contributes subset_residues query_atoms) (concat chains)))
    with ([] ++ map (frame_of query_atoms)
                    (filter (contributes subset_residues query_atoms) (concat chains))).
  generalize (@nil CoordFrame) as acc.
  induction chains as [ | chain rest IH]; intros acc; simpl.
  - rewrite app_nil_r. reflexivity.
  - rewrite sample_chain_eq. cbn [bind]. rewrite IH.
    rewrite filter_app, map_app, app_assoc. reflexivity.
Qed.

(** ** The attention mask of [p_sample] *)

Lemma skipn_repeat_zeros {A : Type} (a : A) (k n : nat) :
  skipn k (repeat a n) = repeat a (n - k).
Proof.
  revert n. induction k as [ | k IH]; intros n.
  - rewrite Nat.sub_0_r. reflexivity.
  - destruct n as [ | n]; [ reflexivity | ]. simpl. apply IH.
Qed.

Lemma slice_stop_le (len : nat) (l : Z) : (slice_stop len l <= len)%nat.
Proof. unfold slice_stop. destruct (Z.ltb_spec l 0); lia. Qed.

Lemma skipn_past {A : Type} (done : list A) (x : A) (tail : list A) :
  skipn (S (length done)) (done ++ x :: tail) = tail.
Proof. induction done as [ | y rest IH]; [ reflexivity | exact IH ]. Qed.

Section Mask.
Variables rows cols : nat.

Let zeros : list R := repeat 0 cols.
Let body : list (list R) -> nat * Z -> result (list (list R)) :=
  fun mask '(i, l) => set_row_prefix mask i l.

Lemma set_row_prefix_next (done : list (list R)) (l : Z) :
  (length done < rows)%nat ->
  set_row_prefix (done ++ repeat zeros (rows - length done)) (length done) l
  = Ok ((done ++ [mask_row cols l]) ++ repeat zeros (rows - S (length done))).
Proof.
  intros Hlt. unfold set_row_prefix.
  replace (rows - length done)%nat with (S (rows - S (length done))) by lia.
  cbn [repeat].
  rewrite nth_error_app2 by lia. rewrite Nat.sub_diag. cbn [nth_error].
  rewrite firstn_app, Nat.sub_diag, firstn_all. cbn [firstn]. rewrite app_nil_r.
  rewrite skipn_past.
  replace (length zeros) with cols by (symmetry; apply repeat_length).
  replace (skipn (slice_stop cols l) zeros) with (repeat 0 (cols - slice_stop cols l))
    by (symmetry; apply skipn_repeat_zeros).
  rewrite <- app_assoc. reflexivity.
Qed.

Lemma mask_loop_ok (ls : list Z) :
  forall done : list (list R),
    (length done + length ls <= rows)%nat ->
    for_each body (enumerate_from (length done) ls)
             (done ++ repeat zeros (rows - length done))
    = Ok (done ++ map (mask_row cols) ls
               ++ repeat zeros (rows - length done - length ls)).
Proof.
  induction ls as [ | l rest IH]; intros done Hlen.
  - cbn [enumerate_from for_each map app length]. rewrite Nat.sub_0_r. reflexivity.
  - cbn [enumerate_from for_each length] in *. unfold body at 1.
    rewrite set_row_prefix_next by lia. cbn [bind].
    replace (S (length done)) with (length (done ++ [mask_row cols l]))
      by (rewrite length_app; cbn [length]; lia).
    rewrite IH by (rewrite length_app; cbn [length]; lia).
    rewrite length_app. cbn [length map].
    rewrite <- app_assoc. cbn [app].
    replace (rows - (length done + 1) - length rest)%nat
      with (rows - length done - S (length rest))%nat by lia.
    reflexivity.
Qed.

Lemma mask_loop_error (ls : list Z) :
  forall done : list (list R),
    (length done <= rows)%nat ->
    (rows < length done + length ls)%nat ->
    for_each body (enumerate_from (length done) ls)
             (done ++ repeat zeros (rows - length done))
    = Raise IndexError.
Proof.
  induction ls as [ | l rest IH]; intros done Hle Hgt.
  - cbn [length] in Hgt. lia.
  - cbn [enumerate_from for_each length] in *. unfold body at 1.
    destruct (Nat.eq_dec (length done) rows) as [Heq | Hne].
    + unfold set_row_prefix. rewrite Heq at 1. rewrite Nat.sub_diag.
      cbn [repeat]. rewrite app_nil_r.
      replace (nth_error done (length done)) with (@None (list R))
        by (symmetry; apply nth_error_None; lia).
      reflexivity.
    + rewrite set_row_prefix_next by lia. cbn [bind].
      replace (S (length done)) with (length (done ++ [mask_row cols l]))
        by (rewrite length_app; cbn [length]; lia).
      apply IH; rewrite length_app; cbn [length]; lia.
Qed.
End Mask.

Lemma attention_mask_outcome (rows cols : nat) (seq_lens : list Z) :
  ((length seq_lens <= rows)%nat ->
   attention_mask (rows, cols) seq_lens
   = Ok (map (mask_row cols) seq_lens
         ++ repeat (repeat 0 cols) (rows - length seq_lens)))
  /\
  ((rows < length seq_lens)%nat ->
   attention_mask (rows, cols) seq_lens = Raise IndexError).
Proof.
  unfold attention_mask, enumerate. cbn [fst snd]. split; intros Hlen.
  - pose proof (mask_loop_ok rows cols seq_lens [] Hlen) as Hrun.
    cbn [length app] in Hrun. rewrite Nat.sub_0_r in Hrun. exact Hrun.
  - pose proof (mask_loop_error rows cols seq_lens [] (Nat.le_0_l rows) Hlen) as Hrun.
    cbn [length app] in Hrun. rewrite Nat.sub_0_r in Hrun. exact Hrun.
Qed.

(** The attention mask.  For a batch of [rows] sequences of [cols] positions,
    row [i] is ones over the first [seq_lens[i]] positions (as the slice [:l]
    cuts them: at most [cols], and counted back from the end for a negative
    length) and zeros after; rows without a length stay zeros.  More lengths
    than rows raise [IndexError]. *)
Theorem attention_mask_rows (rows cols : nat) (seq_lens : list Z) :
  ((length seq_lens <= rows)%nat ->
   attention_mask (rows, cols) seq_lens
   = Ok (map (mask_row cols) seq_lens
         ++ repeat (repeat 0 cols) (rows - length seq_lens)))
  /\
  ((rows < length seq_lens)%nat ->
   attention_mask (rows, cols) seq_lens = Raise IndexError).
Proof. exact (attention_mask_outcome rows cols seq_lens). Qed.

Lemma attention_mask_rows_witness :
  attention_mask (3%nat, 4%nat) [2%Z; 9%Z]
  = Ok [[1; 1; 0; 0]; [1; 1; 1; 1]; [0; 0; 0; 0]]
  /\ attention_mask (1%nat, 4%nat) [2%Z; 9%Z] = Raise IndexError.
Proof.
  split.
  - apply (proj1 (attention_mask_rows 3 4 [2%Z; 9%Z])). simpl. lia.
  - apply (proj2 (attention_mask_rows 1 4 [2%Z; 9%Z])). simpl. lia.
Defined.

(** ** [p_sample]: its exceptions and its last step *)

Lemma insert_unique_In (v x : Z) (sorted : list Z) :
  In x (insert_unique v sorted) <-> x = v \/ In x sorted.
Proof.
  induction sorted as [ | w rest IH]; simpl.
  - intuition.
  - destruct (Z.ltb_spec v w); [ simpl; intuition | ].
    destruct (Z.eqb_spec v w) as [-> | Hne]; simpl; [ intuition | ].
    rewrite IH. intuition.
Qed.

Lemma unique_In (x : Z) (t : list Z) : In x (unique t) <-> In x t.
Proof.
  unfold unique. induction t as [ | v rest IH]; simpl; [ reflexivity | ].
  rewrite insert_unique_In, IH. intuition.
Qed.

Lemma unique_constant (t : list Z) (v : Z) : unique t = [v] <-> constant_time t v.
Proof.
  unfold constant_time. split.
  - intros Hu. split.
    + intros ->. discriminate.
    + apply Forall_forall. intros x Hx. apply unique_In in Hx.
      rewrite Hu in Hx. destruct Hx as [Hx | []]. exact Hx.
  - intros [Hne Hall]. apply unique_all_equal; assumption.
Qed.

Lemma tensor_getitem_outcome (a : list R) (i : Z) :
  (index_in_range (length a) i -> exists x, tensor_getitem a i = Ok x) /\
  (~ index_in_range (length a) i -> tensor_getitem a i = Raise IndexError) /\
  (forall e, tensor_getitem a i = Raise e -> e = IndexError).
Proof.
  unfold tensor_getitem, index_in_range.
  set (n := Z.of_nat (length a)).
  set (j := if (i <? 0)%Z then (i + n)%Z else i).
  assert (Hj : ((j <? 0) || (n <=? j))%Z = false <-> (- n <= i < n)%Z).
  { unfold j. rewrite orb_false_iff, Z.ltb_ge, Z.leb_gt.
    destruct (Z.ltb_spec i 0); lia. }
  destruct ((j <? 0) || (n <=? j))%Z eqn:Hb.
  - split; [ | split ].
    + intros Hr. apply Hj in Hr. discriminate.
    + reflexivity.
    + intros e [= <-]. reflexivity.
  - assert (Hlt : (Z.to_nat j < length a)%nat).
    { apply orb_false_iff in Hb. destruct Hb as [H1 H2].
      apply Z.ltb_ge in H1. apply Z.leb_gt in H2. unfold n in H2. lia. }
    rewrite (nth_error_nth' a 0 Hlt).
    split; [ | split ].
    + intros _. eexists. reflexivity.
    + intros Hn. exfalso. apply Hn. apply Hj. reflexivity.
    + discriminate.
Qed.

Lemma attention_mask_error (shape : nat * nat) (seq_lens : list Z) (e : exn) :
  attention_mask shape seq_lens = Raise e -> e = IndexError.
Proof.
  destruct shape as [rows cols].
  destruct (attention_mask_outcome rows cols seq_lens) as [Hok Hbad].
  destruct (Nat.le_gt_cases (length seq_lens) rows) as [Hle | Hgt].
  - rewrite (Hok Hle). discriminate.
  - rewrite (Hbad Hgt). intros [= <-]. reflexivity.
Qed.

Section SampleStep.
Context {tensor generator : Type} `{Torch tensor generator}.
Variable compute_alphas : list R -> alpha_beta_terms.
Variable model : tensor -> list Z -> list (list R) -> tensor.

(** With one time value the step raises nothing but [IndexError]. *)
Lemma p_sample_constant_error (x : tensor) (t seq_lens : list Z) (t_index v : Z)
                              (betas : list R) (g : generator) (e : exn) :
  constant_time t v ->
  p_sample compute_alphas model x t seq_lens t_index betas g = Raise e ->
  e = IndexError.
Proof.
  intros Hc. apply unique_constant in Hc. unfold p_sample. rewrite Hc.
  destruct (tensor_getitem (map (fun a => 1 / sqrt a) (alphas (compute_alphas betas))) v)
    as [a | e1] eqn:H1; cbn [bind];
    [ | intros [= <-]; eapply tensor_getitem_outcome; exact H1 ].
  destruct (tensor_getitem betas v) as [b | e2] eqn:H2; cbn [bind];
    [ | intros [= <-]; eapply tensor_getitem_outcome; exact H2 ].
  destruct (tensor_getitem (sqrt_one_minus_alphas_cumprod (compute_alphas betas)) v)
    as [c | e3] eqn:H3; cbn [bind];
    [ | intros [= <-]; eapply tensor_getitem_outcome; exact H3 ].
  destruct (attention_mask (shape2 x) seq_lens) as [mask | e4] eqn:H4; cbn [bind];
    [ | intros [= <-]; eapply attention_mask_error; exact H4 ].
  destruct (v =? 0)%Z; [ discriminate | ].
  destruct (tensor_getitem (posterior_variance (compute_alphas betas)) v)
    as [pv | e5] eqn:H5; cbn [bind];
    [ | intros [= <-]; eapply tensor_getitem_outcome; exact H5 ].
  destruct (randn_like g x). discriminate.
Qed.

(** The time assertion.  [p_sample] raises [AssertionError] exactly when
    the time tensor does not hold one value: when it is empty or has two
    different entries.  Nothing else in the step raises it. *)
Theorem p_sample_assertion_iff
    (x : tensor) (t seq_lens : list Z) (t_index : Z) (betas : list R) (g : generator) :
  p_sample compute_alphas model x t seq_lens t_index betas g = Raise AssertionError
  <-> ~ exists v, constant_time t v.
Proof.
  split.
  - intros Hrun (v & Hc).
    pose proof (p_sample_constant_error x t seq_lens t_index v betas g
                  AssertionError Hc Hrun).
    discriminate.
  - intros Hn. unfold p_sample.
    destruct (unique t) as [ | v [ | w rest]] eqn:Hu; try reflexivity.
    exfalso. apply Hn. exists v. apply unique_constant. exact Hu.
Qed.

(** The index errors.  With one time value [v], the step raises
    [IndexError] when [v] is outside the schedule [betas] (below [-len] or
    from [len] on; a negative [v] within range counts from the end), and
    when there are more sequence lengths than rows in the batch; and with one
    time value [IndexError] is the only exception the step can raise. *)
Theorem p_sample_index_error
    (x : tensor) (t seq_lens : list Z) (t_index v : Z) (betas : list R) (g : generator) :
  constant_time t v ->
  (~ index_in_range (length betas) v \/ (fst (shape2 x) < length seq_lens)%nat ->
   p_sample compute_alphas model x t seq_lens t_index betas g = Raise IndexError)
  /\
  (forall e : exn,
      p_sample compute_alphas model x t seq_lens t_index betas g = Raise e ->
      e = IndexError).
Proof.
  intros Hc. split.
  - intros Hbad.
    destruct (p_sample compute_alphas model x t seq_lens t_index betas g)
      as [[out g'] | e] eqn:Hrun.
    + exfalso. apply unique_constant in Hc. unfold p_sample in Hrun. rewrite Hc in Hrun.
      apply bind_Ok_inv in Hrun. destruct Hrun as (a & _ & Hrun).
      apply bind_Ok_inv in Hrun. destruct Hrun as (b & Hb & Hrun).
      apply bind_Ok_inv in Hrun. destruct Hrun as (c & _ & Hrun).
      apply bind_Ok_inv in Hrun. destruct Hrun as (mask & Hmask & _).
      destruct Hbad as [Hrange | Hrows].
      * rewrite (proj1 (proj2 (tensor_getitem_outcome betas v)) Hrange) in Hb.
        discriminate.
      * destruct (shape2 x) as [rows cols]. cbn [fst] in Hrows.
        rewrite (proj2 (attention_mask_outcome rows cols seq_lens) Hrows) in Hmask.
        discriminate.
    + f_equal. eapply p_sample_constant_error; eassumption.
  - intros e Hrun. eapply p_sample_constant_error; eassumption.
Qed.

(** The step at time 0 draws no noise: its sample does not depend on the
    random source, which it returns as it received it. *)
Theorem p_sample_time_zero_draws_no_noise
    (x : tensor) (t seq_lens : list Z) (t_index : Z) (betas : list R) (g g0 : generator) :
  constant_time t 0%Z ->
  result_map fst (p_sample compute_alphas model x t seq_lens t_index betas g)
  = result_map fst (p_sample compute_alphas model x t seq_lens t_index betas g0)
  /\ forall out g',
       p_sample compute_alphas model x t seq_lens t_index betas g = Ok (out, g') ->
       g' = g.
Proof.
  intros Hc. apply unique_constant in Hc. unfold p_sample. rewrite Hc.
  destruct (tensor_getitem (map (fun a => 1 / sqrt a) (alphas (compute_alphas betas))) 0)
    as [a | ]; cbn [bind result_map]; [ | split; [ reflexivity | discriminate ] ].
  destruct (tensor_getitem betas 0) as [b | ]; cbn [bind result_map];
    [ | split; [ reflexivity | discriminate ] ].
  destruct (tensor_getitem (sqrt_one_minus_alphas_cumprod (compute_alphas betas)) 0)
    as [c | ]; cbn [bind result_map]; [ | split; [ reflexivity | discriminate ] ].
  destruct (attention_mask (shape2 x) seq_lens) as [mask | ]; cbn [bind result_map];
    [ | split; [ reflexivity | discriminate ] ].
  cbn [Z.eqb result_map fst]. split; [ reflexivity | ].
  intros out g' [= _ <-]. reflexivity.
Qed.
End SampleStep.

Lemma p_sample_index_error_witness :
  p_sample (fun betas : list R =>
              {| alphas := map (fun b => 1 - b) betas;
                 sqrt_one_minus_alphas_cumprod := map sqrt betas;
                 posterior_variance := betas |})
           (fun x _ _ => x) [[[1]]; [[2]]] [5%Z; 5%Z] [1%Z; 1%Z] 0%Z
           [1 / 10; 2 / 10] 0%nat
  = Raise IndexError.
Proof.
  apply (proj1 (p_sample_index_error _ (fun x _ _ => x) [[[1]]; [[2]]] [5%Z; 5%Z]
                  [1%Z; 1%Z] 0%Z 5%Z [1 / 10; 2 / 10] 0%nat
                  (conj (fun E => eq_ind [] (fun l => match l with [] => True | _ => False end)
                                         I _ (eq_sym E))
                        (Forall_cons _ eq_refl (Forall_cons _ eq_refl (Forall_nil _)))))).
  left. unfold index_in_range. simpl. lia.
Defined.

Lemma p_sample_time_zero_witness :
  exists out,
    p_sample (fun betas : list R =>
                {| alphas := map (fun b => 1 - b) betas;
                   sqrt_one_minus_alphas_cumprod := map sqrt betas;
                   posterior_variance := betas |})
             (fun x _ _ => x) [[[1]]; [[2]]] [0%Z; 0%Z] [1%Z; 1%Z] 3%Z
             [1 / 10; 2 / 10] 7%nat = Ok (out, 7%nat).
Proof.
  set (terms := fun betas : list R =>
                  {| alphas := map (fun b => 1 - b) betas;
                     sqrt_one_minus_alphas_cumprod := map sqrt betas;
                     posterior_variance := betas |}).
  assert (Hrun : exists out g',
             p_sample terms (fun x _ _ => x) [[[1]]; [[2]]] [0%Z; 0%Z] [1%Z; 1%Z] 3%Z
                      [1 / 10; 2 / 10] 7%nat = Ok (out, g'))
    by (eexists; eexists; reflexivity).
  destruct Hrun as (out & g' & Hrun). exists out. rewrite Hrun.
  do 2 f_equal.
  apply (proj2 (p_sample_time_zero_draws_no_noise terms (fun x _ _ => x) [[[1]]; [[2]]]
                  [0%Z; 0%Z] [1%Z; 1%Z] 3%Z [1 / 10; 2 / 10] 7%nat 7%nat
                  (conj (fun E => eq_ind [] (fun l => match l with [] => True | _ => False end)
                                         I _ (eq_sym E))
                        (Forall_cons _ eq_refl (Forall_cons _ eq_refl (Forall_nil _)))))
               out g' Hrun).
Defined.

(** ** From the chain back to internal coordinates *)

Lemma place_dihedral_internal (a b c : vec3) (theta L tau : R) (mode : bool) :
  ~ collinear a b c -> 0 < L -> 0 < theta < PI ->
  has_internal_coordinates a b c (place_dihedral a b c theta L tau mode) L theta tau.
Proof.
  intros Hnc HL Hth.
  assert (Hsin : 0 < sin theta) by (apply sin_gt_0; lra).
  unfold has_internal_coordinates. split; [ | split ].
  - unfold dist. rewrite place_dihedral_distance by exact Hnc. apply Rabs_right. lra.
  - apply (place_dihedral_angle_at_c a b c theta L tau mode Hnc); lra.
  - apply (place_dihedral_dihedral a b c theta L tau mode Hnc).
    apply Rmult_lt_0_compat; assumption.
Qed.

Lemma proper_tables_nondegenerate (self : NERFBuilder) :
  proper_tables self -> nondegenerate_tables self.
Proof.
  intros Hp b i. destruct (Hp b i) as [HL Hth]. split.
  - intros L HLk. apply Rgt_not_eq. apply HL. exact HLk.
  - intros theta Hk. apply Rgt_not_eq. apply sin_gt_0; apply Hth; exact Hk.
Qed.

(** The chain realises its internal coordinates.  For a constructed builder
    with non-collinear seed atoms, positive bond lengths and bond angles
    strictly between [0] and [pi], every residue index [i] the loop
    processes places three atoms such that: the new N is at the C-N length
    from the previous C, with the C-N angle and the dihedral [psi[i]]; the new
    CA is at the N-CA length, with the N-CA angle and the dihedral
    [omega[i]]; the new C is at the CA-C length, with the CA-C angle and the
    dihedral [phi[i+1]]. *)
Theorem chain_realises_internal_coordinates
    (p s o : array) (l_n_ca l_ca_c l_c_n a_n_ca a_ca_c a_c_n : bond_value)
    (ic : list (list R)) (self : NERFBuilder) (coords : list vec3)
    (phis psis omegas : list R) :
  NERFBuilder_init p s o l_n_ca l_ca_c l_c_n a_n_ca a_ca_c a_c_n ic = Ok self ->
  phi self = Arr1 phis -> psi self = Arr1 psis -> omega self = Arr1 omegas ->
  (forall s0 s1 s2, init_coords self = [s0; s1; s2] -> ~ collinear s0 s1 s2) ->
  proper_tables self ->
  cartesian_coords self = Ok coords ->
  forall i, (i < residues_processed phis psis omegas)%nat ->
    exists q0 q1 q2 q3 q4 q5 a1 l1 a2 l2 a3 l3,
      bond_params self i a1 l1 a2 l2 a3 l3 /\
      nth_error coords (3 * i) = Some q0 /\
      nth_error coords (3 * i + 1) = Some q1 /\
      nth_error coords (3 * i + 2) = Some q2 /\
      nth_error coords (3 * i + 3) = Some q3 /\
      nth_error coords (3 * i + 4) = Some q4 /\
      nth_error coords (3 * i + 5) = Some q5 /\
      has_internal_coordinates q0 q1 q2 q3 l1 a1 (nth i psis 0) /\
      has_internal_coordinates q1 q2 q3 q4 l2 a2 (nth i omegas 0) /\
      has_internal_coordinates q2 q3 q4 q5 l3 a3 (nth (S i) phis 0).
Proof.
  intros Hinit Hp Hs Ho Hseeds Hprop Hrun i Hi.
  pose proof (NERFBuilder_init_constructed _ _ _ _ _ _ _ _ _ _ _ Hinit) as Hc.
  pose proof (proper_tables_nondegenerate self Hprop) as Hnd.
  destruct (cartesian_coords_spec self coords phis psis omegas Hc Hp Hs Ho Hrun)
    as (_ & _ & Hplaced).
  destruct (Hplaced i Hi)
    as (q0 & q1 & q2 & a1 & l1 & a2 & l2 & a3 & l3 & Hpar & H0 & H1 & H2 & Hq).
  cbv zeta in Hq. destruct Hq as (H3 & H4 & H5).
  assert (Hnc0 : ~ collinear q0 q1 q2).
  { apply (chain_context_noncollinear self coords phis psis omegas Hc Hp Hs Ho Hrun
             Hnd Hseeds i); [ unfold residues_processed in Hi; lia | assumption .. ]. }
  destruct Hpar as (A1 & L1 & A2 & L2 & A3 & L3).
  set (q3 := place_dihedral q0 q1 q2 a1 l1 (nth i psis 0) (use_torch self)) in *.
  set (q4 := place_dihedral q1 q2 q3 a2 l2 (nth i omegas 0) (use_torch self)) in *.
  set (q5 := place_dihedral q2 q3 q4 a3 l3 (nth (S i) phis 0) (use_torch self)) in *.
  assert (Hnc1 : ~ collinear q1 q2 q3).
  { apply place_dihedral_noncollinear;
      [ exact Hnc0 | apply (proj1 (Hnd C_N i)); exact L1
      | apply (proj2 (Hnd C_N i)); exact A1 ]. }
  assert (Hnc2 : ~ collinear q2 q3 q4).
  { apply place_dihedral_noncollinear;
      [ exact Hnc1 | apply (proj1 (Hnd N_CA i)); exact L2
      | apply (proj2 (Hnd N_CA i)); exact A2 ]. }
  exists q0, q1, q2, q3, q4, q5, a1, l1, a2, l2, a3, l3.
  split; [ repeat split; assumption | ].
  repeat (split; [ assumption | ]).
  split; [ | split ].
  - apply place_dihedral_internal;
      [ exact Hnc0 | apply (proj1 (Hprop C_N i)); exact L1
      | apply (proj2 (Hprop C_N i)); exact A1 ].
  - apply place_dihedral_internal;
      [ exact Hnc1 | apply (proj1 (Hprop N_CA i)); exact L2
      | apply (proj2 (Hprop N_CA i)); exact A2 ].
  - apply place_dihedral_internal;
      [ exact Hnc2 | apply (proj1 (Hprop CA_C i)); exact L3
      | apply (proj2 (Hprop CA_C i)); exact A3 ].
Qed.

Lemma default_tables_proper (p s o : array) (self : NERFBuilder) :
  NERFBuilder_default p s o = Ok self -> proper_tables self.
Proof.
  intros Hinit. apply NERFBuilder_init_fields in Hinit.
  destruct Hinit as (_ & _ & _ & _ & Hl & Ha & _).
  pose proof PI_RGT_0 as Hpi.
  intros b i. unfold _get_bond_length, _get_bond_angle. rewrite Hl, Ha.
  cbn [getitem]. split.
  - intros L.
    destruct (bond_eqb C_N b); [ intros [= <-]; unfold C_N_LENGTH; lra | ].
    destruct (bond_eqb N_CA b); [ intros [= <-]; unfold N_CA_LENGTH; lra | ].
    destruct (bond_eqb CA_C b); [ intros [= <-]; unfold CA_C_LENGTH; lra | ].
    discriminate.
  - intros theta.
    destruct (bond_eqb C_N b);
      [ intros [= <-]; unfold default_bond_angle_c_n; split; nra | ].
    destruct (bond_eqb N_CA b);
      [ intros [= <-]; unfold default_bond_angle_n_ca; split; nra | ].
    destruct (bond_eqb CA_C b);
      [ intros [= <-]; unfold default_bond_angle_ca_c; split; nra | ].
    discriminate.
Qed.

Lemma default_builder_seeds (p s o : array) (self : NERFBuilder) :
  NERFBuilder_default p s o = Ok self ->
  forall s0 s1 s2, init_coords self = [s0; s1; s2] -> ~ collinear s0 s1 s2.
Proof.
  intros Hinit s0 s1 s2 Hs. apply NERFBuilder_init_fields in Hinit.
  destruct Hinit as (_ & _ & _ & _ & _ & _ & Hall & _).
  apply default_seeds_noncollinear. rewrite Hall, Hs. reflexivity.
Qed.

(** The default builder on two residues: the first new N atom. *)
Lemma chain_realises_witness :
  exists self coords q0 q1 q2 q3,
    NERFBuilder_default (np_array [0; -1]) (np_array [2; 0]) (np_array [3; 0]) = Ok self /\
    cartesian_coords self = Ok coords /\
    firstn 4 coords = [q0; q1; q2; q3] /\
    has_internal_coordinates q0 q1 q2 q3 C_N_LENGTH default_bond_angle_c_n 2.
Proof.
  eexists. eexists.
  destruct (chain_realises_internal_coordinates
              (np_array [0; -1]) (np_array [2; 0]) (np_array [3; 0])
              (Scalar N_CA_LENGTH) (Scalar CA_C_LENGTH) (Scalar C_N_LENGTH)
              (Scalar default_bond_angle_n_ca) (Scalar default_bond_angle_ca_c)
              (Scalar default_bond_angle_c_n) [N_INIT; CA_INIT; C_INIT]
              _ _ [0; -1] [2; 0] [3; 0]
              eq_refl eq_refl eq_refl eq_refl
              (default_builder_seeds _ _ _ _ eq_refl)
              (default_tables_proper _ _ _ _ eq_refl)
              eq_refl 0%nat (le_n 1))
    as (q0 & q1 & q2 & q3 & q4 & q5 & a1 & l1 & a2 & l2 & a3 & l3
        & Hpar & H0 & H1 & H2 & H3 & _ & _ & Hint & _).
  exists q0, q1, q2, q3.
  split; [ reflexivity | ]. split; [ reflexivity | ].
  destruct Hpar as (A1 & L1 & _).
  cbn in A1, L1. injection A1 as <-. injection L1 as <-.
  cbn [Nat.mul Nat.add nth_error] in H0, H1, H2, H3.
  injection H0 as <-. injection H1 as <-. injection H2 as <-. injection H3 as <-.
  split; [ reflexivity | exact Hint ].
Defined.
